(** * PageRank: the transition model and the two ranking engines

    A shallow embedding of [pagerank.py] and the properties of its three
    functions [transition_model], [sample_pagerank] and [iterate_pagerank],
    of the crawler [crawl] that builds their corpus and of the program
    [main] that runs them.

    The three functions are embedded twice, once for each reading of
    their arithmetic.
    - The exact reading: numbers are rationals, [Qc].  It answers what the
      algorithm computes when no operation rounds: the claims that are
      worded for exact arithmetic, and those in which rounding decides
      nothing.  Its closing check [sum(...) != 1] can never fail.
    - The binary64 reading, in the module [binary64]: numbers are the
      floats of the kernel, dictionaries keep the order of insertion and
      [sum] is the built-in of the interpreter.  It is the program as
      Python runs it: there the closing check fails on ordinary inputs, a
      small damping factor is absorbed when it is added, and the pass at
      which the loop stops can differ from the exact one.

    Modelling decisions of the exact reading.
    - A corpus is a Python [dict] from page names to [set]s of page names:
      a [gmap page (gset page)].  A probability distribution or a rank table
      is a [dict] from page names to numbers: a [gmap page Qc].  The order in
      which a dictionary is traversed is the order of the finite map; every
      quantity computed below is a sum or a pointwise update and no loop can
      raise two different exceptions, so the order is not observable in the
      outcomes.
    - Python numbers ([int] and [float]) are exact rationals, [Qc].  True
      division [x / y] raises [ZeroDivisionError] when [y] is zero.
    - Python exceptions are the constructors of [exn]; a function that can
      raise returns a [result].
    - The global generator of the [random] module is a stream of variates in
      the interval [0, 1), threaded through the sampler.
    - The [while] loop of [iterate_pagerank] has no bound in the source; the
      embedding takes a number of passes it may perform ([fuel]) and answers
      [None] when that number does not suffice.
    - The calls to [print] that precede a [raise] in the three functions
      are not modelled.  The lines that [main] prints are a list of strings.
    - [os.listdir], the reading of a file, [re.findall] with the pattern of
      the source and the format [:.4f] of a number are functions of the
      environment, which [crawl] and [main] take as parameters; the
      directory is taken to be readable.  The second loop of [crawl]
      assigns every key once, from the keys alone, so that the order of its
      traversal is not observable either. *)

From Stdlib Require Import QArith Qcanon Qcabs Qround Lia.
From Stdlib Require Import Floats Uint63.
From stdpp Require Import gmap strings list fin_maps numbers.
From stdpp Require Import pretty sorting.

#[local] Set Warnings "-clear-no-such-hyp".
Local Open Scope Qc_scope.

(** ** Exceptions and results *)

Inductive exn : Set :=
  | ZeroDivisionError
  | KeyError
  | IndexError
  | ValueError
  | Exception.

Inductive result (A : Type) : Type :=
  | Return (a : A)
  | Raise (e : exn).
Arguments Return {A} a.
Arguments Raise {A} e.

#[global] Instance result_bind : MBind result := λ A B k r,
  match r with
  | Return a => k a
  | Raise e => Raise e
  end.

#[global] Instance exn_eq_dec : EqDecision exn.
Proof. solve_decision. Defined.

#[global] Instance result_eq_dec {A} `{EqDecision A} : EqDecision (result A).
Proof. solve_decision. Defined.

(** The error conditions named by the design document, and the Python
    exceptions that signal them: the explicit [raise Exception(...)] of the
    three functions reports a distribution that does not sum to one;
    [ValueError] is Python's exception for an argument of the right type and
    a wrong value.  The other built-in exceptions are no condition of the
    taxonomy. *)
Inductive condition : Set :=
  | InvalidArgument
  | InvariantViolation
  | ConvergenceFailure.

Definition condition_of (e : exn) : option condition :=
  match e with
  | Exception => Some InvariantViolation
  | ValueError => Some InvalidArgument
  | ZeroDivisionError | KeyError | IndexError => None
  end.

Definition fails_with {A} (c : condition) (r : result A) : Prop :=
  ∃ e, r = Raise e ∧ condition_of e = Some c.

(** ** Numbers *)

Definition Qc_of_nat (n : nat) : Qc := Qc_of_Z (Z.of_nat n).

(** [x / y] on Python numbers. *)
Definition truediv (x y : Qc) : result Qc :=
  if decide (y = 0) then Raise ZeroDivisionError else Return (x / y).

(** The convergence threshold of [iterate_pagerank], [0.001]. *)
Definition threshold : Qc := Q2Qc (1 # 1000).

(** The tolerance [1e-9] of the design document. *)
Definition tolerance : Qc := Q2Qc (1 # 1000000000).

Section pagerank.
Context {page : Type} {page_eq_dec : EqDecision page}
  {page_countable : Countable page}.

(** ** Dictionaries *)

(** [d[k]] *)
Definition getitem {A} (m : gmap page A) (k : page) : result A :=
  match m !! k with
  | Some a => Return a
  | None => Raise KeyError
  end.

(** [len(d)] and [len(s)], as numbers. *)
Definition len_dict {A} (m : gmap page A) : Qc := Qc_of_nat (size m).
Definition len_set (s : gset page) : Qc := Qc_of_nat (size s).

(** The invariant of a corpus graph: every link target is a page of the
    corpus.  ([crawl] keeps only such links.) *)
Definition corpus_wf (corpus : gmap page (gset page)) : Prop :=
  map_Forall (λ _ links, links ⊆ dom corpus) corpus.

#[global] Instance corpus_wf_dec corpus : Decision (corpus_wf corpus).
Proof. unfold corpus_wf. apply _. Defined.

(** [for k, v in d.items(): state = body(k, v, state)], where the body may
    raise. *)
Definition for_each {A S} (m : gmap page A)
    (body : page → A → S → result S) (s0 : S) : result S :=
  map_fold (λ k v acc, s ← acc; body k v s) (Return s0) m.

(** [{k: f(k, v) for k, v in d.items()}] *)
Definition dict_comp {A B} (f : page → A → result B) (m : gmap page A) :
    result (gmap page B) :=
  for_each m (λ k v acc, b ← f k v; Return (<[k:=b]> acc)) ∅.

(** [sum(d.values())] *)
Definition sum_values (m : gmap page Qc) : Qc :=
  map_fold (λ _ v acc, acc + v) 0 m.

(** The last two steps of each of the three functions: divide every value by
    the total, and raise if the values do not sum to one afterwards.
<<
    total_probability = sum(d.values())
    d = {page: prob / total_probability for page, prob in d.items()}
    if sum(d.values()) != 1:
        raise Exception(...)
>> *)
Definition normalize (d : gmap page Qc) : result (gmap page Qc) :=
  let total_probability := sum_values d in
  d' ← dict_comp (λ _ prob, truediv prob total_probability) d;
  if decide (sum_values d' ≠ 1) then Raise Exception else Return d'.

(** ** The transition model *)

Definition transition_model (corpus : gmap page (gset page)) (pg : page)
    (damping_factor : Qc) : result (gmap page Qc) :=
  pd_dict ← dict_comp (λ _ _, truediv 1 (len_dict corpus)) corpus;
  page_links ← getitem corpus pg;
  if decide (size page_links = 0%nat) then Return pd_dict else
  links_probability ← truediv damping_factor (len_set page_links);
  damping_probability ← truediv (1 - damping_factor) (len_dict corpus);
  pd_dict ← for_each pd_dict (λ q _ pd,
      if decide (q ∈ page_links)
      then Return (<[q := links_probability + damping_probability]> pd)
      else Return (<[q := damping_probability]> pd)) pd_dict;
  normalize pd_dict.

(** ** The [random] module

    The generator is a stream of variates; [random()] takes the first one.
    [random_choice] and [random_choices] follow [random.choice] and
    [random.choices] of the standard library, the latter with its search
    [bisect] over the cumulative weights. *)

Definition rng : Type := nat → Qc.

Definition random (g : rng) : Qc * rng := (g 0%nat, λ i, g (S i)).

(** [l[i]] on a list, for an index that is not negative. *)
Definition list_getitem {A} (l : list A) (i : nat) : result A :=
  match l !! i with
  | Some a => Return a
  | None => Raise IndexError
  end.

(** [l[-1]] *)
Definition list_getlast {A} (l : list A) : result A :=
  match list.last l with
  | Some a => Return a
  | None => Raise IndexError
  end.

(** [int(u * n)]: the index drawn below [n]. *)
Definition randbelow (n : nat) (g : rng) : nat * rng :=
  let r := random g in
  (Z.to_nat (Qfloor (r.1 * Qc_of_nat n)), r.2).

Definition random_choice {A} (seq : list A) (g : rng) : result (A * rng) :=
  if decide (length seq = 0%nat) then Raise IndexError else
  let r := randbelow (length seq) g in
  a ← list_getitem seq r.1;
  Return (a, r.2).

(** [itertools.accumulate]: the running sums. *)
Fixpoint accumulate_from (acc : Qc) (l : list Qc) : list Qc :=
  match l with
  | [] => []
  | w :: l => (acc + w) :: accumulate_from (acc + w) l
  end.

Definition accumulate (l : list Qc) : list Qc := accumulate_from 0 l.

(** [bisect.bisect_right(a, x, lo, hi)]:
<<
    while lo < hi:
        mid = (lo + hi) // 2
        if x < a[mid]: hi = mid
        else: lo = mid + 1
    return lo
>>
    Every turn of the loop shrinks [hi - lo], which bounds their number. *)
Fixpoint bisect_loop (turns : nat) (a : list Qc) (x : Qc) (lo hi : nat) :
    result nat :=
  match turns with
  | O => Return lo
  | S turns =>
      if decide (lo < hi)%nat then
        let mid := ((lo + hi) `div` 2)%nat in
        am ← list_getitem a mid;
        if decide (x < am) then bisect_loop turns a x lo mid
        else bisect_loop turns a x (mid + 1)%nat hi
      else Return lo
  end.

Definition bisect (a : list Qc) (x : Qc) (lo hi : nat) : result nat :=
  bisect_loop (hi - lo) a x lo hi.

(** [random.choices(population, weights=weights, k=1)] *)
Definition random_choices {A} (population : list A) (weights : list Qc)
    (g : rng) : result (list A * rng) :=
  let n := length population in
  let cum_weights := accumulate weights in
  if decide (length cum_weights ≠ n) then Raise ValueError else
  total ← list_getlast cum_weights;
  if decide (total ≤ 0) then Raise ValueError else
  let hi := (n - 1)%nat in
  let r := random g in
  i ← bisect cum_weights (r.1 * total) 0 hi;
  a ← list_getitem population i;
  Return ([a]%list, r.2).

(** ** The sampling engine *)

(** The body of [for i in range(n)], [i] times. *)
Fixpoint sample_loop (i : nat) (corpus : gmap page (gset page))
    (damping_factor : Qc) (start_page : page) (page_rank : gmap page Qc)
    (g : rng) : result (gmap page Qc) :=
  match i with
  | O => Return page_rank
  | S i =>
      current_state ← transition_model corpus start_page damping_factor;
      '(next_page, g) ← random_choices (map_to_list current_state).*1
                                        (map_to_list current_state).*2 g;
      start_page ← list_getitem next_page 0;
      count ← getitem page_rank start_page;
      sample_loop i corpus damping_factor start_page
        (<[start_page := count + 1]> page_rank) g
  end.

Definition sample_pagerank (corpus : gmap page (gset page))
    (damping_factor : Qc) (n : Z) (g : rng) : result (gmap page Qc) :=
  '(start_page, g) ← random_choice (map_to_list corpus).*1 g;
  page_rank ← dict_comp (λ _ _, Return 0) corpus;
  page_rank ← sample_loop (Z.to_nat n) corpus damping_factor start_page
                 page_rank g;
  page_rank ← for_each page_rank (λ pg _ pr,
      count ← getitem pr pg;
      if decide (0 < count) then
        r ← truediv count (Qc_of_Z n);
        Return (<[pg := r]> pr)
      else Return pr) page_rank;
  normalize page_rank.

(** ** The iterative engine *)

(** The inner loop of a pass: the sum, over the pages [p] that link to
    [pg], of [previous_page_rank[p] / len(corpus[p])]. *)
Definition second_condition_sum (corpus : gmap page (gset page))
    (previous_page_rank : gmap page Qc) (pg : page) : result Qc :=
  for_each corpus (λ p links second_condition,
      if decide (pg ∈ links) then
        r ← getitem previous_page_rank p;
        q ← truediv r (len_set links);
        Return (second_condition + q)
      else Return second_condition) 0.

(** The first [for] loop of a pass: every rank is assigned anew, from the
    copy [previous_page_rank] taken when the pass begins. *)
Definition update_pass (corpus : gmap page (gset page))
    (damping_factor first_condition : Qc)
    (previous_page_rank page_rank : gmap page Qc) : result (gmap page Qc) :=
  for_each page_rank (λ pg _ pr,
      second_condition ← second_condition_sum corpus previous_page_rank pg;
      let second_condition := damping_factor * second_condition in
      Return (<[pg := first_condition + second_condition]> pr)) page_rank.

(** The second [for] loop of a pass: the number of pages whose rank moved by
    more than the threshold. *)
Definition changed_count (previous_page_rank page_rank : gmap page Qc) :
    result nat :=
  for_each page_rank (λ pg new count,
      old ← getitem previous_page_rank pg;
      if decide (threshold < Qcabs (old - new)) then Return (S count)
      else Return count) 0%nat.

(** [while not convergence], for at most [fuel] passes. *)
Fixpoint iterate_loop (fuel : nat) (corpus : gmap page (gset page))
    (damping_factor first_condition : Qc) (page_rank : gmap page Qc) :
    option (result (gmap page Qc)) :=
  match fuel with
  | O => None
  | S fuel =>
      let previous_page_rank := page_rank in
      match update_pass corpus damping_factor first_condition
              previous_page_rank page_rank with
      | Raise e => Some (Raise e)
      | Return page_rank =>
          match changed_count previous_page_rank page_rank with
          | Raise e => Some (Raise e)
          | Return count =>
              if decide (count = 0%nat) then Some (Return page_rank)
              else iterate_loop fuel corpus damping_factor first_condition
                     page_rank
          end
      end
  end.

Definition iterate_pagerank (fuel : nat) (corpus : gmap page (gset page))
    (damping_factor : Qc) : option (result (gmap page Qc)) :=
  match (page_rank ← dict_comp (λ _ _, truediv 1 (len_dict corpus)) corpus;
         first_condition ← truediv (1 - damping_factor) (len_dict page_rank);
         Return (page_rank, first_condition)) with
  | Raise e => Some (Raise e)
  | Return (page_rank, first_condition) =>
      match iterate_loop fuel corpus damping_factor first_condition
              page_rank with
      | None => None
      | Some (Raise e) => Some (Raise e)
      | Some (Return page_rank) => Some (normalize page_rank)
      end
  end.

(** ** Pure descriptions of the loops *)

(** The dictionary with the keys of [m] and the value [g k v] at the key [k]
    that holds [v] in [m]. *)
Definition remap {A B} (g : page → A → B) (m : gmap page A) : gmap page B :=
  map_imap (λ k v, Some (g k v)) m.

(** The sum of [g k v] over the entries of [m]. *)
Definition sum_over {A} (g : page → A → Qc) (m : gmap page A) : Qc :=
  map_fold (λ k v acc, acc + g k v) 0 m.

(** ** The transition model: what it computes *)

(** The value the loop of [transition_model] assigns to the page [q]. *)
Definition assigned_probability (corpus : gmap page (gset page))
    (page_links : gset page) (damping_factor : Qc) (q : page) : Qc :=
  if decide (q ∈ page_links)
  then damping_factor / len_set page_links
       + (1 - damping_factor) / len_dict corpus
  else (1 - damping_factor) / len_dict corpus.

(** The probability of the page [q] as the design document words it: the
    random-jump term, plus the follow-a-link term for a linked page. *)
Definition transition_weight (corpus : gmap page (gset page))
    (links : gset page) (d : Qc) (q : page) : Qc :=
  (1 - d) / len_dict corpus
  + (if decide (q ∈ links) then d / len_set links else 0).

(** ** The iterative engine: what a pass computes *)

(** The rank of [q] in a rank table. *)
Definition rank_of (ranks : gmap page Qc) (q : page) : Qc :=
  default 0 (ranks !! q).

(** The pages of the corpus whose outbound links contain [pg]. *)
Definition linking_to (corpus : gmap page (gset page)) (pg : page) :
    gmap page (gset page) :=
  filter (λ e, pg ∈ e.2) corpus.

(** The sum, over the pages [q] that link to [pg], of the previous rank of
    [q] divided by the number of its outbound links. *)
Definition incoming_rank (corpus : gmap page (gset page))
    (previous : gmap page Qc) (pg : page) : Qc :=
  sum_over (λ q links, rank_of previous q / len_set links)
    (linking_to corpus pg).

(** The rank table after a pass that starts from [previous]. *)
Definition pass (corpus : gmap page (gset page)) (d first : Qc)
    (previous : gmap page Qc) : gmap page Qc :=
  remap (λ pg _, first + d * incoming_rank corpus previous pg) previous.

(** No rank moved by more than the threshold. *)
Definition converged (previous new : gmap page Qc) : Prop :=
  map_Forall (λ pg v, ¬ threshold < Qcabs (rank_of previous pg - v)) new.

#[global] Instance converged_dec previous new : Decision (converged previous new).
Proof. unfold converged. apply _. Defined.

(** The rank table the iterative engine starts from, and the constant term
    of its recurrence. *)
Definition initial_ranks (corpus : gmap page (gset page)) : gmap page Qc :=
  remap (λ _ _, 1 / len_dict corpus) corpus.

Definition first_term (corpus : gmap page (gset page)) (d : Qc) : Qc :=
  (1 - d) / len_dict corpus.

(** The rank table after [k] passes that start from [ranks]. *)
Fixpoint after_passes (corpus : gmap page (gset page)) (d first : Qc)
    (k : nat) (ranks : gmap page Qc) : gmap page Qc :=
  match k with
  | O => ranks
  | S k => after_passes corpus d first k (pass corpus d first ranks)
  end.

(** The rank table after the first [k] passes of the engine. *)
Definition passes (corpus : gmap page (gset page)) (d : Qc) (k : nat) :
    gmap page Qc :=
  after_passes corpus d (first_term corpus d) k (initial_ranks corpus).

(** Pass number [k + 1] is the first one that moves no rank by more than
    the threshold. *)
Definition first_converged_at (corpus : gmap page (gset page)) (d : Qc)
    (k : nat) : Prop :=
  converged (passes corpus d k) (passes corpus d (S k))
  ∧ ∀ j, (j < k)%nat → ¬ converged (passes corpus d j) (passes corpus d (S j)).

(** A computation does not raise [Exception], and what it returns
    satisfies [P]. *)
Definition no_Exception {A} (P : A → Prop) (r : result A) : Prop :=
  match r with
  | Return a => P a
  | Raise e => e ≠ Exception
  end.

(** A random source draws from the interval [0, 1). *)
Definition rng_valid (g : rng) : Prop := ∀ i, 0 ≤ g i ∧ g i < 1.

End pagerank.

(** ** Concrete corpora *)

(** A corpus with a dangling page. *)
Definition corpus_abc : gmap string (gset string) :=
  {[ "A" := {[ "B" ]} ; "B" := ∅ ; "C" := {[ "A"; "B" ]} ]}.

(** Two pages that link to each other. *)
Definition corpus_two : gmap string (gset string) :=
  {[ "A" := {[ "B" ]} ; "B" := {[ "A" ]} ]}.

(** Two pages that link to each other, and a third that links to the first
    and that nothing links to. *)
Definition corpus_cycle : gmap string (gset string) :=
  {[ "A" := {[ "B" ]} ; "B" := {[ "A" ]} ; "C" := {[ "A" ]} ]}.

(** A corpus with a single page. *)
Definition corpus_one : gmap string (gset string) := {[ "A" := ∅ ]}.

(** A random source that always draws [0]. *)
Definition zeros : rng := λ _, 0.

(** The constants of the source: [DAMPING = 0.85], [SAMPLES = 10000]. *)
Definition DAMPING : Qc := Q2Qc (85 # 100).
Definition SAMPLES : Z := 10000.

(** A rank table for [corpus_cycle]. *)
Definition cycle_ranks (a b c : Qc) : gmap string Qc :=
  {[ "A" := a ; "B" := b ; "C" := c ]}.

(** The two rank tables between which the iterative engine alternates on
    [corpus_cycle] with the damping factor 1. *)
Definition cycle_odd : gmap string Qc :=
  cycle_ranks (Q2Qc (2 # 3)) (Q2Qc (1 # 3)) 0.
Definition cycle_even : gmap string Qc :=
  cycle_ranks (Q2Qc (1 # 3)) (Q2Qc (2 # 3)) 0.

(** The rank every page of a three-page corpus starts with. *)
Definition third : Qc := 1 / Qc_of_nat 3.

(** A damping factor in the interval (0, 1) whose first [N + 2] powers stay
    above 1/2. *)
Definition slow_damping (N : nat) : Qc := 1 - / Qc_of_nat (2 * (N + 2)).

(** ** The iterative engine: where the rank goes *)

Section rank_flow.
Context {page : Type} {page_eq_dec : EqDecision page}
  {page_countable : Countable page}.

(** The share of the rank of a page with the outbound links [links] that a
    pass hands on to pages of the corpus: the links that are keys of the
    corpus, out of all the links. *)
Definition kept_share (corpus : gmap page (gset page)) (links : gset page) :
    Qc :=
  Qc_of_nat (size (links ∩ dom corpus)) / len_set links.

(** The total distance between two rank tables. *)
Definition total_move (previous new : gmap page Qc) : Qc :=
  sum_over (λ pg v, Qcabs (rank_of new pg - v)) previous.

(** The rank held by the pages without outbound links. *)
Definition dangling_rank (corpus : gmap page (gset page))
    (ranks : gmap page Qc) : Qc :=
  sum_over (λ q links, if decide (links = ∅) then rank_of ranks q else 0)
    corpus.

(** Every page of the corpus has an outbound link. *)
Definition no_dangling (corpus : gmap page (gset page)) : Prop :=
  map_Forall (λ _ links, links ≠ ∅) corpus.

#[global] Instance no_dangling_dec corpus : Decision (no_dangling corpus).
Proof. unfold no_dangling. apply _. Defined.

End rank_flow.

(** ** The crawler

    [os.listdir], the reading of a file and [re.findall] with the pattern of
    the source are functions of the environment: [listdir] gives the names
    in a directory, [read] the contents of the file at a path, [findall] the
    targets the pattern captures in a text, in their order.  The directory
    is taken to be readable, so that none of them raises. *)

(** [s.endswith(suffix)] *)
Definition endswith (s suffix : string) : bool :=
  (String.length suffix <=? String.length s)%nat
  && String.eqb
       (String.substring (String.length s - String.length suffix)
          (String.length suffix) s) suffix.

(** [s.startswith(prefix)] *)
Definition startswith (s prefix : string) : bool := String.prefix prefix s.

(** [os.path.join(a, b)] of [posixpath]. *)
Definition path_join (a b : string) : string :=
  if startswith b "/" then b
  else if bool_decide (a = "") || endswith a "/" then (a ++ b)%string
  else (a ++ "/" ++ b)%string.

Section crawl.
Variable listdir : string → list string.
Variable read : string → string.
Variable findall : string → list string.

(** The first loop of [crawl], over the names that remain to be visited. *)
Fixpoint crawl_files (directory : string) (names : list string)
    (pages : gmap string (gset string)) : gmap string (gset string) :=
  match names with
  | [] => pages
  | filename :: names =>
      if negb (endswith filename ".html") then
        crawl_files directory names pages
      else
        let contents := read (path_join directory filename) in
        let links := findall contents in
        crawl_files directory names
          (<[filename := list_to_set links ∖ {[ filename ]}]> pages)
  end.

Definition crawl (directory : string) : result (gmap string (gset string)) :=
  let pages := crawl_files directory (listdir directory) ∅ in
  for_each pages (λ filename _ pages,
      links ← getitem pages filename;
      Return (<[filename := filter (λ link, link ∈ dom pages) links]> pages))
    pages.

(** The names in a directory that end in [.html]. *)
Definition html_names (directory : string) : gset string :=
  list_to_set (filter (λ n, endswith n ".html" = true) (listdir directory)).

(** The link targets found in a file, the file itself apart. *)
Definition raw_links (directory filename : string) : gset string :=
  list_to_set (findall (read (path_join directory filename))) ∖ {[ filename ]}.

End crawl.

(** ** The program

    A run of [main] is described by the lines it has printed and by how it
    ended.  The format [:.4f] of a rank is a function of the environment,
    [format_rank]. *)

(** How a run of the program ends: normally, by [sys.exit] with a status,
    or by an exception that nothing catches. *)
Inductive ending : Type :=
  | Finished
  | SystemExit (status : string)
  | Uncaught (e : exn).

(** [sorted(keys)] on strings. *)
Definition sorted (keys : list string) : list string :=
  merge_sort String.le keys.

Section program.
Variable listdir : string → list string.
Variable read : string → string.
Variable findall : string → list string.
Variable format_rank : Qc → string.

(** [for page in sorted(ranks): print(f"  {page}: {ranks[page]:.4f}")],
    after the lines [stdout] printed so far. *)
Fixpoint print_ranks (pages : list string) (ranks : gmap string Qc)
    (stdout : list string) : list string * option exn :=
  match pages with
  | [] => (stdout, None)
  | page :: pages =>
      match getitem ranks page with
      | Raise e => (stdout, Some e)
      | Return rank =>
          let line := ("  " ++ page ++ ": " ++ format_rank rank)%string in
          print_ranks pages ranks (stdout ++ [line]%list)
      end
  end.

(** [main], with [sys.argv] and the random source as arguments, for at most
    [fuel] passes of the iterative engine. *)
Definition main (fuel : nat) (argv : list string) (g : rng) :
    option (list string * ending) :=
  if decide (length argv ≠ 2%nat) then
    Some ([], SystemExit "Usage: python pagerank.py corpus")
  else
    match (directory ← list_getitem argv 1;
           crawl listdir read findall directory) with
    | Raise e => Some ([], Uncaught e)
    | Return corpus =>
        match sample_pagerank corpus DAMPING SAMPLES g with
        | Raise e => Some ([], Uncaught e)
        | Return ranks =>
            let line :=
              ("PageRank Results from Sampling (n = " ++ pretty SAMPLES ++ ")")
                %string in
            let stdout := [line]%list in
            match print_ranks (sorted (map_to_list ranks).*1) ranks stdout with
            | (stdout, Some e) => Some (stdout, Uncaught e)
            | (stdout, None) =>
                match iterate_pagerank fuel corpus DAMPING with
                | None => None
                | Some (Raise e) => Some (stdout, Uncaught e)
                | Some (Return ranks) =>
                    let stdout :=
                      stdout ++ ["PageRank Results from Iteration"%string]%list
                    in
                    match print_ranks (sorted (map_to_list ranks).*1) ranks
                            stdout with
                    | (stdout, Some e) => Some (stdout, Uncaught e)
                    | (stdout, None) => Some (stdout, Finished)
                    end
                end
            end
        end
    end.

(** The line of a report for a page. *)
Definition row (ranks : gmap string Qc) (page : string) : string :=
  ("  " ++ page ++ ": " ++ format_rank (rank_of ranks page))%string.

End program.

(** ** A directory and further corpora *)

(** A directory [corpus] with two pages and a file that is no page. *)
Definition site_listdir (directory : string) : list string :=
  if String.eqb directory "corpus"
  then ["1.html"; "notes.txt"; "2.html"]%list else []%list.

Definition site_read (path : string) : string :=
  if String.eqb path "corpus/1.html" then "first page"
  else if String.eqb path "corpus/2.html" then "second page"
  else "".

(** The link targets in the two pages: the first links to the second, to
    itself and to a page outside the directory, the second to the first. *)
Definition site_findall (contents : string) : list string :=
  if String.eqb contents "first page"
  then ["2.html"; "1.html"; "https://example.org/"]%list
  else if String.eqb contents "second page" then ["1.html"]%list
  else []%list.

(** A rendering of a rank: its ten-thousandths, rounded down. *)
Definition site_format (rank : Qc) : string :=
  pretty (Qfloor (rank * Q2Qc (10000 # 1))).

(** A directory without pages. *)
Definition bare_listdir (directory : string) : list string :=
  ["notes.txt"; "style.css"]%list.

(** A corpus whose only link leaves it. *)
Definition corpus_open : gmap string (gset string) := {[ "A" := {[ "Z" ]} ]}.

(** A corpus whose pages have no links. *)
Definition corpus_bare : gmap string (gset string) :=
  {[ "A" := ∅ ; "B" := ∅ ]}.

(** ** The program in binary64

    The same three functions as Python runs them.  A [float] is a binary64
    number of the kernel, with the operations of IEEE 754 rounded to
    nearest, ties to even.  A [dict] is the list of its items in the order
    of their insertion, which is the order in which Python traverses it; a
    list of items is a dictionary when its keys are pairwise distinct.
    The built-in [sum] adds from left to right in CPython up to 3.11 and
    adds with Neumaier's compensation since 3.12; the functions take the
    variant as the argument [py].  A division whose right operand is an
    [int] raises [ZeroDivisionError] when that integer is zero, a division
    by a [float] when that float is zero.  The integers of the program are
    lengths and counts; [float] converts them exactly as long as they stay
    below [2^53], and the quotient of two of them is then the quotient of
    their floats.  The generator of the [random]
    module is a stream of draws; [random()] takes the variate of the first
    draw, [_randbelow(n)] its integer reduced below [n]. *)

Module binary64.
#[local] Open Scope float_scope.

(** *** Numbers *)

(** [float(n)] for an [int] that is not negative and below [2^63]. *)
Definition of_nat (n : nat) : float :=
  PrimFloat.of_uint63 (Uint63.of_Z (Z.of_nat n)).

(** [x / y], both floats. *)
Definition truediv (x y : float) : result float :=
  if y =? 0 then Raise ZeroDivisionError else Return (x / y).

(** [x / n], a float by an [int]. *)
Definition truediv_int (x : float) (n : nat) : result float :=
  if decide (n = 0%nat) then Raise ZeroDivisionError
  else Return (x / of_nat n).

(** The literal [0.001]: the binary64 number nearest to it. *)
Definition threshold : float := 0x1.0624dd2f1a9fcp-10.

(** The variants of the built-in [sum]. *)
Inductive summation : Set :=
  | plain
  | compensated.

(** [sum(l)] up to CPython 3.11: the start value [0], then one addition per
    item. *)
Definition sum_plain (l : list float) : float :=
  fold_left PrimFloat.add l 0.

(** The loop of [sum] since CPython 3.12, with the running sum [f] and the
    compensation [c]. *)
Fixpoint neumaier (f c : float) (l : list float) : float :=
  match l with
  | [] => if negb (c =? 0) && PrimFloat.is_finite c then f + c else f
  | x :: l =>
      let t := f + x in
      let c := if abs x <=? abs f then c + ((f - t) + x)
               else c + ((x - t) + f) in
      neumaier t c l
  end.

(** [sum(l)] since CPython 3.12: the first float is added to the start
    value [0], the others enter the compensated loop. *)
Definition sum_compensated (l : list float) : float :=
  match l with
  | [] => 0
  | x :: l => neumaier (0 + x) 0 l
  end.

Definition sum (py : summation) (l : list float) : float :=
  match py with
  | plain => sum_plain l
  | compensated => sum_compensated l
  end.

(** *** Dictionaries and loops *)

Section dict.
Context {page : Type} {page_eq_dec : EqDecision page}.

(** [d[k]] *)
Fixpoint getitem {A} (d : list (page * A)) (k : page) : result A :=
  match d with
  | [] => Raise KeyError
  | (k', v) :: d => if decide (k = k') then Return v else getitem d k
  end.

(** [d[k] = v] *)
Fixpoint setitem {A} (d : list (page * A)) (k : page) (v : A) :
    list (page * A) :=
  match d with
  | [] => [(k, v)]%list
  | (k', v') :: d =>
      if decide (k = k') then (k, v) :: d else (k', v') :: setitem d k v
  end.

(** [for x in l: state = body(x, state)], where the body may raise. *)
Fixpoint for_each {X S} (l : list X) (body : X → S → result S) (s : S) :
    result S :=
  match l with
  | [] => Return s
  | x :: l => s ← body x s; for_each l body s
  end.

(** [{k: f(k, v) for k, v in d.items()}] *)
Fixpoint dict_comp {A B} (f : page → A → result B) (d : list (page * A)) :
    result (list (page * B)) :=
  match d with
  | [] => Return []
  | (k, v) :: d => b ← f k v; d' ← dict_comp f d; Return ((k, b) :: d')
  end.

(** The last two steps of each of the three functions. *)
Definition normalize (py : summation) (d : list (page * float)) :
    result (list (page * float)) :=
  let total_probability := sum py d.*2 in
  d' ← dict_comp (λ _ prob, truediv prob total_probability) d;
  if negb (sum py d'.*2 =? 1) then Raise Exception else Return d'.

End dict.

Section engines.
Context {page : Type} {page_eq_dec : EqDecision page}
  {page_countable : Countable page}.

(** *** The transition model *)

Definition transition_model (py : summation)
    (corpus : list (page * gset page)) (pg : page) (damping_factor : float) :
    result (list (page * float)) :=
  pd_dict ← dict_comp (λ _ _, truediv_int 1 (length corpus)) corpus;
  page_links ← getitem corpus pg;
  if decide (size page_links = 0%nat) then Return pd_dict else
  links_probability ← truediv_int damping_factor (size page_links);
  damping_probability ← truediv_int (1 - damping_factor) (length corpus);
  pd_dict ← for_each pd_dict.*1 (λ q pd,
      if decide (q ∈ page_links)
      then Return (setitem pd q (links_probability + damping_probability))
      else Return (setitem pd q damping_probability)) pd_dict;
  normalize py pd_dict.

(** *** The [random] module *)

(** A draw of the generator: the variate [random()] returns, and the
    integer from which [_randbelow] takes its index. *)
Record draw : Set := { variate : float ; integer : nat }.

Definition rng : Type := nat → draw.

Definition next (g : rng) : draw * rng := (g 0%nat, λ i, g (S i)).

(** [random.choice(seq)] *)
Definition random_choice {A} (seq : list A) (g : rng) : result (A * rng) :=
  if decide (length seq = 0%nat) then Raise IndexError else
  let r := next g in
  a ← list_getitem seq (integer r.1 `mod` length seq)%nat;
  Return (a, r.2).

(** [itertools.accumulate]: the first item, then the running sums. *)
Fixpoint accumulate_from (acc : float) (l : list float) : list float :=
  match l with
  | [] => []
  | w :: l => (acc + w) :: accumulate_from (acc + w) l
  end.

Definition accumulate (l : list float) : list float :=
  match l with
  | [] => []
  | w :: l => w :: accumulate_from w l
  end.

(** [bisect.bisect_right(a, x, lo, hi)] *)
Fixpoint bisect_loop (turns : nat) (a : list float) (x : float)
    (lo hi : nat) : result nat :=
  match turns with
  | O => Return lo
  | S turns =>
      if decide (lo < hi)%nat then
        let mid := ((lo + hi) `div` 2)%nat in
        am ← list_getitem a mid;
        if x <? am then bisect_loop turns a x lo mid
        else bisect_loop turns a x (mid + 1)%nat hi
      else Return lo
  end.

Definition bisect (a : list float) (x : float) (lo hi : nat) : result nat :=
  bisect_loop (hi - lo) a x lo hi.

(** [random.choices(population, weights=weights, k=1)] *)
Definition random_choices {A} (population : list A) (weights : list float)
    (g : rng) : result (list A * rng) :=
  let n := length population in
  let cum_weights := accumulate weights in
  if decide (length cum_weights ≠ n) then Raise ValueError else
  last ← list_getlast cum_weights;
  let total := last + 0 in
  if total <=? 0 then Raise ValueError else
  if negb (PrimFloat.is_finite total) then Raise ValueError else
  let hi := (n - 1)%nat in
  let r := next g in
  i ← bisect cum_weights (variate r.1 * total) 0 hi;
  a ← list_getitem population i;
  Return ([a]%list, r.2).

(** *** The sampling engine *)

(** The body of [for i in range(n)], [i] times; the counts are integers. *)
Fixpoint sample_loop (py : summation) (i : nat)
    (corpus : list (page * gset page)) (damping_factor : float)
    (start_page : page) (page_rank : list (page * nat)) (g : rng) :
    result (list (page * nat)) :=
  match i with
  | O => Return page_rank
  | S i =>
      current_state ← transition_model py corpus start_page damping_factor;
      '(next_page, g) ← random_choices current_state.*1 current_state.*2 g;
      start_page ← list_getitem next_page 0;
      count ← getitem page_rank start_page;
      sample_loop py i corpus damping_factor start_page
        (setitem page_rank start_page (count + 1)%nat) g
  end.

(** The second loop: a positive count becomes the float [count / n], a
    count of zero stays the integer [0], which [sum] and the division by the
    total read as the float [0]. *)
Definition frequency (count : nat) (n : Z) : result float :=
  if decide (0 < count)%nat then
    if decide (n = 0%Z) then Raise ZeroDivisionError
    else Return (of_nat count / of_nat (Z.to_nat n))
  else Return 0.

Definition sample_pagerank (py : summation)
    (corpus : list (page * gset page)) (damping_factor : float) (n : Z)
    (g : rng) : result (list (page * float)) :=
  '(start_page, g) ← random_choice corpus.*1 g;
  page_rank ← dict_comp (λ _ _, Return 0%nat) corpus;
  page_rank ← sample_loop py (Z.to_nat n) corpus damping_factor start_page
                 page_rank g;
  page_rank ← dict_comp (λ _ count, frequency count n) page_rank;
  normalize py page_rank.

(** *** The iterative engine *)

Definition second_condition_sum (corpus : list (page * gset page))
    (previous_page_rank : list (page * float)) (pg : page) : result float :=
  for_each corpus (λ '(p, links) second_condition,
      if decide (pg ∈ links) then
        r ← getitem previous_page_rank p;
        q ← truediv_int r (size links);
        Return (second_condition + q)
      else Return second_condition) 0.

Definition update_pass (corpus : list (page * gset page))
    (damping_factor first_condition : float)
    (previous_page_rank page_rank : list (page * float)) :
    result (list (page * float)) :=
  for_each page_rank.*1 (λ pg pr,
      second_condition ← second_condition_sum corpus previous_page_rank pg;
      let second_condition := damping_factor * second_condition in
      Return (setitem pr pg (first_condition + second_condition))) page_rank.

Definition changed_count (previous_page_rank page_rank : list (page * float)) :
    result nat :=
  for_each page_rank.*1 (λ pg count,
      old ← getitem previous_page_rank pg;
      new ← getitem page_rank pg;
      if threshold <? abs (old - new) then Return (S count)
      else Return count) 0%nat.

Fixpoint iterate_loop (fuel : nat) (corpus : list (page * gset page))
    (damping_factor first_condition : float)
    (page_rank : list (page * float)) :
    option (result (list (page * float))) :=
  match fuel with
  | O => None
  | S fuel =>
      let previous_page_rank := page_rank in
      match update_pass corpus damping_factor first_condition
              previous_page_rank page_rank with
      | Raise e => Some (Raise e)
      | Return page_rank =>
          match changed_count previous_page_rank page_rank with
          | Raise e => Some (Raise e)
          | Return count =>
              if decide (count = 0%nat) then Some (Return page_rank)
              else iterate_loop fuel corpus damping_factor first_condition
                     page_rank
          end
      end
  end.

Definition iterate_pagerank (py : summation) (fuel : nat)
    (corpus : list (page * gset page)) (damping_factor : float) :
    option (result (list (page * float))) :=
  match (page_rank ← dict_comp (λ _ _, truediv_int 1 (length corpus)) corpus;
         first_condition ← truediv_int (1 - damping_factor)
                             (length page_rank);
         Return (page_rank, first_condition)) with
  | Raise e => Some (Raise e)
  | Return (page_rank, first_condition) =>
      match iterate_loop fuel corpus damping_factor first_condition
              page_rank with
      | None => None
      | Some (Raise e) => Some (Raise e)
      | Some (Return page_rank) => Some (normalize py page_rank)
      end
  end.

(** *** What the loops compute *)

(** The values the loop of [transition_model] assigns, for a page whose
    outbound links are [page_links]. *)
Definition assigned (corpus : list (page * gset page))
    (page_links : gset page) (damping_factor : float) :
    list (page * float) :=
  map (λ e, (e.1,
             if decide (e.1 ∈ page_links)
             then damping_factor / of_nat (size page_links)
                  + (1 - damping_factor) / of_nat (length corpus)
             else (1 - damping_factor) / of_nat (length corpus))) corpus.

(** Every value of a table divided by [total]. *)
Definition divided (d : list (page * float)) (total : float) :
    list (page * float) :=
  map (λ e, (e.1, e.2 / total)) d.

(** The table the second loop of [sample_pagerank] leaves: the count of
    every page divided by [n], and the integer [0] where the count is
    zero. *)
Definition frequencies (counts : list (page * nat)) (n : Z) :
    list (page * float) :=
  map (λ e, (e.1, if decide (0 < e.2)%nat
                  then of_nat e.2 / of_nat (Z.to_nat n)
                  else 0)) counts.

(** The rank of [q] in a rank table. *)
Definition rank_of (ranks : list (page * float)) (q : page) : float :=
  match getitem ranks q with
  | Return v => v
  | Raise _ => 0
  end.

(** The sum the inner loop of a pass computes for [pg]: over the pages
    that link to [pg], in the order of the corpus, the previous rank of the
    page divided by the number of its links. *)
Definition incoming_rank (corpus : list (page * gset page))
    (previous : list (page * float)) (pg : page) : float :=
  fold_left (λ acc e,
      if decide (pg ∈ e.2) then acc + rank_of previous e.1 / of_nat (size e.2)
      else acc) corpus 0.

(** The rank table after a pass that starts from [previous]. *)
Definition pass (corpus : list (page * gset page)) (d first : float)
    (previous : list (page * float)) : list (page * float) :=
  map (λ e, (e.1, first + d * incoming_rank corpus previous e.1)) previous.

(** No rank moved by more than the threshold. *)
Definition converged (previous new : list (page * float)) : Prop :=
  Forall (λ e, (threshold <? abs (rank_of previous e.1 - e.2)) = false) new.

#[global] Instance converged_dec previous new :
  Decision (converged previous new).
Proof. unfold converged. apply _. Defined.

(** The rank table the iterative engine starts from, and the constant term
    of its recurrence. *)
Definition initial_ranks (corpus : list (page * gset page)) :
    list (page * float) :=
  map (λ e, (e.1, 1 / of_nat (length corpus))) corpus.

Definition first_term (corpus : list (page * gset page)) (d : float) :
    float :=
  (1 - d) / of_nat (length corpus).

(** The rank table after [k] passes that start from [ranks]. *)
Fixpoint after_passes (corpus : list (page * gset page)) (d first : float)
    (k : nat) (ranks : list (page * float)) : list (page * float) :=
  match k with
  | O => ranks
  | S k => after_passes corpus d first k (pass corpus d first ranks)
  end.

(** The rank table after the first [k] passes of the engine. *)
Definition passes (corpus : list (page * gset page)) (d : float) (k : nat) :
    list (page * float) :=
  after_passes corpus d (first_term corpus d) k (initial_ranks corpus).

(** Pass number [k + 1] is the first one that moves no rank by more than
    the threshold. *)
Definition first_converged_at (corpus : list (page * gset page)) (d : float)
    (k : nat) : Prop :=
  converged (passes corpus d k) (passes corpus d (S k))
  ∧ ∀ j, (j < k)%nat → ¬ converged (passes corpus d j) (passes corpus d (S j)).

(** A list of items is a dictionary: its keys are pairwise distinct. *)
Definition is_dict {A} (d : list (page * A)) : Prop := NoDup d.*1.

End engines.

(** *** Constants and corpora *)

(** [DAMPING = 0.85]: the binary64 number nearest to it. *)
Definition DAMPING : float := 0x1.b333333333333p-1.

(** The corpora of the exact reading, as dictionaries. *)
Definition corpus_abc : list (string * gset string) :=
  [("A", {[ "B" ]}); ("B", ∅); ("C", {[ "A"; "B" ]})].

Definition corpus_two : list (string * gset string) :=
  [("A", {[ "B" ]}); ("B", {[ "A" ]})].

Definition corpus_cycle : list (string * gset string) :=
  [("A", {[ "B" ]}); ("B", {[ "A" ]}); ("C", {[ "A" ]})].

(** Three pages without links. *)
Definition corpus_bare : list (string * gset string) :=
  [("A", ∅); ("B", ∅); ("C", ∅)].

(** Twelve pages, the first of which links to the second. *)
Definition corpus_one_link : list (string * gset string) :=
  [("01", {[ "02" ]}); ("02", ∅); ("03", ∅); ("04", ∅); ("05", ∅);
   ("06", ∅); ("07", ∅); ("08", ∅); ("09", ∅); ("10", ∅); ("11", ∅);
   ("12", ∅)].

(** Eleven pages, the first of which links to the seven that follow. *)
Definition corpus_fan : list (string * gset string) :=
  [("01", {[ "02"; "03"; "04"; "05"; "06"; "07"; "08" ]}); ("02", ∅);
   ("03", ∅); ("04", ∅); ("05", ∅); ("06", ∅); ("07", ∅); ("08", ∅);
   ("09", ∅); ("10", ∅); ("11", ∅)].

(** The random source that draws the variates of a list, then zeros. *)
Definition draws (l : list float) : rng :=
  λ i, {| variate := nth i l 0 ; integer := 0 |}.

(** The two rank tables between which the iterative engine alternates on
    [corpus_cycle] with the damping factor 1. *)
Definition cycle_odd : list (string * float) :=
  [("A", 0x1.5555555555555p-1); ("B", 0x1.5555555555555p-2); ("C", 0)].

Definition cycle_even : list (string * float) :=
  [("A", 0x1.5555555555555p-2); ("B", 0x1.5555555555555p-1); ("C", 0)].

End binary64.

(** A decidable proposition about closed terms, settled by evaluation. *)
Ltac by_evaluation := apply (bool_decide_unpack _); by vm_compute.

(** * Properties *)

Section properties.
Context {page : Type} {page_eq_dec : EqDecision page}
  {page_countable : Countable page}.
Implicit Types (corpus : gmap page (gset page)) (links : gset page).
Implicit Types (pg q : page) (d : Qc).

(** ** Numbers: basic facts *)

Lemma Qc_of_nat_ne_0 (n : nat) : n ≠ 0%nat → Qc_of_nat n ≠ 0.
Proof.
  intros Hn E. unfold Qc_of_nat in E.
  rewrite <- Z2Qc_inj_0 in E. apply Z2Qc_inj in E. lia.
Qed.

Lemma Qc_of_nat_pos (n : nat) : n ≠ 0%nat → 0 < Qc_of_nat n.
Proof.
  intros Hn. unfold Qc_of_nat. rewrite <- Z2Qc_inj_0.
  apply (proj1 (Z2Qc_inj_lt 0 (Z.of_nat n))). lia.
Qed.

Lemma Qc_of_nat_S (n : nat) : Qc_of_nat (S n) = Qc_of_nat n + 1.
Proof.
  unfold Qc_of_nat. rewrite Nat2Z.inj_succ, <- Z.add_1_r.
  by rewrite Z2Qc_inj_add, Z2Qc_inj_1.
Qed.

Lemma Qc_of_nat_0 : Qc_of_nat 0 = 0.
Proof. apply Z2Qc_inj_0. Qed.

Lemma truediv_ok (x y : Qc) : y ≠ 0 → truediv x y = Return (x / y).
Proof. intros. unfold truediv. by rewrite decide_False. Qed.

Lemma truediv_zero (x : Qc) : truediv x 0 = Raise ZeroDivisionError.
Proof. unfold truediv. by rewrite decide_True. Qed.

Lemma Qcdiv_pos (x y : Qc) : 0 < x → 0 < y → 0 < x / y.
Proof. intros. apply Qcmult_pos_pos; [done | by apply Qcinv_pos]. Qed.

(** ** [remap] and [sum_over] *)

Lemma lookup_remap {A B} (g : page → A → B) (m : gmap page A) k :
  remap g m !! k = g k <$> m !! k.
Proof. unfold remap. rewrite map_lookup_imap. by destruct (m !! k). Qed.

Lemma dom_remap {A B} (g : page → A → B) (m : gmap page A) :
  dom (remap g m) = dom m.
Proof.
  apply set_eq. intros k. rewrite !elem_of_dom, lookup_remap.
  by rewrite fmap_is_Some.
Qed.

Lemma remap_empty {A B} (g : page → A → B) : remap g (∅ : gmap page A) = ∅.
Proof. apply map_eq. intros k. by rewrite lookup_remap, !lookup_empty. Qed.

Lemma remap_insert {A B} (g : page → A → B) (m : gmap page A) i x :
  remap g (<[i:=x]> m) = <[i:=g i x]> (remap g m).
Proof.
  apply map_eq. intros k. rewrite lookup_remap.
  destruct (decide (i = k)) as [->|].
  - by rewrite !lookup_insert_eq.
  - by rewrite !lookup_insert_ne, lookup_remap.
Qed.

Lemma remap_remap {A B C} (g : page → A → B) (h : page → B → C)
    (m : gmap page A) :
  remap h (remap g m) = remap (λ k v, h k (g k v)) m.
Proof.
  apply map_eq. intros k. rewrite !lookup_remap. by destruct (m !! k).
Qed.

Lemma remap_ext {A B} (g1 g2 : page → A → B) (m : gmap page A) :
  (∀ k v, m !! k = Some v → g1 k v = g2 k v) → remap g1 m = remap g2 m.
Proof.
  intros E. apply map_eq. intros k. rewrite !lookup_remap.
  destruct (m !! k) eqn:Hk; simpl; [|done]. by rewrite (E k a).
Qed.

Lemma remap_id (m : gmap page Qc) : remap (λ _ v, v) m = m.
Proof. apply map_eq. intros k. rewrite lookup_remap. by destruct (m !! k). Qed.

Lemma size_remap {A B} (g : page → A → B) (m : gmap page A) :
  size (remap g m) = size m.
Proof.
  rewrite <- !size_dom. by rewrite dom_remap.
Qed.

Lemma len_dict_remap {A B} (g : page → A → B) (m : gmap page A) :
  len_dict (remap g m) = len_dict m.
Proof. unfold len_dict. by rewrite size_remap. Qed.

Lemma sum_over_empty {A} (g : page → A → Qc) : sum_over g ∅ = 0.
Proof. unfold sum_over. by rewrite map_fold_empty. Qed.

Lemma sum_over_insert {A} (g : page → A → Qc) (m : gmap page A) i x :
  m !! i = None → sum_over g (<[i:=x]> m) = sum_over g m + g i x.
Proof.
  intros Hi. unfold sum_over. rewrite map_fold_insert_L; [done| |done].
  intros. ring.
Qed.

Lemma sum_over_singleton {A} (g : page → A → Qc) i x :
  sum_over g {[ i := x ]} = g i x.
Proof.
  rewrite <- insert_empty, sum_over_insert, sum_over_empty by done. ring.
Qed.

Lemma sum_values_eq (m : gmap page Qc) : sum_values m = sum_over (λ _ v, v) m.
Proof. done. Qed.

Lemma sum_over_remap {A B} (g : page → A → B) (h : page → B → Qc)
    (m : gmap page A) :
  sum_over h (remap g m) = sum_over (λ k v, h k (g k v)) m.
Proof.
  induction m as [|i x m Hi IH] using map_ind.
  - by rewrite remap_empty, !sum_over_empty.
  - rewrite remap_insert, !sum_over_insert, IH; [done..|].
    by rewrite lookup_remap, Hi.
Qed.

Lemma sum_values_remap {A} (g : page → A → Qc) (m : gmap page A) :
  sum_values (remap g m) = sum_over g m.
Proof. by rewrite sum_values_eq, sum_over_remap. Qed.

Lemma sum_over_ext {A} (g1 g2 : page → A → Qc) (m : gmap page A) :
  (∀ k v, m !! k = Some v → g1 k v = g2 k v) → sum_over g1 m = sum_over g2 m.
Proof.
  intros E. rewrite <- !sum_values_remap. f_equal. by apply remap_ext.
Qed.

Lemma sum_over_plus {A} (g1 g2 : page → A → Qc) (m : gmap page A) :
  sum_over (λ k v, g1 k v + g2 k v) m = sum_over g1 m + sum_over g2 m.
Proof.
  induction m as [|i x m Hi IH] using map_ind.
  - rewrite !sum_over_empty. ring.
  - rewrite !sum_over_insert, IH by done. ring.
Qed.

Lemma sum_over_scale {A} (c : Qc) (g : page → A → Qc) (m : gmap page A) :
  sum_over (λ k v, g k v * c) m = sum_over g m * c.
Proof.
  induction m as [|i x m Hi IH] using map_ind.
  - rewrite !sum_over_empty. ring.
  - rewrite !sum_over_insert, IH by done. ring.
Qed.

Lemma sum_over_const {A} (c : Qc) (m : gmap page A) :
  sum_over (λ _ _, c) m = Qc_of_nat (size m) * c.
Proof.
  induction m as [|i x m Hi IH] using map_ind.
  - rewrite sum_over_empty, map_size_empty, Qc_of_nat_0. ring.
  - rewrite sum_over_insert, IH, map_size_insert_None, Qc_of_nat_S by done.
    ring.
Qed.

(** The number of keys of [m] that are in the set [s], as a sum. *)
Lemma sum_over_indicator {A} (s : gset page) (m : gmap page A) :
  sum_over (λ k _, if decide (k ∈ s) then 1 else 0) m
  = Qc_of_nat (size (s ∩ dom m)).
Proof.
  induction m as [|i x m Hi IH] using map_ind.
  - rewrite sum_over_empty, dom_empty_L.
    replace (s ∩ ∅) with (∅ : gset page) by set_solver.
    by rewrite size_empty, Qc_of_nat_0.
  - rewrite sum_over_insert, IH, dom_insert_L by done.
    apply not_elem_of_dom in Hi.
    destruct (decide (i ∈ s)).
    + replace (s ∩ ({[i]} ∪ dom m)) with ({[i]} ∪ s ∩ dom m) by set_solver.
      rewrite (size_union ({[i]} : gset page) (s ∩ dom m)) by set_solver.
      rewrite size_singleton. simpl. rewrite Qc_of_nat_S. ring.
    + replace (s ∩ ({[i]} ∪ dom m)) with (s ∩ dom m) by set_solver. ring.
Qed.

Lemma sum_over_nonneg {A} (g : page → A → Qc) (m : gmap page A) :
  (∀ k v, m !! k = Some v → 0 ≤ g k v) → 0 ≤ sum_over g m.
Proof.
  induction m as [|i x m Hi IH] using map_ind; intros Hg.
  - rewrite sum_over_empty. apply Qcle_refl.
  - rewrite sum_over_insert by done. apply Qcplus_nonneg_nonneg.
    + apply IH. intros k v Hk. apply Hg.
      rewrite lookup_insert_ne; [done|]. intros ->. congruence.
    + apply Hg. by rewrite lookup_insert_eq.
Qed.

Lemma sum_over_pos {A} (g : page → A → Qc) (m : gmap page A) :
  m ≠ ∅ → (∀ k v, m !! k = Some v → 0 < g k v) → 0 < sum_over g m.
Proof.
  destruct m as [|i x m Hi _] using map_ind; [done|]. intros _ Hg.
  rewrite sum_over_insert by done. apply Qcplus_nonneg_pos.
  - apply sum_over_nonneg. intros k v Hk. apply Qclt_le_weak, Hg.
    rewrite lookup_insert_ne; [done|]. intros ->. congruence.
  - apply Hg. by rewrite lookup_insert_eq.
Qed.

(** ** The loops, when their bodies do not raise *)

Lemma for_each_empty {A S} (body : page → A → S → result S) (s0 : S) :
  for_each ∅ body s0 = Return s0.
Proof. unfold for_each. by rewrite map_fold_empty. Qed.

Lemma for_each_insert_first {A S} (body : page → A → S → result S) (s0 : S)
    (m : gmap page A) i x :
  m !! i = None → map_first_key (<[i:=x]> m) i →
  for_each (<[i:=x]> m) body s0 = (s ← for_each m body s0; body i x s).
Proof.
  intros Hi Hfirst. unfold for_each.
  by rewrite map_fold_insert_first_key by done.
Qed.

(** A loop that only accumulates. *)
Lemma for_each_pure {A S} (m : gmap page A) (body : page → A → S → result S)
    (h : page → A → S → S) (s0 : S) :
  (∀ k v s, m !! k = Some v → body k v s = Return (h k v s)) →
  for_each m body s0 = Return (map_fold h s0 m).
Proof.
  induction m as [|i x m Hi Hfirst IH] using map_first_key_ind; intros Hb.
  - by rewrite for_each_empty, map_fold_empty.
  - rewrite for_each_insert_first, map_fold_insert_first_key by done.
    rewrite IH; simpl.
    + apply Hb. by rewrite lookup_insert_eq.
    + intros k v s Hk. apply Hb.
      rewrite lookup_insert_ne; [done|]. intros ->. congruence.
Qed.

(** A loop over the entries of [m] that assigns, at each key, a value that
    depends on the key and on the entry only: the keys of [m] get their new
    values and the other keys of the state keep theirs.  The body may read
    the state at the key it is about to assign. *)
Lemma for_each_update {A B} (m : gmap page A) (s0 : gmap page B)
    (body : page → A → gmap page B → result (gmap page B))
    (g : page → A → B) :
  (∀ k v s, m !! k = Some v → s !! k = s0 !! k →
     body k v s = Return (<[k:=g k v]> s)) →
  for_each m body s0 = Return (remap g m ∪ s0).
Proof.
  intros Hb. unfold for_each.
  cut (m ⊆ m → map_fold (λ k v acc, s ← acc; body k v s) (Return s0) m
               = Return (remap g m ∪ s0)); [by auto|].
  generalize m at 1 3 4.
  apply (map_fold_weak_ind (λ r m', m' ⊆ m → r = Return (remap g m' ∪ s0))).
  - intros _. by rewrite remap_empty, (left_id_L ∅ (∪)).
  - intros i x m' r Hi IH Hsub.
    assert (m !! i = Some x) as Hmi.
    { eapply lookup_weaken; [|done]. by rewrite lookup_insert_eq. }
    rewrite IH.
    + simpl. rewrite Hb; [|done|].
      * by rewrite remap_insert, insert_union_l.
      * rewrite lookup_union_r; [done|]. by rewrite lookup_remap, Hi.
    + etrans; [|done]. by apply insert_subseteq.
Qed.

(** A loop whose body raises at every entry. *)
Lemma for_each_raise {A S} (m : gmap page A) (body : page → A → S → result S)
    (s0 : S) (e : exn) :
  m ≠ ∅ → (∀ k v s, m !! k = Some v → body k v s = Raise e) →
  for_each m body s0 = Raise e.
Proof.
  induction m as [|i x m Hi Hfirst IH] using map_first_key_ind; [done|].
  intros _ Hb. rewrite for_each_insert_first by done.
  destruct (decide (m = ∅)) as [->|Hne].
  - rewrite for_each_empty. simpl. apply Hb. by rewrite lookup_insert_eq.
  - rewrite IH; [done|done|]. intros k v s Hk. apply Hb.
    rewrite lookup_insert_ne; [done|]. intros ->. congruence.
Qed.

Lemma dict_comp_ok {A B} (f : page → A → result B) (g : page → A → B)
    (m : gmap page A) :
  (∀ k v, m !! k = Some v → f k v = Return (g k v)) →
  dict_comp f m = Return (remap g m).
Proof.
  intros Hf. unfold dict_comp.
  rewrite (for_each_update m ∅ _ g).
  - by rewrite (right_id_L ∅ (∪)).
  - intros k v s Hk _. by rewrite Hf.
Qed.

Lemma dict_comp_raise {A B} (f : page → A → result B) (m : gmap page A)
    (e : exn) :
  m ≠ ∅ → (∀ k v, m !! k = Some v → f k v = Raise e) →
  dict_comp f m = Raise e.
Proof.
  intros Hne Hf. apply for_each_raise; [done|].
  intros k v s Hk. by rewrite Hf.
Qed.

Lemma lookup_size_ne_0 {A} (m : gmap page A) k v :
  m !! k = Some v → size m ≠ 0%nat.
Proof.
  intros Hk Hsize. apply map_size_empty_iff in Hsize. subst m.
  by rewrite lookup_empty in Hk.
Qed.

Lemma size_links_ne_0 links : links ≠ ∅ → size links ≠ 0%nat.
Proof. intros Hne Hsize. apply Hne. by apply size_empty_iff, leibniz_equiv in Hsize. Qed.

Lemma elem_size_ne_0 links q : q ∈ links → size links ≠ 0%nat.
Proof. intros Hq. apply size_links_ne_0. set_solver. Qed.

(** ** The normalisation step *)

Lemma sum_values_div (m : gmap page Qc) (t : Qc) :
  sum_values (remap (λ _ v, v / t) m) = sum_values m / t.
Proof.
  rewrite sum_values_remap. unfold Qcdiv.
  by rewrite (sum_over_scale (/ t) (λ _ v, v)).
Qed.

Lemma normalize_ok (d : gmap page Qc) :
  sum_values d ≠ 0 →
  normalize d = Return (remap (λ _ v, v / sum_values d) d).
Proof.
  intros Ht. unfold normalize.
  rewrite (dict_comp_ok _ (λ _ v, v / sum_values d)).
  - simpl. rewrite decide_False; [done|].
    intros Hne. apply Hne. rewrite sum_values_div. by field.
  - intros k v _. by apply truediv_ok.
Qed.

Lemma normalize_zero (d : gmap page Qc) :
  d ≠ ∅ → sum_values d = 0 → normalize d = Raise ZeroDivisionError.
Proof.
  intros Hne Ht. unfold normalize.
  rewrite (dict_comp_raise _ _ ZeroDivisionError); [done|done|].
  intros k v _. rewrite Ht. apply truediv_zero.
Qed.

(** What [normalize] returns has passed its check. *)
Lemma normalize_checked (d d' : gmap page Qc) :
  normalize d = Return d' → sum_values d' = 1.
Proof.
  unfold normalize.
  destruct (dict_comp _ d) as [d1|e]; simpl; [|done].
  destruct (decide (sum_values d1 ≠ 1)) as [|Heq]; [done|].
  intros [= <-]. by apply dec_stable.
Qed.

Lemma normalize_nonempty_no_Exception (d : gmap page Qc) :
  d ≠ ∅ → normalize d ≠ Raise Exception.
Proof.
  intros Hne. destruct (decide (sum_values d = 0)) as [Ht|Ht].
  - by rewrite normalize_zero.
  - by rewrite normalize_ok.
Qed.

Lemma remap_union_self {A} (g : page → A → A) (m : gmap page A) :
  remap g m ∪ m = remap g m.
Proof.
  apply map_eq. intros k. rewrite lookup_union, lookup_remap.
  by destruct (m !! k).
Qed.

(** A loop over a dictionary that assigns every one of its keys. *)
Lemma for_each_update_inplace {A} (m : gmap page A)
    (body : page → A → gmap page A → result (gmap page A))
    (g : page → A → A) :
  (∀ k v s, m !! k = Some v → s !! k = Some v →
     body k v s = Return (<[k:=g k v]> s)) →
  for_each m body m = Return (remap g m).
Proof.
  intros Hb. rewrite (for_each_update m m body g).
  - by rewrite remap_union_self.
  - intros k v s Hk Hs. apply Hb; [done|]. by rewrite Hs.
Qed.

Lemma remap_ne_empty {A B} (g : page → A → B) (m : gmap page A) :
  m ≠ ∅ → remap g m ≠ ∅.
Proof.
  intros Hne E. apply Hne. apply map_size_empty_iff.
  rewrite <- (size_remap g), E. apply map_size_empty.
Qed.

(** ** The transition model *)

Lemma assigned_probability_weight corpus links d q :
  assigned_probability corpus links d q = transition_weight corpus links d q.
Proof.
  unfold assigned_probability, transition_weight.
  destruct (decide (q ∈ links)); ring.
Qed.

Lemma uniform_init (corpus : gmap page (gset page)) :
  dict_comp (λ _ _, truediv 1 (len_dict corpus)) corpus
  = Return (remap (λ _ _, 1 / len_dict corpus) corpus).
Proof.
  apply dict_comp_ok. intros k v Hk. apply truediv_ok.
  apply Qc_of_nat_ne_0. by eapply lookup_size_ne_0.
Qed.

Lemma transition_model_missing corpus pg d :
  corpus !! pg = None → transition_model corpus pg d = Raise KeyError.
Proof.
  intros Hpg. unfold transition_model. rewrite uniform_init. simpl.
  unfold getitem. by rewrite Hpg.
Qed.

Lemma transition_model_dangling corpus pg d links :
  corpus !! pg = Some links → size links = 0%nat →
  transition_model corpus pg d
  = Return (remap (λ _ _, 1 / len_dict corpus) corpus).
Proof.
  intros Hpg Hsize. unfold transition_model. rewrite uniform_init. simpl.
  unfold getitem. rewrite Hpg. simpl. by rewrite decide_True.
Qed.

Lemma transition_model_links corpus pg d links :
  corpus !! pg = Some links → size links ≠ 0%nat →
  transition_model corpus pg d
  = normalize (remap (λ q _, assigned_probability corpus links d q) corpus).
Proof.
  intros Hpg Hsize. unfold transition_model. rewrite uniform_init. simpl.
  unfold getitem. rewrite Hpg. simpl. rewrite decide_False by done.
  rewrite (truediv_ok d) by (by apply Qc_of_nat_ne_0). simpl.
  rewrite (truediv_ok (1 - d))
    by (apply Qc_of_nat_ne_0; by eapply lookup_size_ne_0). simpl.
  rewrite (for_each_update_inplace _ _
             (λ q _, assigned_probability corpus links d q)).
  - simpl. by rewrite remap_remap.
  - intros k v s _ _. unfold assigned_probability.
    by destruct (decide (k ∈ links)).
Qed.

(** The total of the assigned probabilities. *)
Lemma assigned_total corpus links d :
  corpus ≠ ∅ → size links ≠ 0%nat →
  sum_over (λ q _, assigned_probability corpus links d q) corpus
  = (1 - d) + Qc_of_nat (size (links ∩ dom corpus)) * (d / len_set links).
Proof.
  intros Hne Hsize.
  rewrite (sum_over_ext _
    (λ q v, (λ _ _, (1 - d) / len_dict corpus) q v
            + (λ q _, (if decide (q ∈ links) then 1 else 0)
                      * (d / len_set links)) q v)).
  - rewrite sum_over_plus, sum_over_const.
    rewrite (sum_over_scale _ (λ q _, if decide (q ∈ links) then 1 else 0)).
    rewrite sum_over_indicator. unfold len_dict. field. split.
    + by apply Qc_of_nat_ne_0.
    + apply Qc_of_nat_ne_0. by intros ?%map_size_empty_iff.
  - intros k v _. unfold assigned_probability.
    destruct (decide (k ∈ links)); ring.
Qed.

Lemma assigned_total_wf corpus pg links d :
  corpus_wf corpus → corpus !! pg = Some links → size links ≠ 0%nat →
  sum_over (λ q _, assigned_probability corpus links d q) corpus = 1.
Proof.
  intros Hwf Hpg Hsize. rewrite assigned_total; [|by intros ->|done].
  replace (links ∩ dom corpus) with links.
  - unfold len_set. field. by apply Qc_of_nat_ne_0.
  - specialize (Hwf pg links Hpg). simpl in Hwf. set_solver.
Qed.

Lemma assigned_total_pos corpus pg links d :
  0 < d → d < 1 → corpus !! pg = Some links → size links ≠ 0%nat →
  0 < sum_over (λ q _, assigned_probability corpus links d q) corpus.
Proof.
  intros Hd0 Hd1 Hpg Hsize. apply sum_over_pos; [by intros ->|].
  intros k v Hk.
  assert (0 < (1 - d) / len_dict corpus) as Hb.
  { apply Qcdiv_pos.
    - unfold Qcminus. rewrite (Qcplus_lt_mono_r _ _ d).
      by replace (1 + - d + d) with 1 by ring; rewrite Qcplus_0_l.
    - apply Qc_of_nat_pos. by eapply lookup_size_ne_0. }
  unfold assigned_probability. destruct (decide (k ∈ links)); [|done].
  apply Qcplus_pos_pos; [|done].
  apply Qcdiv_pos; [done|]. by apply Qc_of_nat_pos.
Qed.

Lemma transition_model_no_Exception corpus pg d :
  transition_model corpus pg d ≠ Raise Exception.
Proof.
  destruct (corpus !! pg) as [links|] eqn:Hpg.
  - destruct (decide (size links = 0%nat)).
    + by erewrite transition_model_dangling.
    + erewrite transition_model_links by done.
      apply normalize_nonempty_no_Exception, remap_ne_empty. by intros ->.
  - by rewrite transition_model_missing.
Qed.

(** The transition model under exact arithmetic (for the claim C1 see
    [transition_model_sum_check_fires]).  For a corpus graph, a page [pg]
    of it with the links [links] and any damping factor [d], the
    transition model returns a distribution over the pages of the corpus.
    When [links] is empty every page gets exactly [1 / |corpus|].  Otherwise
    the page [q] gets [(1 - d) / |corpus|], plus [d / |links|] when [q] is
    linked from [pg], divided by the sum of these values over the corpus. *)
Theorem transition_model_distribution corpus pg d links :
  corpus_wf corpus → corpus !! pg = Some links →
  ∃ pd, transition_model corpus pg d = Return pd
    ∧ dom pd = dom corpus
    ∧ ∀ q, q ∈ dom corpus →
        pd !! q = Some
          (if decide (links = ∅) then 1 / len_dict corpus
           else transition_weight corpus links d q
                / sum_over (λ q _, transition_weight corpus links d q) corpus).
Proof.
  intros Hwf Hpg. destruct (decide (links = ∅)) as [->|Hlinks].
  - eexists. split; [by apply (transition_model_dangling _ _ _ ∅)|].
    split; [apply dom_remap|].
    intros q [v Hq]%elem_of_dom. by rewrite lookup_remap, Hq.
  - assert (size links ≠ 0%nat) as Hsize by by apply size_links_ne_0.
    pose proof (assigned_total_wf _ _ _ d Hwf Hpg Hsize) as Htotal.
    eexists. split.
    { rewrite (transition_model_links _ _ _ links) by done.
      apply normalize_ok. rewrite sum_values_remap, Htotal. done. }
    split; [by rewrite !dom_remap|].
    intros q [v Hq]%elem_of_dom. rewrite !lookup_remap, Hq. simpl.
    rewrite sum_values_remap. do 2 f_equal.
    + apply assigned_probability_weight.
    + apply sum_over_ext. intros. apply assigned_probability_weight.
Qed.

(** The sum of the transition model under exact arithmetic (for the claim
    C3 see [transition_model_returns_no_distribution]).  For a damping
    factor strictly between 0 and 1 and a page of the corpus, the
    transition model returns a distribution whose values sum to 1 within
    the tolerance [1e-9]. *)
Theorem transition_model_sums_to_one corpus pg d :
  0 < d → d < 1 → pg ∈ dom corpus →
  ∃ pd, transition_model corpus pg d = Return pd
    ∧ Qcabs (sum_values pd - 1) ≤ tolerance.
Proof.
  intros Hd0 Hd1 [links Hpg]%elem_of_dom.
  assert (∀ pd : gmap page Qc,
            sum_values pd = 1 → Qcabs (sum_values pd - 1) ≤ tolerance) as Hone.
  { intros pd ->. by replace (1 - 1) with 0 by ring. }
  destruct (decide (size links = 0%nat)) as [Hsize|Hsize].
  - eexists. split; [by eapply transition_model_dangling|].
    apply Hone. rewrite sum_values_remap, sum_over_const. unfold len_dict.
    field. apply Qc_of_nat_ne_0. by eapply lookup_size_ne_0.
  - pose proof (assigned_total_pos _ _ _ _ Hd0 Hd1 Hpg Hsize) as Hpos.
    eexists. split.
    + rewrite (transition_model_links _ _ _ links) by done.
      apply normalize_ok. rewrite sum_values_remap.
      intros E. rewrite E in Hpos. by apply Qclt_not_eq in Hpos.
    + apply Hone. eapply normalize_checked, normalize_ok.
      rewrite sum_values_remap.
      intros E. rewrite E in Hpos. by apply Qclt_not_eq in Hpos.
Qed.


(** ** The iterative engine *)

Lemma sum_over_filter {A} (P : page * A → Prop) `{!∀ e, Decision (P e)}
    (g : page → A → Qc) (m : gmap page A) :
  sum_over g (filter P m)
  = sum_over (λ k v, if decide (P (k, v)) then g k v else 0) m.
Proof.
  induction m as [|i x m Hi IH] using map_ind.
  - by rewrite map_filter_empty, !sum_over_empty.
  - rewrite (sum_over_insert _ m) by done.
    destruct (decide (P (i, x))) as [HP|HP].
    + rewrite map_filter_insert_True by done.
      rewrite sum_over_insert, IH; [done|].
      by rewrite map_lookup_filter, Hi.
    + rewrite map_filter_insert_not' by (done || by rewrite Hi).
      rewrite IH. ring.
Qed.

Lemma second_condition_sum_ok corpus (previous : gmap page Qc) pg :
  dom corpus ⊆ dom previous →
  second_condition_sum corpus previous pg
  = Return (incoming_rank corpus previous pg).
Proof.
  intros Hdom. unfold second_condition_sum, incoming_rank, linking_to.
  rewrite (sum_over_filter (λ e, pg ∈ e.2)).
  apply (for_each_pure corpus _
    (λ q links acc, acc + (if decide (pg ∈ links)
                           then rank_of previous q / len_set links else 0))).
  intros q links acc Hq. simpl. destruct (decide (pg ∈ links)) as [Hin|Hin].
  - assert (q ∈ dom previous) as [r Hr]%elem_of_dom.
    { apply Hdom, elem_of_dom. by eexists. }
    unfold getitem, rank_of. rewrite Hr. simpl.
    rewrite truediv_ok; [done|].
    apply Qc_of_nat_ne_0. by eapply elem_size_ne_0.
  - f_equal. ring.
Qed.

Lemma update_pass_ok corpus d first (previous page_rank : gmap page Qc) :
  dom corpus ⊆ dom previous →
  update_pass corpus d first previous page_rank
  = Return (remap (λ pg _, first + d * incoming_rank corpus previous pg)
              page_rank).
Proof.
  intros Hdom. unfold update_pass.
  apply (for_each_update_inplace page_rank _
           (λ pg _, first + d * incoming_rank corpus previous pg)).
  intros k v s _ _. by rewrite second_condition_sum_ok.
Qed.

Lemma changed_count_ok (previous page_rank : gmap page Qc) :
  dom page_rank ⊆ dom previous →
  ∃ count, changed_count previous page_rank = Return count
    ∧ (count = 0%nat ↔ converged previous page_rank).
Proof.
  intros Hdom. unfold changed_count.
  rewrite (for_each_pure page_rank _
    (λ pg new count, if decide (threshold < Qcabs (rank_of previous pg - new))
                     then S count else count)).
  - eexists. split; [done|]. unfold converged.
    apply (map_fold_weak_ind (λ c m,
      c = 0%nat ↔
      map_Forall (λ pg v, ¬ threshold < Qcabs (rank_of previous pg - v)) m)).
    + split; [intros _; apply map_Forall_empty|done].
    + intros i x m r Hi IH. rewrite map_Forall_insert by done.
      destruct (decide (threshold < Qcabs (rank_of previous i - x))).
      * split; [done|]. by intros [? _].
      * rewrite IH. naive_solver.
  - intros pg new count Hpg.
    assert (pg ∈ dom previous) as [r Hr]%elem_of_dom.
    { apply Hdom, elem_of_dom. by eexists. }
    unfold getitem, rank_of. rewrite Hr. simpl.
    by destruct (decide (threshold < Qcabs (r - new))).
Qed.

Lemma dom_pass corpus d first (previous : gmap page Qc) :
  dom (pass corpus d first previous) = dom previous.
Proof. apply dom_remap. Qed.

(** One turn of the [while] loop. *)
Lemma iterate_loop_step fuel corpus d first (page_rank : gmap page Qc) :
  dom page_rank = dom corpus →
  iterate_loop (S fuel) corpus d first page_rank
  = if decide (converged page_rank (pass corpus d first page_rank))
    then Some (Return (pass corpus d first page_rank))
    else iterate_loop fuel corpus d first (pass corpus d first page_rank).
Proof.
  intros Hdom. simpl. rewrite update_pass_ok by by rewrite Hdom.
  fold (pass corpus d first page_rank).
  destruct (changed_count_ok page_rank (pass corpus d first page_rank))
    as (count & -> & Hcount); [by rewrite dom_pass|].
  destruct (decide (count = 0%nat)) as [Hc|Hc].
  - by rewrite decide_True by by apply Hcount.
  - rewrite decide_False; [done|]. by rewrite <- Hcount.
Qed.

Lemma iterate_pagerank_empty fuel d :
  iterate_pagerank fuel (∅ : gmap page (gset page)) d
  = Some (Raise ZeroDivisionError).
Proof.
  unfold iterate_pagerank. rewrite uniform_init. simpl.
  rewrite len_dict_remap. unfold len_dict.
  by rewrite map_size_empty, Qc_of_nat_0, truediv_zero.
Qed.

Lemma iterate_pagerank_nonempty fuel corpus d :
  corpus ≠ ∅ →
  iterate_pagerank fuel corpus d
  = match iterate_loop fuel corpus d (first_term corpus d)
            (initial_ranks corpus) with
    | None => None
    | Some (Raise e) => Some (Raise e)
    | Some (Return page_rank) => Some (normalize page_rank)
    end.
Proof.
  intros Hne. unfold iterate_pagerank. rewrite uniform_init. simpl.
  rewrite len_dict_remap, truediv_ok; [done|].
  apply Qc_of_nat_ne_0. by intros ?%map_size_empty_iff.
Qed.

(** The loop ends with the first pass that moves no rank by more than the
    threshold, and only then. *)
Lemma iterate_loop_spec fuel corpus d first (page_rank : gmap page Qc) r :
  dom page_rank = dom corpus →
  iterate_loop fuel corpus d first page_rank = Some r
  ↔ ∃ k, (k < fuel)%nat
      ∧ converged (after_passes corpus d first k page_rank)
                  (after_passes corpus d first (S k) page_rank)
      ∧ (∀ j, (j < k)%nat →
           ¬ converged (after_passes corpus d first j page_rank)
                       (after_passes corpus d first (S j) page_rank))
      ∧ r = Return (after_passes corpus d first (S k) page_rank).
Proof.
  revert page_rank. induction fuel as [|fuel IH]; intros page_rank Hdom.
  { simpl. split; [done|]. intros (k & ? & _). lia. }
  rewrite iterate_loop_step by done.
  destruct (decide (converged page_rank (pass corpus d first page_rank)))
    as [Hc|Hc].
  - split.
    + intros [= <-]. exists 0%nat. repeat split; [lia|done|]. intros; lia.
    + intros (k & _ & _ & Hfirst & Hr). destruct k as [|k]; [by subst r|].
      destruct (Hfirst 0%nat); [lia|done].
  - rewrite IH by by rewrite dom_pass. split.
    + intros (k & Hk & Hconv & Hfirst & Hr). exists (S k).
      repeat split; [lia|done| |done].
      intros [|j] Hj; [done|]. apply (Hfirst j). lia.
    + intros (k & Hk & Hconv & Hfirst & Hr). destruct k as [|k]; [done|].
      exists k. repeat split; [lia|done| |done].
      intros j Hj. apply (Hfirst (S j)). lia.
Qed.

Lemma initial_ranks_dom corpus : dom (initial_ranks corpus) = dom corpus.
Proof. apply dom_remap. Qed.

(** C2.  A pass of the iterative engine assigns to every page [pg] the rank
    [(1 - d) / |corpus| + d * S], where [S] is the sum, over the pages [q]
    whose outbound links contain [pg], of the previous rank of [q] divided
    by its number of outbound links.  The previous ranks are those of the
    copy taken when the pass begins, whatever the table under assignment
    holds; and the previous rank of a page without outbound links enters the
    new rank of no page. *)
Theorem pass_is_simultaneous corpus d (previous page_rank : gmap page Qc) :
  dom previous = dom corpus → dom page_rank = dom corpus →
  ∃ new,
    update_pass corpus d (first_term corpus d) previous page_rank = Return new
    ∧ dom new = dom corpus
    ∧ (∀ pg, pg ∈ dom corpus →
         new !! pg = Some
           ((1 - d) / len_dict corpus
            + d * sum_over (λ q links, rank_of previous q / len_set links)
                    (linking_to corpus pg)))
    ∧ (∀ q r, corpus !! q = Some ∅ →
         update_pass corpus d (first_term corpus d) (<[q:=r]> previous)
           page_rank = Return new).
Proof.
  intros Hprev Hpr. eexists. split; [|split; [|split]].
  - apply update_pass_ok. by rewrite Hprev.
  - by rewrite dom_remap.
  - intros pg Hpg. rewrite <- Hpr in Hpg.
    apply elem_of_dom in Hpg as [v Hpg].
    by rewrite lookup_remap, Hpg.
  - intros q r Hq. rewrite update_pass_ok.
    + f_equal. apply remap_ext. intros pg _ _. do 2 f_equal.
      unfold incoming_rank. apply sum_over_ext. intros k links Hk.
      apply map_lookup_filter_Some in Hk as [Hk Hin]. simpl in Hin.
      f_equal. unfold rank_of. rewrite lookup_insert_ne; [done|].
      intros ->. rewrite Hq in Hk. set_solver.
    + rewrite dom_insert_L, Hprev. set_solver.
Qed.

Lemma converged_refl (ranks : gmap page Qc) : converged ranks ranks.
Proof.
  intros pg v Hpg. unfold rank_of. rewrite Hpg. simpl.
  replace (v - v) with 0 by ring. by vm_compute.
Qed.

Lemma sum_values_initial_ranks corpus :
  corpus ≠ ∅ → sum_values (initial_ranks corpus) = 1.
Proof.
  intros Hne. unfold initial_ranks.
  rewrite sum_values_remap, sum_over_const. unfold len_dict. field.
  apply Qc_of_nat_ne_0. by intros ?%map_size_empty_iff.
Qed.

Lemma normalize_one (ranks : gmap page Qc) :
  sum_values ranks = 1 → normalize ranks = Return ranks.
Proof.
  intros Hsum. rewrite normalize_ok by by rewrite Hsum.
  rewrite Hsum. f_equal. rewrite <- (remap_id ranks) at 2.
  apply remap_ext. intros k v _. apply (right_id 1 Qcdiv).
Qed.

(** When the first pass changes nothing, the engine returns the ranks it
    started from. *)
Lemma iterate_pagerank_fixed_point fuel corpus d :
  corpus ≠ ∅ →
  pass corpus d (first_term corpus d) (initial_ranks corpus)
  = initial_ranks corpus →
  iterate_pagerank (S fuel) corpus d = Some (Return (initial_ranks corpus)).
Proof.
  intros Hne Hfix. rewrite iterate_pagerank_nonempty by done.
  rewrite iterate_loop_step by apply initial_ranks_dom.
  rewrite Hfix, decide_True by apply converged_refl.
  by rewrite normalize_one by by apply sum_values_initial_ranks.
Qed.

(** The loop under exact arithmetic (for the claim C6 see
    [iterate_pagerank_first_convergence]).  The iterative engine has no
    iteration cap and no convergence failure: on a corpus that is not
    empty it produces an outcome within [fuel] passes exactly when one of
    these passes is the first to move no rank by more than the threshold,
    whatever its number; the outcome is then the normalisation of the
    ranks of that pass. *)
Theorem iterate_pagerank_stops_at_first_convergence fuel corpus d r :
  corpus ≠ ∅ →
  iterate_pagerank fuel corpus d = Some r
  ↔ ∃ k, (k < fuel)%nat ∧ first_converged_at corpus d k
      ∧ r = normalize (passes corpus d (S k)).
Proof.
  intros Hne. rewrite iterate_pagerank_nonempty by done.
  unfold first_converged_at, passes. split.
  - destruct (iterate_loop _ _ _ _ _) as [r0|] eqn:Hloop; [|done].
    apply iterate_loop_spec in Hloop as (k & Hk & Hconv & Hfirst & ->);
      [|apply initial_ranks_dom].
    intros [= <-]. by exists k.
  - intros (k & Hk & [Hconv Hfirst] & ->).
    assert (iterate_loop fuel corpus d (first_term corpus d)
              (initial_ranks corpus)
            = Some (Return (after_passes corpus d (first_term corpus d) (S k)
                              (initial_ranks corpus)))) as ->; [|done].
    apply iterate_loop_spec; [apply initial_ranks_dom|]. by exists k.
Qed.

Lemma Qc_of_nat_2 : Qc_of_nat 2 = 2.
Proof. rewrite !Qc_of_nat_S, Qc_of_nat_0. ring. Qed.

Lemma Qc_of_nat_1 : Qc_of_nat 1 = 1.
Proof. rewrite !Qc_of_nat_S, Qc_of_nat_0. ring. Qed.

(** C8.  For two distinct pages that link only to each other, and any
    damping factor, the iterative engine returns the rank 1/2 for each of
    them: exactly, hence within the convergence threshold. *)
Theorem two_page_cycle_ranks (A B : page) d fuel :
  A ≠ B →
  ∃ r, iterate_pagerank (S fuel) {[ A := {[ B ]}; B := {[ A ]} ]} d
       = Some (Return r)
    ∧ r !! A = Some (1 / 2) ∧ r !! B = Some (1 / 2)
    ∧ dom r = {[ A; B ]}
    ∧ ∀ pg v, r !! pg = Some v → Qcabs (v - 1 / 2) ≤ threshold.
Proof.
  intros HAB. set (corpus := {[ A := {[ B ]}; B := {[ A ]} ]}).
  assert (corpus ≠ ∅) as Hne by apply insert_non_empty.
  assert (len_dict corpus = 2) as Hlen.
  { unfold len_dict, corpus.
    rewrite map_size_insert_None by by rewrite lookup_singleton_ne.
    by rewrite map_size_singleton, Qc_of_nat_2. }
  assert (initial_ranks corpus = {[ A := 1 / 2; B := 1 / 2 ]}) as Hinit.
  { unfold initial_ranks. rewrite Hlen. unfold corpus.
    by rewrite remap_insert, <- insert_empty, remap_insert, remap_empty. }
  assert (∀ pg v, initial_ranks corpus !! pg = Some v → v = 1 / 2) as Hhalf.
  { intros pg v. rewrite Hinit. intros [[_ <-]|[_ Hv]]%lookup_insert_Some;
      [done|]. by apply lookup_singleton_Some in Hv as [_ <-]. }
  exists (initial_ranks corpus). split; [|split; [|split; [|split]]].
  - apply iterate_pagerank_fixed_point; [done|].
    unfold pass. etrans; [|apply remap_id].
    apply remap_ext. intros pg v Hpg. rewrite (Hhalf pg v Hpg).
    unfold incoming_rank, linking_to.
    rewrite (sum_over_filter (λ e, pg ∈ e.2)).
    unfold rank_of, first_term. rewrite Hlen, Hinit. subst corpus.
    rewrite sum_over_insert by by rewrite lookup_singleton_ne.
    rewrite sum_over_singleton. simpl.
    rewrite lookup_insert_eq, lookup_insert_ne, lookup_singleton_eq by done.
    simpl. unfold len_set. rewrite !size_singleton, Qc_of_nat_1.
    rewrite Hinit in Hpg.
    apply lookup_insert_Some in Hpg as [[<- _]|[? Hpg]].
    + rewrite decide_True, decide_False by set_solver. by field.
    + apply lookup_singleton_Some in Hpg as [<- _].
      rewrite decide_False, decide_True by set_solver. by field.
  - by rewrite Hinit, lookup_insert_eq.
  - by rewrite Hinit, lookup_insert_ne, lookup_singleton_eq.
  - rewrite initial_ranks_dom. unfold corpus.
    by rewrite dom_insert_L, dom_singleton_L.
  - intros pg v Hpg. rewrite (Hhalf pg v Hpg).
    replace (1 / 2 - 1 / 2) with 0 by ring. by vm_compute.
Qed.

(** ** The [random] module *)

Lemma length_accumulate_from acc (l : list Qc) :
  length (accumulate_from acc l) = length l.
Proof. revert acc. induction l as [|w l IH]; intros acc; simpl; auto. Qed.

(** The last running sum is the sum of the weights. *)
Lemma last_accumulate_from acc (l : list Qc) :
  l ≠ [] → list.last (accumulate_from acc l) = Some (foldl Qcplus acc l).
Proof.
  revert acc. induction l as [|w l IH]; intros acc Hl; [done|].
  destruct l as [|w' l]; [done|].
  change (list.last (accumulate_from (acc + w) (w' :: l))
          = Some (foldl Qcplus (acc + w) (w' :: l))).
  by apply IH.
Qed.

Lemma foldr_plus_shift acc w (l : list Qc) :
  foldr (λ v total, total + v) (acc + w) l
  = foldr (λ v total, total + v) acc l + w.
Proof. induction l as [|w' l IH]; simpl; [done|]. rewrite IH. ring. Qed.

Lemma foldl_plus_foldr acc (l : list Qc) :
  foldl Qcplus acc l = foldr (λ v total, total + v) acc l.
Proof.
  revert acc. induction l as [|w l IH]; intros acc; [done|].
  simpl. by rewrite IH, foldr_plus_shift.
Qed.

Lemma sum_values_foldr (m : gmap page Qc) :
  sum_values m = foldr (λ v total, total + v) 0 (map_to_list m).*2.
Proof.
  unfold sum_values. rewrite map_fold_foldr.
  induction (map_to_list m) as [|[k v] l IH]; simpl; [done|]. by rewrite IH.
Qed.

Lemma bisect_loop_bounds turns (a : list Qc) x lo hi :
  (lo ≤ hi)%nat → (hi < length a)%nat → (hi - lo ≤ turns)%nat →
  ∃ i, bisect_loop turns a x lo hi = Return i ∧ (lo ≤ i ≤ hi)%nat.
Proof.
  revert lo hi. induction turns as [|turns IH]; intros lo hi Hle Hhi Hturns.
  { exists lo. split; [done|lia]. }
  cbn [bisect_loop]. destruct (decide (lo < hi)%nat) as [Hlt|Hge];
    [|exists lo; split; [done|lia]].
  assert (lo ≤ (lo + hi) `div` 2 ∧ (lo + hi) `div` 2 < hi)%nat as [Hm1 Hm2].
  { split.
    - apply Nat.div_le_lower_bound; lia.
    - apply Nat.Div0.div_lt_upper_bound; lia. }
  destruct (lookup_lt_is_Some_2 a ((lo + hi) `div` 2)) as [am Ham]; [lia|].
  unfold list_getitem. rewrite Ham. cbn [mbind result_bind].
  destruct (decide (x < am)).
  - destruct (IH lo ((lo + hi) `div` 2)%nat) as (i & -> & Hi); [lia..|].
    exists i. split; [done|lia].
  - destruct (IH ((lo + hi) `div` 2 + 1)%nat hi) as (i & -> & Hi); [lia..|].
    exists i. split; [done|lia].
Qed.

Lemma random_choices_ok {A} (population : list A) (weights : list Qc) g :
  length weights = length population → population ≠ [] →
  0 < foldr (λ v total, total + v) 0 weights →
  ∃ a, random_choices population weights g = Return ([a]%list, (random g).2)
    ∧ a ∈ population.
Proof.
  intros Hlen Hne Htotal. unfold random_choices, accumulate.
  rewrite decide_False
    by (rewrite length_accumulate_from, Hlen; intros Hn; by apply Hn).
  unfold list_getlast. rewrite last_accumulate_from, foldl_plus_foldr.
  2:{ intros ->. by destruct population. }
  cbn [mbind result_bind]. rewrite decide_False by by apply Qclt_not_le.
  assert (length population ≠ 0%nat) as Hn by by destruct population.
  destruct (bisect_loop_bounds (length population - 1 - 0)
              (accumulate_from 0 weights)
              ((random g).1 * foldr (λ v total, total + v) 0 weights)
              0 (length population - 1)) as (i & Hi & Hbound).
  { lia. } { rewrite length_accumulate_from. lia. } { lia. }
  unfold bisect. rewrite Hi. cbn [mbind result_bind].
  destruct (lookup_lt_is_Some_2 population i) as [a Ha]; [lia|].
  unfold list_getitem. rewrite Ha. cbn [mbind result_bind].
  exists a. split; [done|]. by eapply list_elem_of_lookup_2.
Qed.

Lemma randbelow_bound (n : nat) (g : rng) :
  n ≠ 0%nat → g 0%nat < 1 → ((randbelow n g).1 < n)%nat.
Proof.
  intros Hn Hu. unfold randbelow, random. cbn [fst snd].
  assert (Qfloor (g 0%nat * Qc_of_nat n) < Z.of_nat n)%Z as Hfloor.
  { rewrite Zlt_Qlt. eapply Qle_lt_trans; [apply Qfloor_le|].
    apply Qlt_le_trans with (1 * inject_Z (Z.of_nat n))%Q.
    - apply Qmult_lt_compat_r; [|exact Hu].
      change (inject_Z 0 < inject_Z (Z.of_nat n))%Q.
      rewrite <- Zlt_Qlt. lia.
    - rewrite Qmult_1_l. apply Qle_refl. }
  lia.
Qed.

Lemma random_choice_ok {A} (seq : list A) (g : rng) :
  seq ≠ [] → g 0%nat < 1 →
  ∃ a, random_choice seq g = Return (a, (random g).2) ∧ a ∈ seq.
Proof.
  intros Hne Hu. unfold random_choice.
  assert (length seq ≠ 0%nat) as Hn by by destruct seq.
  rewrite decide_False by done.
  destruct (lookup_lt_is_Some_2 seq (randbelow (length seq) g).1)
    as [a Ha]; [by apply randbelow_bound|].
  unfold list_getitem. rewrite Ha. simpl.
  exists a. split; [done|]. by eapply list_elem_of_lookup_2.
Qed.

Lemma elem_of_keys {A} (m : gmap page A) k :
  k ∈ (map_to_list m).*1 ↔ k ∈ dom m.
Proof.
  rewrite list_elem_of_fmap, elem_of_dom. split.
  - intros ([k' v] & -> & Hkv). apply elem_of_map_to_list in Hkv. by eexists.
  - intros [v Hk]. exists (k, v). split; [done|].
    by apply elem_of_map_to_list.
Qed.

Lemma keys_ne_nil {A} (m : gmap page A) : m ≠ ∅ → (map_to_list m).*1 ≠ [].
Proof.
  intros Hne Hnil. apply Hne, map_to_list_empty_iff.
  by destruct (map_to_list m).
Qed.

(** ** The sampling engine *)

Lemma transition_model_wf corpus pg d :
  corpus_wf corpus → pg ∈ dom corpus →
  ∃ pd, transition_model corpus pg d = Return pd
    ∧ dom pd = dom corpus ∧ sum_values pd = 1.
Proof.
  intros Hwf [links Hpg]%elem_of_dom.
  destruct (decide (size links = 0%nat)) as [Hsize|Hsize].
  - eexists. split; [by eapply transition_model_dangling|].
    split; [apply dom_remap|].
    apply sum_values_initial_ranks. by intros ->.
  - pose proof (assigned_total_wf _ _ _ d Hwf Hpg Hsize) as Htotal.
    assert (normalize
              (remap (λ q _, assigned_probability corpus links d q) corpus)
            = Return
                (remap (λ q _, assigned_probability corpus links d q) corpus))
      as Hnorm.
    { apply normalize_one. by rewrite sum_values_remap. }
    eexists. split; [by erewrite transition_model_links|].
    split; [apply dom_remap|]. by rewrite sum_values_remap.
Qed.

Lemma sum_values_insert (m : gmap page Qc) i x y :
  m !! i = Some x → sum_values (<[i:=y]> m) = sum_values m - x + y.
Proof.
  intros Hi. rewrite <- (insert_delete_id m i x) at 2 by done.
  rewrite <- (insert_delete_eq m).
  rewrite !sum_values_eq, !sum_over_insert by apply lookup_delete_eq. ring.
Qed.

Lemma sample_loop_ok i corpus d start (page_rank : gmap page Qc) g :
  corpus_wf corpus → start ∈ dom corpus → dom page_rank = dom corpus →
  map_Forall (λ _ v, 0 ≤ v) page_rank →
  ∃ counts, sample_loop i corpus d start page_rank g = Return counts
    ∧ dom counts = dom corpus
    ∧ map_Forall (λ _ v, 0 ≤ v) counts
    ∧ sum_values counts = sum_values page_rank + Qc_of_nat i.
Proof.
  intros Hwf. revert start page_rank g.
  induction i as [|i IH]; intros start page_rank g Hstart Hdom Hpos.
  { exists page_rank. repeat split; [done..|].
    rewrite Qc_of_nat_0. ring. }
  destruct (transition_model_wf corpus start d) as (pd & Hpd & Hdpd & Hsum);
    [done..|].
  destruct (random_choices_ok (map_to_list pd).*1 (map_to_list pd).*2 g)
    as (a & Ha & Hin).
  { by rewrite !length_fmap. }
  { apply keys_ne_nil. intros ->. rewrite dom_empty_L in Hdpd. set_solver. }
  { rewrite <- sum_values_foldr, Hsum. by vm_compute. }
  apply elem_of_keys in Hin. rewrite Hdpd, <- Hdom in Hin.
  apply elem_of_dom in Hin as [count Hcount].
  destruct (IH a (<[a := count + 1]> page_rank) (random g).2)
    as (counts & Hloop & Hdc & Hposc & Hsumc).
  { rewrite <- Hdom. apply elem_of_dom. by eexists. }
  { rewrite dom_insert_lookup_L; [done|by eexists]. }
  { apply map_Forall_insert_2; [|done].
    apply Qcplus_nonneg_nonneg; [by apply (Hpos a)|by vm_compute]. }
  exists counts. split; [|split; [done|split; [done|]]].
  - cbn [sample_loop]. rewrite Hpd. cbn [mbind result_bind].
    rewrite Ha. cbn [mbind result_bind].
    unfold list_getitem, getitem. simpl. by rewrite Hcount.
  - rewrite Hsumc, (sum_values_insert _ _ count) by done.
    rewrite Qc_of_nat_S. ring.
Qed.

Lemma zero_counts corpus :
  dict_comp (λ _ _, Return 0) corpus
  = Return (remap (λ _ _, 0) corpus : gmap page Qc).
Proof. by apply dict_comp_ok. Qed.

Lemma sum_values_zero_counts corpus :
  sum_values (remap (λ _ _, 0) corpus) = 0.
Proof. rewrite sum_values_remap, sum_over_const. ring. Qed.

(** The loop that turns the counts into frequencies. *)
Lemma frequencies_ok (n : Z) (counts : gmap page Qc) :
  (map_Forall (λ _ v, v = 0) counts ∨ n ≠ 0%Z) →
  for_each counts (λ pg _ pr,
      count ← getitem pr pg;
      if decide (0 < count) then
        r ← truediv count (Qc_of_Z n);
        Return (<[pg := r]> pr)
      else Return pr) counts
  = Return (remap (λ _ v, if decide (0 < v) then v / Qc_of_Z n else v)
              counts).
Proof.
  intros Hn. apply for_each_update_inplace. intros k v s Hk Hs.
  unfold getitem. rewrite Hs. simpl. destruct (decide (0 < v)) as [Hv|Hv].
  - destruct Hn as [Hzero|Hn].
    { rewrite (Hzero k v Hk) in Hv. by vm_compute in Hv. }
    rewrite truediv_ok; [done|].
    rewrite <- Z2Qc_inj_0. by intros ?%Z2Qc_inj.
  - by rewrite insert_id.
Qed.

Lemma sample_pagerank_ok corpus d (n : Z) g :
  corpus_wf corpus → corpus ≠ ∅ → (0 < n)%Z → rng_valid g →
  ∃ r, sample_pagerank corpus d n g = Return r
    ∧ dom r = dom corpus ∧ sum_values r = 1.
Proof.
  intros Hwf Hne Hn Hg.
  destruct (random_choice_ok (map_to_list corpus).*1 g)
    as (start & Hstart & Hin); [by apply keys_ne_nil|apply Hg|].
  apply elem_of_keys in Hin.
  destruct (sample_loop_ok (Z.to_nat n) corpus d start
              (remap (λ _ _, 0) corpus) (random g).2)
    as (counts & Hloop & Hdom & Hpos & Hsum); [done|done|apply dom_remap| |].
  { intros k v. rewrite lookup_remap.
    destruct (corpus !! k); intros [= <-]. by vm_compute. }
  assert (Qc_of_Z n ≠ 0) as Hn0.
  { rewrite <- Z2Qc_inj_0. intros ?%Z2Qc_inj. lia. }
  assert (remap (λ _ v, if decide (0 < v) then v / Qc_of_Z n else v) counts
          = remap (λ _ v, v / Qc_of_Z n) counts) as Hfreq.
  { apply remap_ext. intros k v Hk. destruct (decide (0 < v)) as [|Hv]; [done|].
    assert (v = 0) as ->; [|by field].
    apply Qcle_antisym; [by apply Qcnot_lt_le|by apply (Hpos k)]. }
  assert (sum_values (remap (λ _ v, v / Qc_of_Z n) counts) = 1) as Hone.
  { rewrite sum_values_div, Hsum, sum_values_zero_counts.
    unfold Qc_of_nat. rewrite Z2Nat.id by lia. by field. }
  eexists. split; [|split; [|exact Hone]].
  - unfold sample_pagerank. rewrite Hstart. cbn [mbind result_bind].
    rewrite zero_counts. cbn [mbind result_bind].
    rewrite Hloop. cbn [mbind result_bind].
    rewrite frequencies_ok by (right; lia). cbn [mbind result_bind].
    rewrite Hfreq. by apply normalize_one.
  - by rewrite dom_remap.
Qed.

Lemma sample_pagerank_nonpositive corpus d (n : Z) g :
  corpus ≠ ∅ → (n ≤ 0)%Z → rng_valid g →
  sample_pagerank corpus d n g = Raise ZeroDivisionError.
Proof.
  intros Hne Hn Hg.
  destruct (random_choice_ok (map_to_list corpus).*1 g)
    as (start & Hstart & Hin); [by apply keys_ne_nil|apply Hg|].
  unfold sample_pagerank. rewrite Hstart. cbn [mbind result_bind].
  rewrite zero_counts. cbn [mbind result_bind].
  replace (Z.to_nat n) with 0%nat by lia. cbn [sample_loop mbind result_bind].
  rewrite frequencies_ok.
  2:{ left. intros k v. rewrite lookup_remap.
      by destruct (corpus !! k); intros [= <-]. }
  cbn [mbind result_bind]. rewrite remap_remap.
  rewrite (remap_ext _ (λ _ _, 0)).
  - apply normalize_zero; [by apply remap_ne_empty|].
    apply sum_values_zero_counts.
  - intros k v _. by rewrite decide_False by by vm_compute.
Qed.

Lemma sample_pagerank_empty d (n : Z) g :
  sample_pagerank (∅ : gmap page (gset page)) d n g = Raise IndexError.
Proof. unfold sample_pagerank. by rewrite map_to_list_empty. Qed.

(** ** The check after the normalisation never fails *)

Lemma no_Exception_bind {A B} (Q : A → Prop) (P : B → Prop) (r : result A)
    (k : A → result B) :
  no_Exception Q r → (∀ a, Q a → no_Exception P (k a)) →
  no_Exception P (r ≫= k).
Proof. destruct r; simpl; auto. Qed.

Lemma no_Exception_ne {A} (P : A → Prop) (r : result A) :
  no_Exception P r → r ≠ Raise Exception.
Proof. destruct r; simpl; congruence. Qed.

Lemma ne_no_Exception {A} (r : result A) :
  r ≠ Raise Exception → no_Exception (λ _, True) r.
Proof. destruct r; simpl; [done|congruence]. Qed.

Lemma for_each_no_Exception {A S} (I : S → Prop) (m : gmap page A)
    (body : page → A → S → result S) (s0 : S) :
  I s0 → (∀ k v s, I s → no_Exception I (body k v s)) →
  no_Exception I (for_each m body s0).
Proof.
  intros H0 Hb. induction m as [|i x m Hi Hfirst IH] using map_first_key_ind.
  - by rewrite for_each_empty.
  - rewrite for_each_insert_first by done.
    eapply no_Exception_bind; [exact IH|]. intros s Hs. by apply Hb.
Qed.

Lemma getitem_no_Exception {A} (m : gmap page A) k :
  no_Exception (λ _, True) (getitem m k).
Proof. unfold getitem. by destruct (m !! k). Qed.

Lemma list_getitem_no_Exception {A} (l : list A) i :
  no_Exception (λ _, True) (list_getitem l i).
Proof. unfold list_getitem. by destruct (l !! i). Qed.

Lemma truediv_no_Exception x y : no_Exception (λ _, True) (truediv x y).
Proof. unfold truediv. by destruct (decide (y = 0)). Qed.

Lemma bisect_loop_no_Exception turns (a : list Qc) x lo hi :
  no_Exception (λ _, True) (bisect_loop turns a x lo hi).
Proof.
  revert lo hi. induction turns as [|turns IH]; intros lo hi; [done|].
  cbn [bisect_loop]. destruct (decide (lo < hi)%nat); [|done].
  eapply no_Exception_bind; [apply list_getitem_no_Exception|].
  intros am _. destruct (decide (x < am)); apply IH.
Qed.

Lemma random_choices_no_Exception {A} (population : list A) weights g :
  no_Exception (λ _, True) (random_choices population weights g).
Proof.
  unfold random_choices.
  destruct (decide (length (accumulate weights) ≠ length population));
    [done|].
  eapply (no_Exception_bind (λ _, True)).
  { unfold list_getlast. by destruct (list.last _). }
  intros total _. destruct (decide (total ≤ 0)); [done|].
  eapply no_Exception_bind; [apply bisect_loop_no_Exception|].
  intros i _.
  eapply no_Exception_bind; [apply list_getitem_no_Exception|]. done.
Qed.

Lemma random_choice_no_Exception {A} (seq : list A) g :
  no_Exception (λ _, seq ≠ []) (random_choice seq g).
Proof.
  unfold random_choice. destruct (decide (length seq = 0%nat)); [done|].
  eapply no_Exception_bind; [apply list_getitem_no_Exception|].
  intros a _. simpl. by intros ->.
Qed.

Lemma normalize_no_Exception (ranks : gmap page Qc) :
  ranks ≠ ∅ → no_Exception (λ _, True) (normalize ranks).
Proof.
  intros Hne. by apply ne_no_Exception, normalize_nonempty_no_Exception.
Qed.

Lemma sample_loop_no_Exception i corpus d start (page_rank : gmap page Qc) g :
  page_rank ≠ ∅ →
  no_Exception (λ counts, counts ≠ ∅)
    (sample_loop i corpus d start page_rank g).
Proof.
  revert start page_rank g.
  induction i as [|i IH]; intros start page_rank g Hne; [done|].
  cbn [sample_loop]. eapply (no_Exception_bind (λ _, True)).
  { apply ne_no_Exception, transition_model_no_Exception. }
  intros pd _.
  eapply no_Exception_bind; [apply random_choices_no_Exception|].
  intros [next_page g'] _.
  eapply no_Exception_bind; [apply list_getitem_no_Exception|]. intros a _.
  eapply no_Exception_bind; [apply getitem_no_Exception|]. intros count _.
  apply IH, insert_non_empty.
Qed.

Lemma sample_pagerank_no_Exception corpus d (n : Z) g :
  sample_pagerank corpus d n g ≠ Raise Exception.
Proof.
  apply (no_Exception_ne (λ _, True)). unfold sample_pagerank.
  eapply no_Exception_bind; [apply random_choice_no_Exception|].
  intros [start g'] Hkeys.
  assert (corpus ≠ ∅) as Hne.
  { intros ->. by rewrite map_to_list_empty in Hkeys. }
  rewrite zero_counts. cbn [mbind result_bind].
  eapply no_Exception_bind.
  { apply sample_loop_no_Exception. by apply remap_ne_empty. }
  intros counts Hcounts. eapply no_Exception_bind.
  { apply (for_each_no_Exception (λ pr, pr ≠ ∅)); [done|].
    intros k v s Hs.
    eapply no_Exception_bind; [apply getitem_no_Exception|]. intros count _.
    destruct (decide (0 < count)); [|done].
    eapply no_Exception_bind; [apply truediv_no_Exception|]. intros r _.
    apply insert_non_empty. }
  intros freq Hfreq. by apply normalize_no_Exception.
Qed.

Lemma update_pass_no_Exception corpus d first
    (previous page_rank : gmap page Qc) :
  page_rank ≠ ∅ →
  no_Exception (λ new, new ≠ ∅)
    (update_pass corpus d first previous page_rank).
Proof.
  intros Hne. apply (for_each_no_Exception (λ pr, pr ≠ ∅)); [done|].
  intros k v s Hs. eapply (no_Exception_bind (λ _, True)).
  - apply (for_each_no_Exception (λ _, True)); [done|].
    intros p links acc _. destruct (decide (k ∈ links)); [|done].
    eapply no_Exception_bind; [apply getitem_no_Exception|]. intros r _.
    eapply no_Exception_bind; [apply truediv_no_Exception|]. done.
  - intros second _. apply insert_non_empty.
Qed.

Lemma changed_count_no_Exception (previous page_rank : gmap page Qc) :
  no_Exception (λ _, True) (changed_count previous page_rank).
Proof.
  apply (for_each_no_Exception (λ _, True)); [done|].
  intros k new count _.
  eapply no_Exception_bind; [apply getitem_no_Exception|]. intros old _.
  by destruct (decide (threshold < Qcabs (old - new))).
Qed.

Lemma iterate_loop_no_Exception fuel corpus d first
    (page_rank : gmap page Qc) r :
  page_rank ≠ ∅ →
  iterate_loop fuel corpus d first page_rank = Some r →
  no_Exception (λ ranks, ranks ≠ ∅) r.
Proof.
  revert page_rank. induction fuel as [|fuel IH]; intros page_rank Hne;
    [done|].
  cbn [iterate_loop].
  pose proof (update_pass_no_Exception corpus d first page_rank page_rank Hne)
    as Hup.
  destruct (update_pass corpus d first page_rank page_rank)
    as [new|e]; [|by intros [= <-]].
  pose proof (changed_count_no_Exception page_rank new) as Hcount.
  destruct (changed_count page_rank new) as [count|e]; [|by intros [= <-]].
  destruct (decide (count = 0%nat)); [by intros [= <-]|].
  by apply IH.
Qed.

Lemma iterate_pagerank_no_Exception fuel corpus d :
  iterate_pagerank fuel corpus d ≠ Some (Raise Exception).
Proof.
  destruct (decide (corpus = ∅)) as [->|Hne].
  { by rewrite iterate_pagerank_empty. }
  rewrite iterate_pagerank_nonempty by done.
  destruct (iterate_loop _ _ _ _ _) as [r|] eqn:Hloop; [|done].
  apply iterate_loop_no_Exception in Hloop;
    [|by apply remap_ne_empty].
  destruct r as [ranks|e]; simpl in Hloop; [|congruence].
  intros [= Hnorm]. by apply (normalize_nonempty_no_Exception ranks).
Qed.

(** C10.  With exact arithmetic, the normalisation of a table whose total
    is positive returns a table whose values sum to exactly 1: the check
    that follows it passes.  The three functions end with this step, and
    none of them raises the exception of that check, on any input. *)
Theorem normalization_exact (ranks : gmap page Qc) :
  0 < sum_values ranks →
  (∃ ranks', normalize ranks = Return ranks'
     ∧ sum_values ranks' = 1
     ∧ ∀ q, ranks' !! q = (λ v, v / sum_values ranks) <$> ranks !! q)
  ∧ (∀ corpus pg d, transition_model corpus pg d ≠ Raise Exception)
  ∧ (∀ corpus d n g, sample_pagerank corpus d n g ≠ Raise Exception)
  ∧ (∀ fuel corpus d, iterate_pagerank fuel corpus d ≠ Some (Raise Exception)).
Proof.
  intros Hpos.
  assert (sum_values ranks ≠ 0) as Hne.
  { intros E. rewrite E in Hpos. by apply Qclt_not_eq in Hpos. }
  split; [|split; [|split]].
  - eexists. split; [by apply normalize_ok|]. split.
    + eapply normalize_checked. by apply normalize_ok.
    + intros q. apply lookup_remap.
  - apply transition_model_no_Exception.
  - apply sample_pagerank_no_Exception.
  - apply iterate_pagerank_no_Exception.
Qed.

(** ** The boundaries of the arguments *)

Lemma not_fails_with_of_raise {A} (c : condition) (e : exn) :
  condition_of e ≠ Some c → ¬ fails_with c (Raise e : result A).
Proof. intros Hc (e' & [= <-] & Hc'). done. Qed.

(** The sampling engine under exact arithmetic (for the claim C4 see
    [sample_pagerank_outcome]).  For a corpus graph that is not empty, any
    damping factor, a sample count [n ≥ 1] and a random source that draws
    from [0, 1), the sampling engine returns a rank table over the pages of
    the corpus whose values sum to 1 within the tolerance [1e-9]. *)
Theorem sample_pagerank_sums_to_one corpus d (n : Z) g :
  corpus_wf corpus → corpus ≠ ∅ → (0 < n)%Z → rng_valid g →
  ∃ r, sample_pagerank corpus d n g = Return r
    ∧ dom r = dom corpus
    ∧ Qcabs (sum_values r - 1) ≤ tolerance.
Proof.
  intros Hwf Hne Hn Hg.
  destruct (sample_pagerank_ok corpus d n g) as (r & Hr & Hdom & Hsum);
    [done..|].
  exists r. split; [done|]. split; [done|].
  rewrite Hsum. replace (1 - 1) with 0 by ring. by vm_compute.
Qed.

(** The boundary arguments under exact arithmetic (for the claim C5 see
    [boundary_arguments_unchecked]).  No argument is validated.  On a
    corpus that is not empty, a sample count [n ≤ 0] makes the sampling
    engine raise [ZeroDivisionError], when it divides the zero counts by
    their zero total; this is no invalid-argument condition.  The damping factors 0 and
    1 are accepted: on a corpus graph the transition model returns a
    distribution and the sampling engine (with [n ≥ 1]) a rank table for
    them, and the iterative engine with the damping factor 0 returns the
    uniform ranks. *)
Theorem boundary_arguments_not_rejected corpus (g : rng) :
  corpus_wf corpus → corpus ≠ ∅ → rng_valid g →
  (∀ d n, (n ≤ 0)%Z →
     sample_pagerank corpus d n g = Raise ZeroDivisionError
     ∧ ¬ fails_with InvalidArgument (sample_pagerank corpus d n g))
  ∧ (∀ d, d = 0 ∨ d = 1 →
       (∀ pg, pg ∈ dom corpus → ∃ pd, transition_model corpus pg d = Return pd)
       ∧ (∀ n, (0 < n)%Z → ∃ r, sample_pagerank corpus d n g = Return r))
  ∧ (∀ fuel,
       iterate_pagerank (S fuel) corpus 0 = Some (Return (initial_ranks corpus))).
Proof.
  intros Hwf Hne Hg. split; [|split].
  - intros d n Hn. rewrite sample_pagerank_nonpositive by done.
    split; [done|]. by apply not_fails_with_of_raise.
  - intros d _. split.
    + intros pg Hpg.
      destruct (transition_model_wf corpus pg d) as (pd & Hpd & _); [done..|].
      by exists pd.
    + intros n Hn.
      destruct (sample_pagerank_ok corpus d n g) as (r & Hr & _); [done..|].
      by exists r.
  - intros fuel. apply iterate_pagerank_fixed_point; [done|].
    unfold pass. etrans; [|apply remap_id].
    apply remap_ext. intros pg v Hpg. unfold initial_ranks in Hpg.
    rewrite lookup_remap in Hpg.
    destruct (corpus !! pg); simplify_eq/=. unfold first_term, Qcdiv. ring.
Qed.

(** C9, as the code has it.  On the empty corpus the transition model
    raises [KeyError] (the page is looked up in the empty dictionary), the
    sampling engine raises [IndexError] (the first page is drawn from the
    empty list of pages) and the iterative engine raises
    [ZeroDivisionError] (the constant term divides by the number of pages),
    whatever the other arguments. *)
Theorem empty_corpus_errors pg d (n : Z) (g : rng) fuel :
  transition_model (∅ : gmap page (gset page)) pg d = Raise KeyError
  ∧ sample_pagerank (∅ : gmap page (gset page)) d n g = Raise IndexError
  ∧ iterate_pagerank fuel (∅ : gmap page (gset page)) d
    = Some (Raise ZeroDivisionError).
Proof.
  split; [|split].
  - by apply transition_model_missing, lookup_empty.
  - apply sample_pagerank_empty.
  - apply iterate_pagerank_empty.
Qed.

End properties.

(** * The properties at concrete inputs *)

(** The functions at work. *)

Example transition_model_abc :
  transition_model corpus_abc "C" DAMPING
  = Return {[ "A" := Q2Qc (19 # 40) ; "B" := Q2Qc (19 # 40) ;
              "C" := Q2Qc (1 # 20) ]}.
Proof. by_evaluation. Qed.

Example transition_model_dangling_abc :
  transition_model corpus_abc "B" DAMPING
  = Return {[ "A" := third ; "B" := third ; "C" := third ]}.
Proof. by_evaluation. Qed.

Example transition_model_unknown_page :
  transition_model corpus_abc "D" DAMPING = Raise KeyError.
Proof. by_evaluation. Qed.

Example sample_pagerank_one :
  sample_pagerank corpus_one DAMPING 100 zeros = Return {[ "A" := 1 ]}.
Proof. by_evaluation. Qed.

Example sample_pagerank_negative :
  sample_pagerank corpus_abc DAMPING (-3) zeros = Raise ZeroDivisionError.
Proof. by_evaluation. Qed.

Example iterate_pagerank_abc :
  iterate_pagerank 4 corpus_abc DAMPING
  = Some (Return {[ "A" := Q2Qc (1140 # 4049) ; "B" := Q2Qc (2109 # 4049) ;
                    "C" := Q2Qc (800 # 4049) ]})
  ∧ iterate_pagerank 3 corpus_abc DAMPING = None.
Proof. split; by_evaluation. Qed.

(** The transition model on [corpus_abc] at the page C, which links to A and
    B. *)
Lemma transition_model_distribution_witness :
  corpus_wf corpus_abc ∧ corpus_abc !! "C" = Some {[ "A"; "B" ]}
  ∧ ∃ pd, transition_model corpus_abc "C" DAMPING = Return pd
      ∧ dom pd = dom corpus_abc
      ∧ ∀ q, q ∈ dom corpus_abc →
          pd !! q = Some
            (if decide (({[ "A"; "B" ]} : gset string) = ∅)
             then 1 / len_dict corpus_abc
             else transition_weight corpus_abc {[ "A"; "B" ]} DAMPING q
                  / sum_over
                      (λ q _, transition_weight corpus_abc {[ "A"; "B" ]}
                                DAMPING q) corpus_abc).
Proof.
  split; [by_evaluation|]. split; [by vm_compute|].
  apply transition_model_distribution; [by_evaluation|by vm_compute].
Defined.

(** The first pass of the iterative engine on [corpus_abc], whose page B
    has no outbound links. *)
Lemma pass_is_simultaneous_witness :
  dom (initial_ranks corpus_abc) = dom corpus_abc
  ∧ dom (initial_ranks corpus_abc) = dom corpus_abc
  ∧ ∃ new,
      update_pass corpus_abc DAMPING (first_term corpus_abc DAMPING)
        (initial_ranks corpus_abc) (initial_ranks corpus_abc) = Return new
      ∧ dom new = dom corpus_abc
      ∧ (∀ pg, pg ∈ dom corpus_abc →
           new !! pg = Some
             ((1 - DAMPING) / len_dict corpus_abc
              + DAMPING
                * sum_over (λ q links,
                      rank_of (initial_ranks corpus_abc) q / len_set links)
                    (linking_to corpus_abc pg)))
      ∧ (∀ q r, corpus_abc !! q = Some ∅ →
           update_pass corpus_abc DAMPING (first_term corpus_abc DAMPING)
             (<[q:=r]> (initial_ranks corpus_abc)) (initial_ranks corpus_abc)
           = Return new).
Proof.
  split; [by vm_compute|]. split; [by vm_compute|].
  apply pass_is_simultaneous; by vm_compute.
Defined.

(** The transition model on [corpus_abc] at the page A, with the damping
    factor of the source. *)
Lemma transition_model_sums_to_one_witness :
  0 < DAMPING ∧ DAMPING < 1 ∧ "A" ∈ dom corpus_abc
  ∧ ∃ pd, transition_model corpus_abc "A" DAMPING = Return pd
      ∧ Qcabs (sum_values pd - 1) ≤ tolerance.
Proof.
  split; [by vm_compute|]. split; [by vm_compute|]. split; [by_evaluation|].
  apply transition_model_sums_to_one;
    [by vm_compute|by vm_compute|by_evaluation].
Defined.


(** The iterative engine on [corpus_two]. *)
Lemma two_page_cycle_ranks_witness :
  "A" ≠ "B"
  ∧ ∃ r, iterate_pagerank 1 corpus_two DAMPING = Some (Return r)
      ∧ r !! "A" = Some (1 / 2) ∧ r !! "B" = Some (1 / 2)
      ∧ dom r = {[ "A"; "B" ]}
      ∧ ∀ pg v, r !! pg = Some v → Qcabs (v - 1 / 2) ≤ threshold.
Proof.
  split; [done|]. by apply (two_page_cycle_ranks "A" "B" DAMPING 0).
Defined.

(** The normalisation of a table whose total is 1. *)
Lemma normalization_exact_witness :
  0 < sum_values cycle_odd
  ∧ (∃ ranks', normalize cycle_odd = Return ranks'
       ∧ sum_values ranks' = 1
       ∧ ∀ q, ranks' !! q = (λ v, v / sum_values cycle_odd) <$> cycle_odd !! q)
  ∧ (∀ (corpus : gmap string (gset string)) pg d,
       transition_model corpus pg d ≠ Raise Exception)
  ∧ (∀ (corpus : gmap string (gset string)) d n g,
       sample_pagerank corpus d n g ≠ Raise Exception)
  ∧ (∀ fuel (corpus : gmap string (gset string)) d,
       iterate_pagerank fuel corpus d ≠ Some (Raise Exception)).
Proof.
  split; [by vm_compute|]. apply normalization_exact. by vm_compute.
Defined.

(** The sample count 0 under exact arithmetic (for the claim C4 see
    [sample_pagerank_binary64_zero_samples]): the sampling engine then
    raises [ZeroDivisionError] and returns no rank table.  It returns none
    for the empty corpus either. *)
Lemma sample_pagerank_zero_samples :
  (¬ ∃ r, sample_pagerank corpus_abc DAMPING 0 zeros = Return r
        ∧ Qcabs (sum_values r - 1) ≤ tolerance)
  ∧ (¬ ∃ r, sample_pagerank (∅ : gmap string (gset string)) DAMPING SAMPLES
              zeros = Return r
          ∧ Qcabs (sum_values r - 1) ≤ tolerance).
Proof.
  split.
  - intros (r & Hr & _).
    assert (sample_pagerank corpus_abc DAMPING 0 zeros
            = Raise ZeroDivisionError) as Hraise by by vm_compute.
    congruence.
  - intros (r & Hr & _). by rewrite sample_pagerank_empty in Hr.
Qed.

(** Five samples on [corpus_abc]. *)
Lemma sample_pagerank_sums_to_one_witness :
  corpus_wf corpus_abc ∧ corpus_abc ≠ ∅ ∧ (0 < 5)%Z ∧ rng_valid zeros
  ∧ ∃ r, sample_pagerank corpus_abc DAMPING 5 zeros = Return r
      ∧ dom r = dom corpus_abc
      ∧ Qcabs (sum_values r - 1) ≤ tolerance.
Proof.
  split; [by_evaluation|]. split; [by_evaluation|]. split; [lia|].
  split; [intros i; split; by vm_compute|].
  apply sample_pagerank_sums_to_one;
    [by_evaluation|by_evaluation|lia|intros i; split; by vm_compute].
Defined.

(** The boundary arguments under exact arithmetic (for the claim C5 see
    [boundary_arguments_binary64_accepted]): the sample count 0 ends in
    [ZeroDivisionError], which is no invalid-argument condition, and the
    damping factors 0 and 1 are accepted by the transition model and by
    the sampling engine. *)
Lemma boundary_arguments_accepted :
  ¬ fails_with InvalidArgument (sample_pagerank corpus_abc DAMPING 0 zeros)
  ∧ ¬ fails_with InvalidArgument (transition_model corpus_abc "A" 0)
  ∧ ¬ fails_with InvalidArgument (transition_model corpus_abc "A" 1)
  ∧ ¬ fails_with InvalidArgument (sample_pagerank corpus_abc 0 5 zeros)
  ∧ ¬ fails_with InvalidArgument (sample_pagerank corpus_abc 1 5 zeros).
Proof.
  assert (sample_pagerank corpus_abc DAMPING 0 zeros
          = Raise ZeroDivisionError) as -> by by vm_compute.
  split; [by apply not_fails_with_of_raise|].
  repeat split; intros (e & He & _); vm_compute in He; discriminate.
Qed.

(** The boundary arguments on [corpus_abc]. *)
Lemma boundary_arguments_not_rejected_witness :
  corpus_wf corpus_abc ∧ corpus_abc ≠ ∅ ∧ rng_valid zeros
  ∧ (∀ d n, (n ≤ 0)%Z →
       sample_pagerank corpus_abc d n zeros = Raise ZeroDivisionError
       ∧ ¬ fails_with InvalidArgument (sample_pagerank corpus_abc d n zeros))
  ∧ (∀ d, d = 0 ∨ d = 1 →
       (∀ pg, pg ∈ dom corpus_abc →
          ∃ pd, transition_model corpus_abc pg d = Return pd)
       ∧ (∀ n, (0 < n)%Z →
            ∃ r, sample_pagerank corpus_abc d n zeros = Return r))
  ∧ (∀ fuel,
       iterate_pagerank (S fuel) corpus_abc 0
       = Some (Return (initial_ranks corpus_abc))).
Proof.
  split; [by_evaluation|]. split; [by_evaluation|].
  split; [intros i; split; by vm_compute|].
  apply boundary_arguments_not_rejected;
    [by_evaluation|by_evaluation|intros i; split; by vm_compute].
Defined.

(** With the damping factor 1 the loop alternates between [cycle_odd] and
    [cycle_even]. *)
Lemma cycle_loop_runs_on fuel :
  iterate_loop fuel corpus_cycle 1 (first_term corpus_cycle 1) cycle_odd = None
  ∧ iterate_loop fuel corpus_cycle 1 (first_term corpus_cycle 1) cycle_even
    = None.
Proof.
  induction fuel as [|fuel [IHodd IHeven]]; [done|].
  assert (pass corpus_cycle 1 (first_term corpus_cycle 1) cycle_odd
          = cycle_even) as Hodd by by_evaluation.
  assert (pass corpus_cycle 1 (first_term corpus_cycle 1) cycle_even
          = cycle_odd) as Heven by by_evaluation.
  split; rewrite iterate_loop_step by by vm_compute.
  - rewrite Hodd, decide_False by by_evaluation. done.
  - rewrite Heven, decide_False by by_evaluation. done.
Qed.

(** On [corpus_cycle] the difference between two passes shrinks by the
    factor [d] at every pass and no faster. *)

Lemma remap_singleton {A B} (g : string → A → B) i x :
  remap g ({[ i := x ]} : gmap string A) = {[ i := g i x ]}.
Proof. by rewrite <- !insert_empty, remap_insert, remap_empty. Qed.

Lemma rank_of_cycle a b c :
  rank_of (cycle_ranks a b c) "A" = a
  ∧ rank_of (cycle_ranks a b c) "B" = b
  ∧ rank_of (cycle_ranks a b c) "C" = c.
Proof. done. Qed.

Lemma incoming_rank_cycle (previous : gmap string Qc) pg :
  incoming_rank corpus_cycle previous pg
  = (if decide (pg ∈@{gset string} {[ "A" ]}) then rank_of previous "C" else 0)
    + (if decide (pg ∈@{gset string} {[ "A" ]}) then rank_of previous "B" else 0)
    + (if decide (pg ∈@{gset string} {[ "B" ]}) then rank_of previous "A" else 0).
Proof.
  unfold incoming_rank, linking_to, corpus_cycle.
  rewrite (sum_over_filter (λ e, pg ∈ e.2)).
  rewrite !sum_over_insert by done. rewrite sum_over_singleton. cbn [snd].
  unfold len_set. rewrite !size_singleton, Qc_of_nat_1.
  repeat case_decide; by field.
Qed.

Lemma pass_cycle d f a b c :
  pass corpus_cycle d f (cycle_ranks a b c)
  = cycle_ranks (f + d * (b + c)) (f + d * a) f.
Proof.
  unfold pass, cycle_ranks.
  rewrite !remap_insert, remap_singleton, !incoming_rank_cycle.
  fold (cycle_ranks a b c).
  destruct (rank_of_cycle a b c) as (-> & -> & ->).
  rewrite !(decide_True (P := "A" ∈@{gset string} {[ "A" ]})) by set_solver.
  rewrite !(decide_True (P := "B" ∈@{gset string} {[ "B" ]})) by set_solver.
  rewrite !(decide_False (P := "B" ∈@{gset string} {[ "A" ]})) by set_solver.
  rewrite !(decide_False (P := "A" ∈@{gset string} {[ "B" ]})) by set_solver.
  rewrite !(decide_False (P := "C" ∈@{gset string} {[ "A" ]})) by set_solver.
  rewrite !(decide_False (P := "C" ∈@{gset string} {[ "B" ]})) by set_solver.
  replace (f + d * (c + b + 0)) with (f + d * (b + c)) by ring.
  replace (f + d * (0 + 0 + a)) with (f + d * a) by ring.
  by replace (f + d * (0 + 0 + 0)) with f by ring.
Qed.


Lemma dom_cycle_ranks a b c : dom (cycle_ranks a b c) = dom corpus_cycle.
Proof. by vm_compute. Qed.

Lemma not_converged_cycle a b c a' b' c' :
  threshold < Qcabs (a - a') →
  ¬ converged (cycle_ranks a b c) (cycle_ranks a' b' c').
Proof. intros Ht Hc. by apply (Hc "A" a'). Qed.

Lemma Qcabs_mult_pos d t : 0 < d → Qcabs (- (d * t)) = Qcabs t * d.
Proof.
  intros Hd. rewrite Qcabs_opp, Qcabs_Qcmult, (Qcabs_pos d).
  - ring.
  - by apply Qclt_le_weak.
Qed.

Lemma cycle_loop_fuel d f fuel :
  0 < d → ∀ a b t,
  f + d * (b + f) = a - t → f + d * a = b + t →
  (∀ j, (j < fuel)%nat → threshold < Qcabs t * d ^ j) →
  iterate_loop fuel corpus_cycle d f (cycle_ranks a b f) = None.
Proof.
  intros Hd. induction fuel as [|fuel IH]; intros a b t HA HB Hbig; [done|].
  rewrite iterate_loop_step by apply dom_cycle_ranks.
  rewrite pass_cycle, HA, HB.
  rewrite decide_False.
  - apply (IH _ _ (- (d * t))).
    + replace (f + d * (b + t + f)) with (f + d * (b + f) + d * t) by ring.
      rewrite HA. ring.
    + replace (f + d * (a - t)) with (f + d * a - d * t) by ring.
      rewrite HB. ring.
    + intros j Hj. rewrite Qcabs_mult_pos by done.
      rewrite <- Qcmult_assoc. apply (Hbig (S j)). lia.
  - apply not_converged_cycle.
    replace (a - (a - t)) with t by ring.
    specialize (Hbig 0%nat). simpl in Hbig. rewrite Qcmult_1_r in Hbig.
    apply Hbig. lia.
Qed.

Lemma Qc_of_nat_le (k n : nat) : (k ≤ n)%nat → Qc_of_nat k ≤ Qc_of_nat n.
Proof.
  intros Hk. unfold Qc_of_nat.
  apply (proj1 (Z2Qc_inj_le (Z.of_nat k) (Z.of_nat n))). lia.
Qed.

Lemma Qc_of_nat_double (n : nat) : Qc_of_nat (2 * n) = 2 * Qc_of_nat n.
Proof.
  unfold Qc_of_nat. rewrite Nat2Z.inj_mul, Z2Qc_inj_mul.
  change (Z.of_nat 2) with 2%Z. by rewrite Z2Qc_inj_2.
Qed.

Lemma Qc_one_minus_nonneg (x : Qc) : x ≤ 1 → 0 ≤ 1 - x.
Proof.
  intros Hx. apply (Qcplus_le_mono_r _ _ x).
  by replace (1 - x + x) with 1 by ring; rewrite Qcplus_0_l.
Qed.

Lemma bernoulli (x : Qc) (k : nat) :
  0 ≤ x → x ≤ 1 → 1 - Qc_of_nat k * x ≤ (1 - x) ^ k.
Proof.
  intros Hx0 Hx1. induction k as [|k IH].
  { rewrite Qc_of_nat_0. simpl. replace (1 - 0 * x) with 1 by ring.
    apply Qcle_refl. }
  simpl. trans ((1 - x) * (1 - Qc_of_nat k * x)).
  - replace ((1 - x) * (1 - Qc_of_nat k * x))
      with (1 - Qc_of_nat (S k) * x + Qc_of_nat k * (x * x))
      by (rewrite Qc_of_nat_S; ring).
    rewrite <- (Qcplus_0_r (1 - Qc_of_nat (S k) * x)) at 1.
    apply Qcplus_le_mono_l. apply Qcmult_nonneg_nonneg.
    + rewrite <- Qc_of_nat_0. apply Qc_of_nat_le. lia.
    + by apply Qcmult_nonneg_nonneg.
  - apply Qcmult_le_mono_nonneg_l; [by apply Qc_one_minus_nonneg|done].
Qed.

Lemma Qc_pos_ne_0 (m : Qc) : 0 < m → m ≠ 0.
Proof. intros Hm ->. by apply Qclt_not_eq in Hm. Qed.

Lemma Qcinv_le_1 (m : Qc) : 1 ≤ m → / m ≤ 1.
Proof.
  intros Hm.
  assert (0 < m) as Hpos by (eapply Qclt_le_trans; [|done]; by vm_compute).
  apply (Qcmult_le_mono_pos_r _ _ m Hpos).
  by rewrite Qcmult_inv_l, Qcmult_1_l by by apply Qc_pos_ne_0.
Qed.

Lemma slow_damping_power (N k : nat) :
  (k ≤ N + 2)%nat → / 2 ≤ slow_damping N ^ k.
Proof.
  intros Hk. unfold slow_damping.
  assert (Qc_of_nat (N + 2) ≠ 0) as Hne by (apply Qc_of_nat_ne_0; lia).
  assert (0 < Qc_of_nat (2 * (N + 2))) as Hpos2 by (apply Qc_of_nat_pos; lia).
  assert (0 < / Qc_of_nat (2 * (N + 2))) as Hinv by by apply Qcinv_pos.
  etrans; [|apply bernoulli].
  - trans (1 - Qc_of_nat (N + 2) * / Qc_of_nat (2 * (N + 2))).
    + rewrite Qc_of_nat_double.
      replace (1 - Qc_of_nat (N + 2) * / (2 * Qc_of_nat (N + 2))) with (/ 2).
      * apply Qcle_refl.
      * field. split; [done|by vm_compute].
    + unfold Qcminus. apply Qcplus_le_mono_l, Qcopp_le_compat.
      apply Qcmult_le_mono_nonneg_r; [by apply Qclt_le_weak|].
      by apply Qc_of_nat_le.
  - by apply Qclt_le_weak.
  - apply Qcinv_le_1. rewrite <- Qc_of_nat_1. apply Qc_of_nat_le. lia.
Qed.

Lemma slow_damping_half (N : nat) : / 2 ≤ slow_damping N.
Proof.
  pose proof (slow_damping_power N 1) as Hp. simpl in Hp.
  rewrite Qcmult_1_r in Hp. apply Hp. lia.
Qed.

Lemma slow_damping_valid (N : nat) : 0 < slow_damping N ∧ slow_damping N < 1.
Proof.
  split.
  - eapply Qclt_le_trans; [|apply slow_damping_half]. by vm_compute.
  - unfold slow_damping.
    assert (0 < / Qc_of_nat (2 * (N + 2))) as Hinv.
    { apply Qcinv_pos, Qc_of_nat_pos. lia. }
    apply (Qcplus_lt_mono_r _ _ (/ Qc_of_nat (2 * (N + 2)))).
    replace (1 - / Qc_of_nat (2 * (N + 2)) + / Qc_of_nat (2 * (N + 2)))
      with (1 + 0) by ring.
    by apply Qcplus_lt_mono_l.
Qed.

Lemma initial_ranks_cycle :
  initial_ranks corpus_cycle = cycle_ranks third third third.
Proof. apply (bool_decide_unpack _). by vm_compute. Qed.

Lemma first_term_cycle d : first_term corpus_cycle d = (1 - d) * third.
Proof.
  unfold first_term, third.
  replace (len_dict corpus_cycle) with (Qc_of_nat 3)
    by (by_evaluation).
  unfold Qcdiv. ring.
Qed.

Lemma sixth_above_threshold (x : Qc) : / 2 ≤ x → threshold < third * x.
Proof.
  intros Hx. eapply Qclt_le_trans; [|apply Qcmult_le_mono_nonneg_l, Hx].
  - by vm_compute.
  - by vm_compute.
Qed.

Lemma iterate_pagerank_slow (N fuel : nat) :
  (fuel ≤ N)%nat → iterate_pagerank fuel corpus_cycle (slow_damping N) = None.
Proof.
  intros Hfuel. set (d := slow_damping N).
  destruct (slow_damping_valid N) as [Hd0 Hd1]. fold d in Hd0, Hd1.
  rewrite iterate_pagerank_nonempty by (by_evaluation).
  destruct fuel as [|fuel]; [done|].
  rewrite iterate_loop_step by apply initial_ranks_dom.
  rewrite initial_ranks_cycle, first_term_cycle, pass_cycle.
  rewrite decide_False.
  - rewrite (cycle_loop_fuel _ _ _ Hd0 _ _ (d * d * third)); [done|ring|ring|].
    intros j Hj. rewrite Qcabs_pos.
    + replace (d * d * third * d ^ j) with (third * d ^ (S (S j)))
        by (simpl; ring).
      apply sixth_above_threshold, slow_damping_power. lia.
    + apply Qclt_le_weak. by repeat apply Qcmult_pos_pos.
  - apply not_converged_cycle.
    replace (third - ((1 - d) * third + d * (third + third)))
      with (- (d * third)) by ring.
    rewrite Qcabs_mult_pos by done. rewrite Qcabs_pos by by vm_compute.
    apply sixth_above_threshold, slow_damping_half.
Qed.

(** The loop without a cap under exact arithmetic (for the claim C6 see
    [iterate_pagerank_binary64_runs_forever]): with the damping factor 1 on
    [corpus_cycle] the loop of the iterative engine never ends; no number
    of passes yields an outcome, be it a rank table or an error.  And
    whatever cap one names, there is a damping factor strictly between 0
    and 1 for which the loop is still running after that many passes. *)
Lemma iterate_pagerank_runs_forever :
  (¬ ∃ fuel, iterate_pagerank fuel corpus_cycle 1 ≠ None)
  ∧ (∀ cap : nat, ∃ d, 0 < d ∧ d < 1
       ∧ ∀ fuel, (fuel ≤ cap)%nat → iterate_pagerank fuel corpus_cycle d = None).
Proof.
  split.
  - intros [fuel Hfuel]. apply Hfuel.
    rewrite iterate_pagerank_nonempty by by_evaluation.
    destruct fuel as [|fuel]; [done|].
    rewrite iterate_loop_step by by vm_compute.
    assert (pass corpus_cycle 1 (first_term corpus_cycle 1)
              (initial_ranks corpus_cycle) = cycle_odd) as -> by by_evaluation.
    rewrite decide_False by by_evaluation.
    by rewrite (proj1 (cycle_loop_runs_on fuel)).
  - intros cap. exists (slow_damping cap).
    destruct (slow_damping_valid cap) as [Hd0 Hd1].
    split; [done|]. split; [done|].
    intros fuel Hfuel. by apply iterate_pagerank_slow.
Qed.

(** The iterative engine on [corpus_two], where the first pass converges. *)
Lemma iterate_pagerank_stops_at_first_convergence_witness :
  corpus_two ≠ ∅
  ∧ (iterate_pagerank 3 corpus_two DAMPING
       = Some (Return (initial_ranks corpus_two))
     ↔ ∃ k, (k < 3)%nat ∧ first_converged_at corpus_two DAMPING k
         ∧ Return (initial_ranks corpus_two)
           = normalize (passes corpus_two DAMPING (S k))).
Proof.
  split; [by_evaluation|].
  apply iterate_pagerank_stops_at_first_convergence. by_evaluation.
Defined.

(** C9 fails: on the empty corpus none of the three functions fails with
    an invalid-argument condition. *)
Lemma empty_corpus_no_InvalidArgument :
  ¬ fails_with InvalidArgument
      (transition_model (∅ : gmap string (gset string)) "A" DAMPING)
  ∧ ¬ fails_with InvalidArgument
        (sample_pagerank (∅ : gmap string (gset string)) DAMPING SAMPLES zeros)
  ∧ ¬ ∃ r, iterate_pagerank 1 (∅ : gmap string (gset string)) DAMPING = Some r
         ∧ fails_with InvalidArgument r.
Proof.
  split; [|split].
  - rewrite transition_model_missing by done.
    by apply not_fails_with_of_raise.
  - rewrite sample_pagerank_empty. by apply not_fails_with_of_raise.
  - rewrite iterate_pagerank_empty. intros (r & [= <-] & Hr).
    by apply not_fails_with_of_raise in Hr.
Qed.

(** * The rest of the program

    The crawler, the flow of the rank through a pass of the iterative
    engine, the termination of that engine, and the program as a whole. *)

Section reach.
Context {page : Type} {page_eq_dec : EqDecision page}
  {page_countable : Countable page}.
Implicit Types (corpus : gmap page (gset page)) (links : gset page).
Implicit Types (pg q : page) (d : Qc).

(** ** Loops and sums *)

(** A loop over a dictionary that assigns every one of its keys; the body
    may read the keys of the dictionary, which the loop does not change. *)
Lemma for_each_update_keys {A} (m : gmap page A)
    (body : page → A → gmap page A → result (gmap page A))
    (g : page → A → A) :
  (∀ k v s, m !! k = Some v → s !! k = Some v → dom s = dom m →
     body k v s = Return (<[k:=g k v]> s)) →
  for_each m body m = Return (remap g m).
Proof.
  intros Hb. unfold for_each.
  cut (m ⊆ m → map_fold (λ k v acc, s ← acc; body k v s) (Return m) m
               = Return (remap g m ∪ m)).
  { intros Hcut. rewrite Hcut by done. by rewrite remap_union_self. }
  generalize m at 1 4 5.
  apply (map_fold_weak_ind (λ r m', m' ⊆ m → r = Return (remap g m' ∪ m))).
  - intros _. by rewrite remap_empty, (left_id_L ∅ (∪)).
  - intros i x m' r Hi IH Hsub.
    assert (m !! i = Some x) as Hmi.
    { eapply lookup_weaken; [|done]. by rewrite lookup_insert_eq. }
    assert (m' ⊆ m) as Hsub'.
    { etrans; [|done]. by apply insert_subseteq. }
    rewrite IH by done. simpl. rewrite Hb; [|done| |].
    + by rewrite remap_insert, insert_union_l.
    + rewrite lookup_union_r; [done|]. by rewrite lookup_remap, Hi.
    + rewrite dom_union_L, dom_remap.
      apply subseteq_dom in Hsub'. set_solver.
Qed.
Lemma sum_over_le {A} (g1 g2 : page → A → Qc) (m : gmap page A) :
  (∀ k v, m !! k = Some v → g1 k v ≤ g2 k v) → sum_over g1 m ≤ sum_over g2 m.
Proof.
  induction m as [|i x m Hi IH] using map_ind; intros Hg.
  - rewrite !sum_over_empty. apply Qcle_refl.
  - rewrite !sum_over_insert by done. apply Qcplus_le_compat.
    + apply IH. intros k v Hk. apply Hg.
      rewrite lookup_insert_ne; [done|]. intros ->. congruence.
    + apply Hg. by rewrite lookup_insert_eq.
Qed.

Lemma sum_over_abs {A} (g : page → A → Qc) (m : gmap page A) :
  Qcabs (sum_over g m) ≤ sum_over (λ k v, Qcabs (g k v)) m.
Proof.
  induction m as [|i x m Hi IH] using map_ind.
  - rewrite !sum_over_empty. by vm_compute.
  - rewrite !sum_over_insert by done.
    etrans; [apply Qcabs_triangle|]. apply Qcplus_le_compat; [done|].
    apply Qcle_refl.
Qed.

Lemma sum_over_zero {A} (m : gmap page A) : sum_over (λ _ _, 0) m = 0.
Proof. rewrite sum_over_const. ring. Qed.

Lemma sum_over_swap {A B} (g : page → A → page → B → Qc)
    (m1 : gmap page A) (m2 : gmap page B) :
  sum_over (λ k v, sum_over (λ k' v', g k v k' v') m2) m1
  = sum_over (λ k' v', sum_over (λ k v, g k v k' v') m1) m2.
Proof.
  induction m1 as [|i x m1 Hi IH] using map_ind.
  - rewrite sum_over_empty. symmetry.
    rewrite (sum_over_ext _ (λ _ _, 0)); [apply sum_over_zero|].
    intros. apply sum_over_empty.
  - rewrite sum_over_insert, IH by done.
    rewrite <- sum_over_plus. apply sum_over_ext.
    intros k' v' _. by rewrite sum_over_insert.
Qed.

Lemma sum_over_scale_l {A} (c : Qc) (g : page → A → Qc) (m : gmap page A) :
  sum_over (λ k v, c * g k v) m = c * sum_over g m.
Proof.
  rewrite (sum_over_ext _ (λ k v, g k v * c)) by (intros; ring).
  rewrite sum_over_scale. ring.
Qed.

Lemma sum_over_term_le {A} (g : page → A → Qc) (m : gmap page A) k v :
  (∀ k v, m !! k = Some v → 0 ≤ g k v) →
  m !! k = Some v → g k v ≤ sum_over g m.
Proof.
  intros Hg Hk. rewrite <- (insert_delete_id m k v) by done.
  rewrite sum_over_insert by apply lookup_delete_eq.
  rewrite <- (Qcplus_0_l (g k v)) at 1. apply Qcplus_le_mono_r.
  apply sum_over_nonneg. intros k' v' Hk'. apply (Hg k' v').
  apply lookup_delete_Some in Hk'. tauto.
Qed.

(** A sum over the keys does not depend on the values the keys hold. *)
Lemma sum_over_keys {A B} (h : page → Qc) (m1 : gmap page A)
    (m2 : gmap page B) :
  dom m1 = dom m2 → sum_over (λ k _, h k) m1 = sum_over (λ k _, h k) m2.
Proof.
  revert m2. induction m1 as [|i x m1 Hi IH] using map_ind; intros m2 Hdom.
  - rewrite dom_empty_L in Hdom. symmetry in Hdom.
    apply dom_empty_inv_L in Hdom. by subst m2.
  - assert (i ∈ dom m2) as [y Hy]%elem_of_dom.
    { rewrite <- Hdom, dom_insert_L. set_solver. }
    rewrite <- (insert_delete_id m2 i y) by done.
    rewrite !sum_over_insert by (done || apply lookup_delete_eq).
    f_equal. apply IH. rewrite dom_delete_L, <- Hdom, dom_insert_L.
    apply not_elem_of_dom in Hi. set_solver.
Qed.

Lemma incoming_rank_eq corpus (x : gmap page Qc) pg :
  incoming_rank corpus x pg
  = sum_over (λ q links, if decide (pg ∈ links)
                         then rank_of x q / len_set links else 0) corpus.
Proof.
  unfold incoming_rank, linking_to.
  by rewrite (sum_over_filter (λ e, pg ∈ e.2)).
Qed.

Lemma rank_of_pass corpus d f (x : gmap page Qc) pg :
  pg ∈ dom x →
  rank_of (pass corpus d f x) pg = f + d * incoming_rank corpus x pg.
Proof.
  intros [v Hv]%elem_of_dom. unfold rank_of, pass.
  by rewrite lookup_remap, Hv.
Qed.

Lemma Qcinv_0 : / 0 = 0.
Proof. by apply Qc_is_canon. Qed.

Lemma kept_share_nonneg corpus links : 0 ≤ kept_share corpus links.
Proof.
  unfold kept_share, len_set. destruct (decide (size links = 0%nat)) as [->|Hs].
  - rewrite Qc_of_nat_0. unfold Qcdiv. rewrite Qcinv_0, Qcmult_0_r.
    apply Qcle_refl.
  - apply Qcmult_nonneg_nonneg.
    + rewrite <- Qc_of_nat_0. apply Qc_of_nat_le. lia.
    + apply Qclt_le_weak, Qcinv_pos. by apply Qc_of_nat_pos.
Qed.

Lemma kept_share_le_1 corpus links : kept_share corpus links ≤ 1.
Proof.
  unfold kept_share, len_set. destruct (decide (size links = 0%nat)) as [->|Hs].
  - rewrite Qc_of_nat_0. unfold Qcdiv. rewrite Qcinv_0, Qcmult_0_r.
    by vm_compute.
  - assert (0 < Qc_of_nat (size links)) as Hpos by by apply Qc_of_nat_pos.
    apply (Qcmult_le_mono_pos_r _ _ (Qc_of_nat (size links)) Hpos).
    replace (Qc_of_nat (size (links ∩ dom corpus)) / Qc_of_nat (size links)
             * Qc_of_nat (size links))
      with (Qc_of_nat (size (links ∩ dom corpus))).
    + rewrite Qcmult_1_l. apply Qc_of_nat_le, subseteq_size. set_solver.
    + field. intros E. rewrite E in Hpos. by apply Qclt_not_eq in Hpos.
Qed.

Lemma kept_share_wf corpus links :
  links ⊆ dom corpus → links ≠ ∅ → kept_share corpus links = 1.
Proof.
  intros Hsub Hne. unfold kept_share, len_set.
  replace (links ∩ dom corpus) with links by set_solver.
  field. by apply Qc_of_nat_ne_0, size_links_ne_0.
Qed.

Lemma kept_share_empty corpus : kept_share corpus ∅ = 0.
Proof.
  unfold kept_share, len_set. rewrite size_empty, Qc_of_nat_0.
  unfold Qcdiv. by rewrite Qcinv_0, Qcmult_0_r.
Qed.

(** The sum, over the pages, of what each receives from the pages that link
    to it: every page [q] hands out [w q], less what goes to links outside
    the corpus. *)
Lemma sum_received {A} corpus (w : page → Qc) (m : gmap page A) :
  dom m = dom corpus →
  sum_over (λ pg _, sum_over (λ q links, if decide (pg ∈ links)
                                         then w q / len_set links else 0)
                      corpus) m
  = sum_over (λ q links, w q * kept_share corpus links) corpus.
Proof.
  intros Hdom.
  rewrite (sum_over_swap (λ pg _ q links, if decide (pg ∈ links)
                                          then w q / len_set links else 0)).
  apply sum_over_ext. intros q links _.
  rewrite (sum_over_ext _ (λ pg _, (if decide (pg ∈ links) then 1 else 0)
                                   * (w q / len_set links))).
  - rewrite (sum_over_scale _ (λ pg _, if decide (pg ∈ links) then 1 else 0)).
    rewrite sum_over_indicator, Hdom. unfold kept_share, Qcdiv. ring.
  - intros pg _ _. destruct (decide (pg ∈ links)); ring.
Qed.

Lemma len_dict_dom {A B} (m1 : gmap page A) (m2 : gmap page B) :
  dom m1 = dom m2 → len_dict m1 = len_dict m2.
Proof. intros Hdom. unfold len_dict. by rewrite <- !size_dom, Hdom. Qed.

(** The total of the ranks a pass assigns. *)
Lemma sum_assigned corpus d (previous page_rank : gmap page Qc) :
  corpus ≠ ∅ → dom page_rank = dom corpus →
  sum_values (remap (λ pg _, first_term corpus d
                             + d * incoming_rank corpus previous pg)
                page_rank)
  = (1 - d)
    + d * sum_over (λ q links, rank_of previous q * kept_share corpus links)
            corpus.
Proof.
  intros Hne Hdom. rewrite sum_values_remap.
  rewrite (sum_over_plus (λ _ _, first_term corpus d)
             (λ pg _, d * incoming_rank corpus previous pg)).
  rewrite sum_over_const, sum_over_scale_l.
  rewrite (sum_over_ext (λ pg _, incoming_rank corpus previous pg)
             (λ pg _, sum_over (λ q links, if decide (pg ∈ links)
                                 then rank_of previous q / len_set links
                                 else 0) corpus))
    by (intros; apply incoming_rank_eq).
  rewrite sum_received by done.
  fold (len_dict page_rank). rewrite (len_dict_dom page_rank corpus) by done.
  unfold first_term. f_equal. field.
  apply Qc_of_nat_ne_0. by intros ?%map_size_empty_iff.
Qed.

Lemma sum_over_rank_of {A} (x : gmap page Qc) (m : gmap page A) :
  dom x = dom m → sum_over (λ q _, rank_of x q) m = sum_values x.
Proof.
  intros Hdom. rewrite (sum_over_keys (rank_of x) m x) by done.
  apply sum_over_ext. intros k v Hk. unfold rank_of. by rewrite Hk.
Qed.

Lemma sum_over_minus {A} (g1 g2 : page → A → Qc) (m : gmap page A) :
  sum_over (λ k v, g1 k v - g2 k v) m = sum_over g1 m - sum_over g2 m.
Proof.
  induction m as [|i x m Hi IH] using map_ind.
  - rewrite !sum_over_empty. ring.
  - rewrite !sum_over_insert, IH by done. ring.
Qed.

Lemma Qcabs_scale (c x : Qc) : 0 ≤ c → Qcabs (c * x) = c * Qcabs x.
Proof. intros Hc. by rewrite Qcabs_Qcmult, (Qcabs_pos c). Qed.

Lemma Qcabs_div_len (x : Qc) links :
  Qcabs (x / len_set links) = Qcabs x / len_set links.
Proof.
  unfold Qcdiv. rewrite Qcabs_Qcmult. f_equal. apply Qcabs_pos.
  unfold len_set. destruct (decide (size links = 0%nat)) as [->|Hs].
  - rewrite Qc_of_nat_0, Qcinv_0. apply Qcle_refl.
  - apply Qclt_le_weak, Qcinv_pos. by apply Qc_of_nat_pos.
Qed.

(** A pass shrinks the distance between two rank tables by the damping
    factor. *)
Lemma pass_contracts corpus d f (x y : gmap page Qc) :
  0 ≤ d → dom x = dom corpus → dom y = dom corpus →
  total_move (pass corpus d f x) (pass corpus d f y) ≤ d * total_move x y.
Proof.
  intros Hd Hx Hy. unfold total_move at 1. unfold pass at 2.
  rewrite sum_over_remap.
  set (W := λ q, Qcabs (rank_of y q - rank_of x q)).
  trans (sum_over (λ pg (_ : Qc), d * sum_over (λ q links,
           if decide (pg ∈ links) then W q / len_set links else 0) corpus) x).
  { apply sum_over_le. intros pg v Hpg.
    rewrite rank_of_pass by (rewrite Hy, <- Hx; apply elem_of_dom; by eexists).
    replace (f + d * incoming_rank corpus y pg
             - (f + d * incoming_rank corpus x pg))
      with (d * (incoming_rank corpus y pg - incoming_rank corpus x pg))
      by ring.
    rewrite Qcabs_scale by done. apply Qcmult_le_mono_nonneg_l; [done|].
    rewrite !incoming_rank_eq, <- sum_over_minus.
    etrans; [apply sum_over_abs|]. apply sum_over_le. intros q links _.
    destruct (decide (pg ∈ links)).
    - unfold W. rewrite <- Qcabs_div_len. unfold Qcdiv.
      replace (rank_of y q * / len_set links - rank_of x q * / len_set links)
        with ((rank_of y q - rank_of x q) * / len_set links) by ring.
      apply Qcle_refl.
    - replace (0 - 0) with 0 by ring. by vm_compute. }
  rewrite sum_over_scale_l. apply Qcmult_le_mono_nonneg_l; [done|].
  rewrite sum_received by done.
  trans (sum_over (λ q (_ : gset page), W q) corpus).
  { apply sum_over_le. intros q links _.
    rewrite <- (Qcmult_1_r (W q)) at 2.
    apply Qcmult_le_mono_nonneg_l; [apply Qcabs_nonneg|].
    apply kept_share_le_1. }
  rewrite (sum_over_keys W corpus x) by done.
  unfold total_move. apply sum_over_le. intros q v Hq.
  unfold W, rank_of at 2. rewrite Hq. apply Qcle_refl.
Qed.

Lemma dom_after_passes corpus d f k (x : gmap page Qc) :
  dom (after_passes corpus d f k x) = dom x.
Proof.
  revert x. induction k as [|k IH]; intros x; [done|].
  simpl. by rewrite IH, dom_pass.
Qed.

Lemma total_move_after_passes corpus d f k (x : gmap page Qc) :
  0 ≤ d → dom x = dom corpus →
  total_move (after_passes corpus d f k x) (after_passes corpus d f (S k) x)
  ≤ d ^ k * total_move x (pass corpus d f x).
Proof.
  intros Hd. revert x. induction k as [|k IH]; intros x Hx.
  { simpl. rewrite Qcmult_1_l. apply Qcle_refl. }
  change (total_move (after_passes corpus d f k (pass corpus d f x))
            (after_passes corpus d f (S k) (pass corpus d f x))
          ≤ d ^ S k * total_move x (pass corpus d f x)).
  etrans; [apply IH; by rewrite dom_pass|].
  simpl. rewrite (Qcmult_comm d), <- Qcmult_assoc.
  apply Qcmult_le_mono_nonneg_l; [by apply Qcpower_pos|].
  apply pass_contracts; [done|done|by rewrite dom_pass].
Qed.

Lemma converged_of_total_move (x y : gmap page Qc) :
  dom x = dom y → total_move x y ≤ threshold → converged x y.
Proof.
  intros Hdom Hmove pg v Hpg.
  assert (pg ∈ dom x) as [vx Hvx]%elem_of_dom.
  { rewrite Hdom. apply elem_of_dom. by eexists. }
  apply Qcle_not_lt. etrans; [|exact Hmove].
  unfold rank_of at 1. rewrite Hvx. simpl. rewrite Qcabs_Qcminus.
  etrans; [|apply (sum_over_term_le _ x pg vx); [|done]].
  - unfold rank_of. rewrite Hpg. apply Qcle_refl.
  - intros. apply Qcabs_nonneg.
Qed.

(** The loop returns once a pass has converged. *)
Lemma iterate_loop_converges corpus d f k (x : gmap page Qc) :
  dom x = dom corpus →
  converged (after_passes corpus d f k x) (after_passes corpus d f (S k) x) →
  ∃ j, (j ≤ k)%nat
    ∧ iterate_loop (S k) corpus d f x
      = Some (Return (after_passes corpus d f (S j) x)).
Proof.
  revert x. induction k as [|k IH]; intros x Hx Hconv.
  { exists 0%nat. split; [done|]. rewrite iterate_loop_step by done.
    by rewrite decide_True. }
  rewrite iterate_loop_step by done.
  destruct (decide (converged x (pass corpus d f x))) as [Hc|Hc].
  { exists 0%nat. split; [lia|done]. }
  destruct (IH (pass corpus d f x)) as (j & Hj & Hloop);
    [by rewrite dom_pass|done|].
  exists (S j). split; [lia|done].
Qed.

Lemma rank_of_nonneg (x : gmap page Qc) q :
  map_Forall (λ _ v, 0 ≤ v) x → 0 ≤ rank_of x q.
Proof.
  intros Hx. unfold rank_of. destruct (x !! q) as [v|] eqn:Hq; simpl.
  - by apply (Hx q).
  - apply Qcle_refl.
Qed.

Lemma incoming_rank_nonneg corpus (x : gmap page Qc) pg :
  map_Forall (λ _ v, 0 ≤ v) x → 0 ≤ incoming_rank corpus x pg.
Proof.
  intros Hx. rewrite incoming_rank_eq. apply sum_over_nonneg.
  intros q links _. destruct (decide (pg ∈ links)); [|apply Qcle_refl].
  rewrite <- (Qcabs_pos (rank_of x q)) by by apply rank_of_nonneg.
  rewrite <- Qcabs_div_len. apply Qcabs_nonneg.
Qed.

Lemma pass_lower corpus d f (x : gmap page Qc) :
  0 ≤ d → map_Forall (λ _ v, 0 ≤ v) x →
  map_Forall (λ _ v, f ≤ v) (pass corpus d f x).
Proof.
  intros Hd Hx pg v. unfold pass. rewrite lookup_remap.
  destruct (x !! pg); intros [= <-].
  rewrite <- (Qcplus_0_r f) at 1. apply Qcplus_le_mono_l.
  apply Qcmult_nonneg_nonneg; [done|]. by apply incoming_rank_nonneg.
Qed.

Lemma after_passes_lower corpus d f k (x : gmap page Qc) :
  0 ≤ d → 0 ≤ f → map_Forall (λ _ v, 0 ≤ v) x →
  map_Forall (λ _ v, f ≤ v) (after_passes corpus d f (S k) x).
Proof.
  intros Hd Hf. revert x. induction k as [|k IH]; intros x Hx.
  { by apply pass_lower. }
  change (map_Forall (λ _ v, f ≤ v)
            (after_passes corpus d f (S k) (pass corpus d f x))).
  apply IH. intros pg v Hpg. etrans; [exact Hf|].
  by apply (pass_lower corpus d f x Hd Hx pg).
Qed.

Lemma first_term_nonneg corpus d : d ≤ 1 → 0 ≤ first_term corpus d.
Proof.
  intros Hd. unfold first_term, len_dict.
  destruct (decide (size corpus = 0%nat)) as [->|Hs].
  - rewrite Qc_of_nat_0. unfold Qcdiv. rewrite Qcinv_0, Qcmult_0_r.
    apply Qcle_refl.
  - apply Qcmult_nonneg_nonneg; [by apply Qc_one_minus_nonneg|].
    apply Qclt_le_weak, Qcinv_pos. by apply Qc_of_nat_pos.
Qed.

Lemma first_term_pos corpus d : corpus ≠ ∅ → d < 1 → 0 < first_term corpus d.
Proof.
  intros Hne Hd. unfold first_term. apply Qcdiv_pos.
  - apply (Qcplus_lt_mono_r _ _ d).
    by replace (1 - d + d) with 1 by ring; rewrite Qcplus_0_l.
  - apply Qc_of_nat_pos. by intros ?%map_size_empty_iff.
Qed.

Lemma initial_ranks_nonneg corpus :
  map_Forall (λ _ v, 0 ≤ v) (initial_ranks corpus).
Proof.
  intros pg v. unfold initial_ranks. rewrite lookup_remap.
  destruct (corpus !! pg) eqn:Hpg; intros [= <-].
  apply Qclt_le_weak, Qcdiv_pos; [by vm_compute|].
  apply Qc_of_nat_pos. by eapply lookup_size_ne_0.
Qed.

(** The total a pass assigns to non-negative ranks is at most what they
    held, once the constant term is set apart. *)
Lemma sum_kept_le corpus (x : gmap page Qc) :
  dom x = dom corpus → map_Forall (λ _ v, 0 ≤ v) x →
  sum_over (λ q links, rank_of x q * kept_share corpus links) corpus
  ≤ sum_values x.
Proof.
  intros Hdom Hx. rewrite <- (sum_over_rank_of x corpus) by done.
  apply sum_over_le. intros q links _.
  rewrite <- (Qcmult_1_r (rank_of x q)) at 2.
  apply Qcmult_le_mono_nonneg_l; [by apply rank_of_nonneg|].
  apply kept_share_le_1.
Qed.

Lemma first_move_le_2 corpus d :
  corpus ≠ ∅ → 0 ≤ d → d ≤ 1 →
  total_move (initial_ranks corpus)
    (pass corpus d (first_term corpus d) (initial_ranks corpus)) ≤ 2.
Proof.
  intros Hne Hd0 Hd1.
  set (x0 := initial_ranks corpus).
  set (x1 := pass corpus d (first_term corpus d) x0).
  assert (dom x0 = dom corpus) as Hx0 by apply initial_ranks_dom.
  assert (dom x1 = dom x0) as Hx1 by apply dom_pass.
  assert (map_Forall (λ _ v, 0 ≤ v) x1) as Hpos1.
  { intros pg v Hpg. etrans; [by apply (first_term_nonneg corpus d)|].
    by apply (pass_lower corpus d _ x0 Hd0 (initial_ranks_nonneg corpus) pg). }
  trans (sum_over (λ pg v, rank_of x1 pg + v) x0).
  { apply sum_over_le. intros pg v Hpg.
    etrans; [apply (Qcabs_triangle (rank_of x1 pg) (- v))|].
    rewrite Qcabs_opp, !Qcabs_pos;
      [apply Qcle_refl|by apply (initial_ranks_nonneg corpus pg)
      |by apply rank_of_nonneg]. }
  rewrite (sum_over_plus (λ pg _, rank_of x1 pg) (λ _ v, v)).
  rewrite (sum_over_rank_of x1 x0) by done.
  apply Qcplus_le_compat.
  - unfold x1, pass. rewrite sum_assigned by done.
    trans ((1 - d) + d * sum_values x0).
    + apply Qcplus_le_mono_l, Qcmult_le_mono_nonneg_l; [done|].
      apply sum_kept_le; [done|apply initial_ranks_nonneg].
    + unfold x0. rewrite sum_values_initial_ranks by done.
      replace (1 - d + d * 1) with 1 by ring. apply Qcle_refl.
  - rewrite <- sum_values_eq. unfold x0.
    rewrite sum_values_initial_ranks by done. apply Qcle_refl.
Qed.

(** The loop stops within [k + 1] passes as soon as [2 d^k] is at most the
    threshold. *)
Lemma iterate_loop_within corpus d k :
  corpus ≠ ∅ → 0 ≤ d → d ≤ 1 → 2 * d ^ k ≤ threshold →
  ∃ j, (j ≤ k)%nat
    ∧ iterate_loop (S k) corpus d (first_term corpus d) (initial_ranks corpus)
      = Some (Return (passes corpus d (S j))).
Proof.
  intros Hne Hd0 Hd1 Hk. unfold passes.
  apply iterate_loop_converges; [apply initial_ranks_dom|].
  apply converged_of_total_move; [by rewrite !dom_after_passes|].
  etrans; [apply total_move_after_passes; [done|apply initial_ranks_dom]|].
  etrans; [|exact Hk]. rewrite (Qcmult_comm 2).
  apply Qcmult_le_mono_nonneg_l; [by apply Qcpower_pos|].
  by apply first_move_le_2.
Qed.

(** The engine returns within [k + 1] passes as soon as [2 d^k] is at most
    the threshold. *)
Lemma iterate_pagerank_within corpus d k :
  corpus ≠ ∅ → 0 ≤ d → d < 1 → 2 * d ^ k ≤ threshold →
  ∃ r, iterate_pagerank (S k) corpus d = Some (Return r)
    ∧ dom r = dom corpus ∧ sum_values r = 1
    ∧ map_Forall (λ _ v, 0 < v) r.
Proof.
  intros Hne Hd0 Hd1 Hk.
  set (f := first_term corpus d).
  assert (0 < f) as Hf by by apply first_term_pos.
  destruct (iterate_loop_within corpus d k) as (j & Hj & Hloop);
    [done|done|by apply Qclt_le_weak|done|].
  set (x := passes corpus d (S j)) in *.
  assert (map_Forall (λ _ v, f ≤ v) x) as Hlow.
  { apply after_passes_lower; [done|by apply Qclt_le_weak|].
    apply initial_ranks_nonneg. }
  assert (dom x = dom corpus) as Hx.
  { unfold x, passes. rewrite dom_after_passes. apply initial_ranks_dom. }
  assert (0 < sum_values x) as Hsum.
  { apply sum_over_pos.
    - intros ->. rewrite dom_empty_L in Hx. symmetry in Hx.
      by apply dom_empty_inv_L in Hx.
    - intros pg v Hpg. eapply Qclt_le_trans; [exact Hf|]. by apply (Hlow pg). }
  assert (sum_values x ≠ 0) as Hne0 by by apply Qc_pos_ne_0.
  exists (remap (λ _ v, v / sum_values x) x).
  split; [|split; [|split]].
  - rewrite iterate_pagerank_nonempty by done. rewrite Hloop.
    by rewrite normalize_ok.
  - by rewrite dom_remap.
  - eapply normalize_checked. by apply normalize_ok.
  - intros pg v. rewrite lookup_remap.
    destruct (x !! pg) as [w|] eqn:Hpg; intros [= <-].
    apply Qcdiv_pos; [|done].
    eapply Qclt_le_trans; [exact Hf|]. by apply (Hlow pg).
Qed.

Lemma nat_above (q : Qc) : ∃ n : nat, q ≤ Qc_of_nat n.
Proof.
  exists (Z.to_nat (Qfloor q + 1)).
  change (this q <= inject_Z (Z.of_nat (Z.to_nat (Qfloor q + 1))))%Q.
  apply Qle_trans with (inject_Z (Qfloor q + 1)).
  - apply Qlt_le_weak, Qlt_floor.
  - rewrite <- Zle_Qle. lia.
Qed.

(** [d^k (1 + k (1 - d)) ≤ 1]: the powers of a damping factor below 1 fall
    at least as fast as [1 / (1 + k (1 - d))]. *)
Lemma power_decay (d : Qc) (k : nat) :
  0 ≤ d → d ≤ 1 → d ^ k * (1 + Qc_of_nat k * (1 - d)) ≤ 1.
Proof.
  intros Hd0 Hd1. induction k as [|k IH].
  { simpl. rewrite Qc_of_nat_0.
    replace (1 * (1 + 0 * (1 - d))) with 1 by ring. apply Qcle_refl. }
  etrans; [|exact IH]. simpl. rewrite Qc_of_nat_S.
  replace (d * d ^ k * (1 + (Qc_of_nat k + 1) * (1 - d)))
    with (d ^ k * (d * (1 + (Qc_of_nat k + 1) * (1 - d)))) by ring.
  apply Qcmult_le_mono_nonneg_l; [by apply Qcpower_pos|].
  replace (1 + Qc_of_nat k * (1 - d))
    with (d * (1 + (Qc_of_nat k + 1) * (1 - d))
          + (Qc_of_nat k + 1) * ((1 - d) * (1 - d))) by ring.
  rewrite <- (Qcplus_0_r (d * _)) at 1. apply Qcplus_le_mono_l.
  apply Qcmult_nonneg_nonneg.
  - rewrite <- Qc_of_nat_S, <- Qc_of_nat_0. apply Qc_of_nat_le. lia.
  - apply Qcmult_nonneg_nonneg; by apply Qc_one_minus_nonneg.
Qed.

Lemma power_small (d eps : Qc) :
  0 ≤ d → d < 1 → 0 < eps → ∃ k : nat, 2 * d ^ k ≤ eps.
Proof.
  intros Hd0 Hd1 Heps.
  assert (0 < 1 - d) as Hu.
  { apply (Qcplus_lt_mono_r _ _ d).
    by replace (1 - d + d) with 1 by ring; rewrite Qcplus_0_l. }
  destruct (nat_above (2 / (eps * (1 - d)))) as [k Hk]. exists k.
  assert (0 < eps * (1 - d)) as Hepsu by by apply Qcmult_pos_pos.
  assert (2 ≤ eps * (1 + Qc_of_nat k * (1 - d))) as Hbig.
  { trans (Qc_of_nat k * (eps * (1 - d))).
    - apply (Qcmult_le_mono_pos_r _ _ (eps * (1 - d)) Hepsu) in Hk.
      etrans; [|exact Hk]. replace (2 / (eps * (1 - d)) * (eps * (1 - d))) with 2.
      + apply Qcle_refl.
      + field. split; by apply Qc_pos_ne_0.
    - replace (eps * (1 + Qc_of_nat k * (1 - d)))
        with (eps + Qc_of_nat k * (eps * (1 - d))) by ring.
      rewrite <- (Qcplus_0_l (Qc_of_nat k * _)) at 1.
      apply Qcplus_le_mono_r. by apply Qclt_le_weak. }
  trans (eps * (1 + Qc_of_nat k * (1 - d)) * d ^ k).
  - apply Qcmult_le_mono_nonneg_r; [by apply Qcpower_pos|done].
  - rewrite <- (Qcmult_1_r eps) at 2. rewrite <- Qcmult_assoc.
    apply Qcmult_le_mono_nonneg_l; [by apply Qclt_le_weak|].
    rewrite Qcmult_comm. apply power_decay; [done|by apply Qclt_le_weak].
Qed.

(** More passes than the loop needs change nothing of what it returns. *)
Lemma iterate_loop_mono fuel fuel' corpus d f (x : gmap page Qc) r :
  dom x = dom corpus → (fuel ≤ fuel')%nat →
  iterate_loop fuel corpus d f x = Some r →
  iterate_loop fuel' corpus d f x = Some r.
Proof.
  intros Hdom Hle. rewrite !iterate_loop_spec by done.
  intros (k & Hk & H). exists k. split; [lia|done].
Qed.

Lemma iterate_pagerank_mono fuel fuel' corpus d r :
  corpus ≠ ∅ → (fuel ≤ fuel')%nat →
  iterate_pagerank fuel corpus d = Some r →
  iterate_pagerank fuel' corpus d = Some r.
Proof.
  intros Hne Hle. rewrite !iterate_pagerank_nonempty by done.
  destruct (iterate_loop fuel _ _ _ _) as [x|] eqn:Hloop; [|done].
  by rewrite (iterate_loop_mono fuel fuel' _ _ _ _ x)
    by (done || apply initial_ranks_dom).
Qed.

(** ** The transition model on any corpus *)

(** X1.  The transition model of a page that is no key of the corpus
    raises [KeyError], whatever the damping factor. *)
Theorem transition_model_KeyError corpus pg d :
  pg ∉ dom corpus → transition_model corpus pg d = Raise KeyError.
Proof. intros Hpg. by apply transition_model_missing, not_elem_of_dom. Qed.

Lemma assigned_total_share corpus links d :
  corpus ≠ ∅ → size links ≠ 0%nat →
  sum_over (λ q _, assigned_probability corpus links d q) corpus
  = (1 - d) + d * kept_share corpus links.
Proof.
  intros Hne Hs. rewrite assigned_total by done.
  unfold kept_share, Qcdiv. ring.
Qed.

(** Under exact arithmetic (for the binary64 reading see
    [transition_model_binary64_outcome]).  For a page with outbound links,
    in a corpus whose links may lead outside of it, the total of the
    assigned probabilities is
    [(1 - d) + d * kept_share]: the transition model raises
    [ZeroDivisionError] when that total is zero, and otherwise returns the
    assigned probabilities divided by it. *)
Theorem transition_model_outcome corpus pg d links :
  corpus !! pg = Some links → links ≠ ∅ →
  transition_model corpus pg d
  = if decide ((1 - d) + d * kept_share corpus links = 0)
    then Raise ZeroDivisionError
    else Return
           (remap (λ q _, assigned_probability corpus links d q
                          / ((1 - d) + d * kept_share corpus links)) corpus).
Proof.
  intros Hpg Hlinks.
  assert (corpus ≠ ∅) as Hne by by intros ->.
  assert (size links ≠ 0%nat) as Hs by by apply size_links_ne_0.
  rewrite (transition_model_links _ _ _ links) by done.
  pose proof (assigned_total_share corpus links d Hne Hs) as Htotal.
  destruct (decide _) as [Hz|Hnz].
  - apply normalize_zero; [by apply remap_ne_empty|].
    by rewrite sum_values_remap, Htotal.
  - rewrite normalize_ok by by rewrite sum_values_remap, Htotal.
    by rewrite sum_values_remap, Htotal, remap_remap.
Qed.

(** X3.  Under exact arithmetic: on a corpus whose links stay inside it,
    with a damping factor between 0 and 1, every value of the transition
    model of a page of the corpus lies between 0 and 1. *)
Theorem transition_model_probabilities corpus pg d :
  corpus_wf corpus → 0 ≤ d → d ≤ 1 → pg ∈ dom corpus →
  ∃ pd, transition_model corpus pg d = Return pd
    ∧ map_Forall (λ _ v, 0 ≤ v ∧ v ≤ 1) pd.
Proof.
  intros Hwf Hd0 Hd1 Hpg.
  destruct (transition_model_wf corpus pg d Hwf Hpg) as (pd & Hpd & Hdom & Hsum).
  exists pd. split; [done|].
  assert (map_Forall (λ _ v, 0 ≤ v) pd) as Hpos.
  { apply elem_of_dom in Hpg as [links Hlinks].
    assert (0 ≤ (1 - d) / len_dict corpus) as Hb
      by by apply (first_term_nonneg corpus d).
    destruct (decide (links = ∅)) as [->|Hne].
    - rewrite (transition_model_dangling _ _ _ ∅) in Hpd by done.
      injection Hpd as <-. intros q v. rewrite lookup_remap.
      destruct (corpus !! q); intros [= <-].
      apply Qclt_le_weak, Qcdiv_pos; [by vm_compute|].
      apply Qc_of_nat_pos. by eapply lookup_size_ne_0.
    - assert (size links ≠ 0%nat) as Hs by by apply size_links_ne_0.
      rewrite (transition_model_links _ _ _ links) in Hpd by done.
      rewrite normalize_one in Hpd
        by (rewrite sum_values_remap; by eapply assigned_total_wf).
      injection Hpd as <-. intros q v. rewrite lookup_remap.
      destruct (corpus !! q); intros [= <-].
      unfold assigned_probability.
      destruct (decide (q ∈ links)); [|done].
      apply Qcplus_nonneg_nonneg; [|done].
      apply Qcmult_nonneg_nonneg; [done|].
      by apply Qclt_le_weak, Qcinv_pos, Qc_of_nat_pos. }
  intros q v Hq. split; [by apply (Hpos q)|].
  rewrite <- Hsum, sum_values_eq.
  by apply (sum_over_term_le (λ _ v, v) pd q v).
Qed.

(** ** The sampling engine counts visits *)

(** The counts stay natural numbers through the loop. *)
Lemma sample_loop_naturals i corpus d start (page_rank counts : gmap page Qc) g :
  sample_loop i corpus d start page_rank g = Return counts →
  map_Forall (λ _ v, ∃ k : nat, v = Qc_of_nat k) page_rank →
  map_Forall (λ _ v, ∃ k : nat, v = Qc_of_nat k) counts.
Proof.
  revert start page_rank g.
  induction i as [|i IH]; intros start page_rank g Hloop Hnat.
  { by injection Hloop as <-. }
  cbn [sample_loop] in Hloop.
  destruct (transition_model corpus start d) as [pd|]; [|done].
  cbn [mbind result_bind] in Hloop.
  destruct (random_choices _ _ g) as [[next g']|]; [|done].
  cbn [mbind result_bind] in Hloop.
  destruct (list_getitem next 0) as [a|]; [|done].
  cbn [mbind result_bind] in Hloop.
  destruct (getitem page_rank a) as [count|] eqn:Hcount; [|done].
  cbn [mbind result_bind] in Hloop.
  apply IH in Hloop; [done|].
  apply map_Forall_insert_2; [|done].
  unfold getitem in Hcount. destruct (page_rank !! a) as [c|] eqn:Ha; [|done].
  injection Hcount as <-. destruct (Hnat a c Ha) as [k ->].
  exists (S k). by rewrite Qc_of_nat_S.
Qed.

Lemma Qc_of_nat_le_inv (k n : nat) : Qc_of_nat k ≤ Qc_of_nat n → (k ≤ n)%nat.
Proof.
  unfold Qc_of_nat. intros H. apply (proj2 (Z2Qc_inj_le _ _)) in H. lia.
Qed.

(** Under exact arithmetic (for the binary64 reading see
    [sample_pagerank_binary64_frequencies]).  On a non-empty corpus whose
    links stay inside it, with a positive number [n] of samples and a
    random source that draws from [0, 1), every
    rank the sampling engine returns is [k / n] for a natural number [k] of
    at most [n]: the number of samples that fell on the page. *)
Theorem sample_pagerank_frequencies corpus d (n : Z) g :
  corpus_wf corpus → corpus ≠ ∅ → (0 < n)%Z → rng_valid g →
  ∃ r, sample_pagerank corpus d n g = Return r
    ∧ ∀ pg v, r !! pg = Some v →
        ∃ k : nat, (k ≤ Z.to_nat n)%nat ∧ v = Qc_of_nat k / Qc_of_Z n.
Proof.
  intros Hwf Hne Hn Hg.
  destruct (random_choice_ok (map_to_list corpus).*1 g)
    as (start & Hstart & Hin); [by apply keys_ne_nil|apply Hg|].
  apply elem_of_keys in Hin.
  destruct (sample_loop_ok (Z.to_nat n) corpus d start
              (remap (λ _ _, 0) corpus) (random g).2)
    as (counts & Hloop & Hdom & Hpos & Hsum); [done|done|apply dom_remap| |].
  { intros k v. rewrite lookup_remap.
    destruct (corpus !! k); intros [= <-]. by vm_compute. }
  assert (map_Forall (λ _ v, ∃ k : nat, v = Qc_of_nat k) counts) as Hnat.
  { eapply sample_loop_naturals; [exact Hloop|].
    intros k v. rewrite lookup_remap.
    destruct (corpus !! k); intros [= <-]. exists 0%nat.
    by rewrite Qc_of_nat_0. }
  assert (Qc_of_Z n ≠ 0) as Hn0.
  { rewrite <- Z2Qc_inj_0. intros ?%Z2Qc_inj. lia. }
  assert (remap (λ _ v, if decide (0 < v) then v / Qc_of_Z n else v) counts
          = remap (λ _ v, v / Qc_of_Z n) counts) as Hfreq.
  { apply remap_ext. intros k v Hk. destruct (decide (0 < v)) as [|Hv]; [done|].
    assert (v = 0) as ->; [|by field].
    apply Qcle_antisym; [by apply Qcnot_lt_le|by apply (Hpos k)]. }
  assert (sum_values (remap (λ _ v, v / Qc_of_Z n) counts) = 1) as Hone.
  { rewrite sum_values_div, Hsum, sum_values_zero_counts.
    unfold Qc_of_nat. rewrite Z2Nat.id by lia. by field. }
  eexists. split.
  - unfold sample_pagerank. rewrite Hstart. cbn [mbind result_bind].
    rewrite zero_counts. cbn [mbind result_bind].
    rewrite Hloop. cbn [mbind result_bind].
    rewrite frequencies_ok by (right; lia). cbn [mbind result_bind].
    rewrite Hfreq. by apply normalize_one.
  - intros pg v. rewrite lookup_remap.
    destruct (counts !! pg) as [c|] eqn:Hc; intros [= <-].
    destruct (Hnat pg c Hc) as [k ->]. exists k. split; [|done].
    apply Qc_of_nat_le_inv. rewrite <- (Qcplus_0_l (Qc_of_nat (Z.to_nat n))).
    rewrite <- (sum_values_zero_counts corpus), <- Hsum, sum_values_eq.
    by apply (sum_over_term_le (λ _ v, v) counts pg).
Qed.

(** A rank table over one page whose total is 1. *)
Lemma single_rank (A : page) (r : gmap page Qc) :
  dom r = {[ A ]} → sum_values r = 1 → r = {[ A := 1 ]}.
Proof.
  intros Hdom Hsum.
  assert (is_Some (r !! A)) as [v Hv].
  { apply elem_of_dom. rewrite Hdom. set_solver. }
  assert (r = {[ A := v ]}) as ->.
  { apply map_eq. intros k. destruct (decide (k = A)) as [->|Hk].
    - by rewrite lookup_singleton_eq.
    - rewrite lookup_singleton_ne by done. apply not_elem_of_dom.
      rewrite Hdom. set_solver. }
  rewrite sum_values_eq, sum_over_singleton in Hsum. by rewrite Hsum.
Qed.

(** X5.  On a corpus of a single page, which links to nothing or to itself,
    the sampling engine returns the rank 1 for that page, for every damping
    factor, positive number of samples and random source that draws from
    [0, 1). *)
Theorem sample_pagerank_single_page (A : page) links d (n : Z) g :
  links ⊆ {[ A ]} → (0 < n)%Z → rng_valid g →
  sample_pagerank {[ A := links ]} d n g = Return {[ A := 1 ]}.
Proof.
  intros Hlinks Hn Hg.
  destruct (sample_pagerank_ok {[ A := links ]} d n g)
    as (r & Hr & Hdom & Hsum); [| |done..|].
  { intros q l [<- <-]%lookup_singleton_Some. by rewrite dom_singleton_L. }
  { apply insert_non_empty. }
  rewrite Hr. f_equal. apply single_rank; [|done].
  by rewrite Hdom, dom_singleton_L.
Qed.

(** ** The total of a pass *)

(** On a corpus whose links stay inside it, a page hands on all of its rank
    or, when it has no links, none of it. *)
Lemma sum_assigned_wf corpus d (previous page_rank : gmap page Qc) :
  corpus_wf corpus → corpus ≠ ∅ →
  dom previous = dom corpus → dom page_rank = dom corpus →
  sum_values (remap (λ pg _, first_term corpus d
                             + d * incoming_rank corpus previous pg)
                page_rank)
  = (1 - d) + d * (sum_values previous - dangling_rank corpus previous).
Proof.
  intros Hwf Hne Hprev Hdom. rewrite sum_assigned by done.
  do 2 f_equal. rewrite <- (sum_over_rank_of previous corpus) by done.
  unfold dangling_rank. rewrite <- sum_over_minus.
  apply sum_over_ext. intros q links Hq.
  destruct (decide (links = ∅)) as [->|Hl].
  - rewrite kept_share_empty. ring.
  - rewrite kept_share_wf; [ring|by apply (Hwf q)|done].
Qed.



(** ** The iterative engine returns *)

(** X8.  Under exact arithmetic: on a non-empty corpus, with a damping
    factor of at least 0 and below 1, the iterative engine returns: there
    is a number of passes from
    which on it gives one and the same rank table, over the pages of the
    corpus, with total 1 and every rank positive. *)
Theorem iterate_pagerank_terminates corpus d :
  corpus ≠ ∅ → 0 ≤ d → d < 1 →
  ∃ (enough : nat) r,
    (∀ fuel, (enough ≤ fuel)%nat →
       iterate_pagerank fuel corpus d = Some (Return r))
    ∧ dom r = dom corpus ∧ sum_values r = 1
    ∧ map_Forall (λ _ v, 0 < v) r.
Proof.
  intros Hne Hd0 Hd1.
  destruct (power_small d threshold) as [k Hk]; [done|done|by vm_compute|].
  destruct (iterate_pagerank_within corpus d k) as (r & Hr & Hrest);
    [done..|].
  exists (S k), r. split; [|done].
  intros fuel Hfuel. by apply (iterate_pagerank_mono (S k)).
Qed.

(** X9.  Under exact arithmetic: with the damping factor 0.85 of the
    source, 48 passes suffice on every non-empty corpus. *)
Theorem iterate_pagerank_default_passes corpus :
  corpus ≠ ∅ →
  ∃ r, (∀ fuel, (48 ≤ fuel)%nat →
          iterate_pagerank fuel corpus DAMPING = Some (Return r))
    ∧ dom r = dom corpus ∧ sum_values r = 1
    ∧ map_Forall (λ _ v, 0 < v) r.
Proof.
  intros Hne.
  destruct (iterate_pagerank_within corpus DAMPING 47) as (r & Hr & Hrest);
    [done|by vm_compute..|].
  exists r. split; [|done].
  intros fuel Hfuel. by apply (iterate_pagerank_mono 48).
Qed.

Lemma dangling_rank_none corpus (ranks : gmap page Qc) :
  no_dangling corpus → dangling_rank corpus ranks = 0.
Proof.
  intros Hnd. unfold dangling_rank.
  trans (sum_over (λ _ _, 0) corpus); [|apply sum_over_zero].
  apply sum_over_ext. intros q links Hq.
  by rewrite decide_False by by apply (Hnd q).
Qed.

Lemma sum_passes_no_dangling corpus d k :
  corpus_wf corpus → no_dangling corpus → corpus ≠ ∅ →
  sum_values (passes corpus d k) = 1.
Proof.
  intros Hwf Hnd Hne. unfold passes.
  assert (∀ x : gmap page Qc, dom x = dom corpus → sum_values x = 1 →
            sum_values (after_passes corpus d (first_term corpus d) k x) = 1)
    as Hall.
  { induction k as [|k IH]; intros x Hx Hsum; [done|].
    cbn [after_passes]. apply IH; [by rewrite dom_pass|].
    unfold pass. rewrite sum_assigned_wf, dangling_rank_none, Hsum by done.
    ring. }
  apply Hall; [apply initial_ranks_dom|by apply sum_values_initial_ranks].
Qed.

(** X10.  Under exact arithmetic: on a non-empty corpus whose links stay
    inside it and whose pages all have an outbound link, every pass keeps
    the total of the ranks at 1,
    so that the closing normalisation changes nothing: the engine returns
    the ranks of its last pass as they are. *)
Theorem iterate_pagerank_no_dangling corpus d :
  corpus_wf corpus → no_dangling corpus → corpus ≠ ∅ → 0 ≤ d → d < 1 →
  (∀ k, sum_values (passes corpus d k) = 1)
  ∧ ∃ (enough k : nat), ∀ fuel, (enough ≤ fuel)%nat →
      iterate_pagerank fuel corpus d = Some (Return (passes corpus d (S k))).
Proof.
  intros Hwf Hnd Hne Hd0 Hd1.
  split; [intros k; by apply sum_passes_no_dangling|].
  destruct (power_small d threshold) as [k Hk]; [done|done|by vm_compute|].
  destruct (iterate_loop_within corpus d k) as (j & Hj & Hloop);
    [done|done|by apply Qclt_le_weak|done|].
  exists (S k), j. intros fuel Hfuel.
  apply (iterate_pagerank_mono (S k)); [done..|].
  rewrite iterate_pagerank_nonempty, Hloop by done.
  f_equal. apply normalize_one. by apply sum_passes_no_dangling.
Qed.

(** ** Full damping on pages without links *)

Lemma incoming_rank_no_links corpus (x : gmap page Qc) pg :
  map_Forall (λ _ links, links = ∅) corpus → incoming_rank corpus x pg = 0.
Proof.
  intros Hall. rewrite incoming_rank_eq.
  trans (sum_over (λ _ _, 0) corpus); [|apply sum_over_zero].
  apply sum_over_ext. intros q links Hq.
  rewrite (Hall q links Hq). by rewrite decide_False by set_solver.
Qed.

(** X11.  With the damping factor 1, on a non-empty corpus none of whose
    pages has an outbound link, the first pass sets every rank to 0 and the
    iterative engine, given two passes or more, raises [ZeroDivisionError]
    in its closing normalisation. *)
Theorem iterate_pagerank_no_links_full_damping corpus fuel :
  corpus ≠ ∅ → map_Forall (λ _ links, links = ∅) corpus →
  iterate_pagerank (S (S fuel)) corpus 1 = Some (Raise ZeroDivisionError).
Proof.
  intros Hne Hall. rewrite iterate_pagerank_nonempty by done.
  assert (first_term corpus 1 = 0) as ->.
  { unfold first_term. replace (1 - 1) with 0 by ring. apply Qcmult_0_l. }
  assert (∀ x : gmap page Qc, pass corpus 1 0 x = remap (λ _ _, 0) x) as Hpass.
  { intros x. apply remap_ext. intros pg v _.
    rewrite incoming_rank_no_links by done. ring. }
  set (x0 := initial_ranks corpus). set (z := remap (λ _ _, 0) x0).
  assert (dom x0 = dom corpus) as Hx0 by apply initial_ranks_dom.
  assert (dom z = dom corpus) as Hz by (unfold z; by rewrite dom_remap).
  assert (normalize z = Raise ZeroDivisionError) as Hnorm.
  { apply normalize_zero.
    - apply remap_ne_empty. by apply remap_ne_empty.
    - unfold z. rewrite sum_values_remap, sum_over_const. ring. }
  assert (pass corpus 1 0 z = z) as Hzz.
  { rewrite Hpass. unfold z. by rewrite remap_remap. }
  rewrite iterate_loop_step, Hpass by done. fold z.
  destruct (decide (converged x0 z)); [by rewrite Hnorm|].
  rewrite iterate_loop_step, Hzz by done.
  rewrite decide_True by apply converged_refl. by rewrite Hnorm.
Qed.

(** X12.  On a corpus of a single page, with a damping factor of at least 0
    and below 1, the iterative engine returns the rank 1 for that page. *)
Theorem iterate_pagerank_single_page (A : page) links d :
  0 ≤ d → d < 1 →
  ∃ enough : nat, ∀ fuel, (enough ≤ fuel)%nat →
    iterate_pagerank fuel {[ A := links ]} d = Some (Return {[ A := 1 ]}).
Proof.
  intros Hd0 Hd1.
  assert (({[ A := links ]} : gmap page (gset page)) ≠ ∅) as Hne
    by apply insert_non_empty.
  destruct (power_small d threshold) as [k Hk]; [done|done|by vm_compute|].
  destruct (iterate_pagerank_within {[ A := links ]} d k)
    as (r & Hr & Hdom & Hsum & _); [done..|].
  exists (S k). intros fuel Hfuel.
  apply (iterate_pagerank_mono (S k)); [done..|].
  rewrite Hr. do 2 f_equal. apply single_rank; [|done].
  by rewrite Hdom, dom_singleton_L.
Qed.

End reach.

(** ** The crawler *)

Lemma elem_of_html_names (listdir : string → list string) directory a :
  a ∈ html_names listdir directory
  ↔ a ∈ listdir directory ∧ endswith a ".html" = true.
Proof.
  unfold html_names. rewrite elem_of_list_to_set, list_elem_of_filter.
  naive_solver.
Qed.

Section crawl_properties.
Variable listdir : string → list string.
Variable read : string → string.
Variable findall : string → list string.

(** The first loop: a name that ends in [.html] holds the links found in
    its file, the other keys are as they were. *)
Lemma crawl_files_lookup directory names pages a :
  crawl_files read findall directory names pages !! a
  = if decide (a ∈ names ∧ endswith a ".html" = true)
    then Some (raw_links read findall directory a)
    else pages !! a.
Proof.
  revert pages. induction names as [|n names IH]; intros pages.
  { rewrite decide_False; [done|]. intros [[]%elem_of_nil _]. }
  cbn [crawl_files]. destruct (endswith n ".html") eqn:Hn; cbn [negb].
  - rewrite IH. destruct (decide (a ∈ names ∧ endswith a ".html" = true))
      as [[Ha Hh]|Hna].
    + rewrite decide_True; [done|]. split; [by right|done].
    + destruct (decide (a = n)) as [->|Hne].
      * rewrite lookup_insert_eq, decide_True; [done|]. split; [by left|done].
      * rewrite lookup_insert_ne by done.
        rewrite decide_False; [done|]. intros [Ha Hh].
        apply elem_of_cons in Ha as [->|Ha]; [done|]. by apply Hna.
  - rewrite IH. destruct (decide (a ∈ names ∧ endswith a ".html" = true))
      as [[Ha Hh]|Hna].
    + rewrite decide_True; [done|]. split; [by right|done].
    + rewrite decide_False; [done|]. intros [Ha Hh].
      apply elem_of_cons in Ha as [->|Ha]; [congruence|]. by apply Hna.
Qed.

Lemma dom_crawl_files directory :
  dom (crawl_files read findall directory (listdir directory) ∅)
  = html_names listdir directory.
Proof.
  apply set_eq. intros a.
  rewrite elem_of_dom, crawl_files_lookup, elem_of_html_names, lookup_empty.
  destruct (decide _) as [H|H]; [by split|].
  split; [by intros []|done].
Qed.

(** What [crawl] returns. *)
Lemma crawl_ok directory :
  crawl listdir read findall directory
  = Return
      (remap (λ _ links, filter (λ link, link ∈ html_names listdir directory)
                           links)
         (crawl_files read findall directory (listdir directory) ∅)).
Proof.
  unfold crawl.
  apply (for_each_update_keys _ _
           (λ _ links, filter (λ link, link ∈ html_names listdir directory)
                         links)).
  intros k v s Hk Hs Hdom. unfold getitem. rewrite Hs. simpl.
  by rewrite Hdom, dom_crawl_files.
Qed.

Lemma crawl_lookup directory a :
  remap (λ _ links, filter (λ link, link ∈ html_names listdir directory) links)
    (crawl_files read findall directory (listdir directory) ∅) !! a
  = if decide (a ∈ html_names listdir directory)
    then Some (filter (λ link, link ∈ html_names listdir directory)
                 (raw_links read findall directory a))
    else None.
Proof.
  rewrite lookup_remap, crawl_files_lookup, lookup_empty.
  destruct (decide (a ∈ html_names listdir directory)) as [Ha|Ha].
  - rewrite decide_True; [done|]. by apply elem_of_html_names.
  - rewrite decide_False; [done|]. by rewrite <- elem_of_html_names.
Qed.

Lemma crawl_returns directory :
  ∃ pages, crawl listdir read findall directory = Return pages
    ∧ corpus_wf pages ∧ dom pages = html_names listdir directory.
Proof.
  eexists. split; [apply crawl_ok|]. split.
  - intros a links. rewrite crawl_lookup.
    destruct (decide _); intros [= <-].
    rewrite dom_remap, dom_crawl_files. intros b. rewrite elem_of_filter.
    by intros [? _].
  - by rewrite dom_remap, dom_crawl_files.
Qed.

(** X13.  The crawler returns a corpus whose links all lead to pages of the
    corpus, and in which no page links to itself. *)
Theorem crawl_corpus_graph directory :
  ∃ pages, crawl listdir read findall directory = Return pages
    ∧ corpus_wf pages
    ∧ ∀ a links, pages !! a = Some links → a ∉ links.
Proof.
  eexists. split; [apply crawl_ok|]. split.
  - intros a links. rewrite crawl_lookup.
    destruct (decide _); intros [= <-].
    rewrite dom_remap, dom_crawl_files. intros b. rewrite elem_of_filter.
    by intros [? _].
  - intros a links. rewrite crawl_lookup.
    destruct (decide _); intros [= <-].
    rewrite elem_of_filter. unfold raw_links. set_solver.
Qed.

(** X14.  The pages of the corpus the crawler returns are the names in the
    directory that end in [.html]; the links of a page are the targets
    found in its file that are such names, the page itself apart. *)
Theorem crawl_pages_and_links directory :
  ∃ pages, crawl listdir read findall directory = Return pages
    ∧ (∀ a, a ∈ dom pages
            ↔ a ∈ listdir directory ∧ endswith a ".html" = true)
    ∧ ∀ a links, pages !! a = Some links →
        ∀ b, b ∈ links
             ↔ b ∈ findall (read (path_join directory a)) ∧ b ≠ a
               ∧ b ∈ listdir directory ∧ endswith b ".html" = true.
Proof.
  eexists. split; [apply crawl_ok|]. split.
  - intros a. by rewrite dom_remap, dom_crawl_files, elem_of_html_names.
  - intros a links. rewrite crawl_lookup.
    destruct (decide _); intros [= <-]. intros b.
    rewrite elem_of_filter, elem_of_html_names. unfold raw_links.
    rewrite elem_of_difference, elem_of_list_to_set, elem_of_singleton.
    naive_solver.
Qed.

End crawl_properties.

(** ** The program *)

Section program_properties.
Variable listdir : string → list string.
Variable read : string → string.
Variable findall : string → list string.
Variable format_rank : Qc → string.

Lemma print_ranks_ok pages (ranks : gmap string Qc) stdout :
  (∀ page, page ∈ pages → page ∈ dom ranks) →
  print_ranks format_rank pages ranks stdout
  = (stdout ++ (row format_rank ranks <$> pages), None).
Proof.
  revert stdout. induction pages as [|page pages IH]; intros stdout Hin.
  { cbn [print_ranks fmap list_fmap]. by rewrite app_nil_r. }
  cbn [print_ranks].
  assert (page ∈ dom ranks) as [rank Hrank]%elem_of_dom by (apply Hin; left).
  unfold getitem. rewrite Hrank. rewrite IH.
  - rewrite <- (assoc_L (++)), fmap_cons. unfold row at 2, rank_of.
    by rewrite Hrank.
  - intros p Hp. apply Hin. by right.
Qed.

(** The sorted keys of a table depend on its set of keys alone. *)
Lemma sorted_keys (ranks : gmap string Qc) (s : gset string) :
  dom ranks = s → sorted (map_to_list ranks).*1 = sorted (elements s).
Proof.
  intros Hdom. apply (Sorted_unique String.le).
  - apply Sorted_merge_sort, _.
  - apply Sorted_merge_sort, _.
  - unfold sorted. rewrite !merge_sort_Permutation.
    apply NoDup_Permutation.
    + apply NoDup_fst_map_to_list.
    + apply NoDup_elements.
    + intros k. by rewrite elem_of_keys, elem_of_elements, Hdom.
Qed.

(** X15.  The program ends by [sys.exit] exactly when it is not given one
    argument; it has then printed nothing, and the status is the usage
    line. *)
Theorem main_usage fuel argv g out status :
  main listdir read findall format_rank fuel argv g
  = Some (out, SystemExit status)
  ↔ length argv ≠ 2%nat ∧ out = []
    ∧ status = "Usage: python pagerank.py corpus".
Proof.
  unfold main. destruct (decide (length argv ≠ 2%nat)) as [Hlen|Hlen].
  { split; [by intros [= <- <-]|by intros (_ & -> & ->)]. }
  split; [|by intros [? _]]. intros Hmain. exfalso.
  destruct (_ ≫= _) as [corpus|]; [|done].
  destruct (sample_pagerank _ _ _ _) as [ranks|]; [|done].
  destruct (print_ranks _ _ _ _) as [stdout [e|]]; [done|].
  destruct (iterate_pagerank _ _ _) as [[ranks'|]|]; [|done..].
  by destruct (print_ranks _ _ _ _) as [stdout' [e|]].
Qed.

(** X16.  Under exact arithmetic: given a directory with at least one name
    that ends in [.html], a random source that draws from [0, 1) and 48
    passes or more, the program
    finishes, having printed two reports: a heading and one line for every
    page, in ascending order of the names, with the ranks of the sampling
    engine, then the same with the ranks of the iterative engine.  Both
    rank tables are over the names that end in [.html], with total 1. *)
Theorem main_report fuel program directory g :
  (∃ name, name ∈ listdir directory ∧ endswith name ".html" = true) →
  rng_valid g → (48 ≤ fuel)%nat →
  ∃ pages sampled iterated,
    main listdir read findall format_rank fuel [program; directory]%list g
    = Some ("PageRank Results from Sampling (n = 10000)"
              :: (row format_rank sampled <$> pages)
              ++ "PageRank Results from Iteration"
              :: (row format_rank iterated <$> pages), Finished)
    ∧ Sorted String.le pages
    ∧ pages ≡ₚ elements (html_names listdir directory)
    ∧ dom sampled = html_names listdir directory
    ∧ sum_values sampled = 1
    ∧ dom iterated = html_names listdir directory
    ∧ sum_values iterated = 1.
Proof.
  intros (name & Hname) Hg Hfuel.
  destruct (crawl_returns listdir read findall directory)
    as (corpus & Hcrawl & Hwf & Hdom).
  assert (corpus ≠ ∅) as Hne.
  { intros ->. apply elem_of_html_names in Hname.
    rewrite <- Hdom, dom_empty_L in Hname. set_solver. }
  destruct (sample_pagerank_ok corpus DAMPING SAMPLES g)
    as (sampled & Hs & Hds & Hss); [done..|].
  destruct (iterate_pagerank_within corpus DAMPING 47)
    as (iterated & Hi & Hdi & Hsi & _); [done|by vm_compute..|].
  apply (iterate_pagerank_mono _ fuel) in Hi; [|done..].
  exists (sorted (elements (html_names listdir directory))), sampled, iterated.
  rewrite Hdom in Hds, Hdi.
  split; [|split; [apply Sorted_merge_sort, _|split;
    [apply merge_sort_Permutation|done]]].
  unfold main. rewrite decide_False by (intros Hn; by apply Hn).
  unfold list_getitem. cbn [lookup list_lookup mbind result_bind].
  rewrite Hcrawl, Hs.
  rewrite (sorted_keys sampled _ Hds), print_ranks_ok.
  2:{ intros p. unfold sorted. rewrite merge_sort_Permutation.
      by rewrite elem_of_elements, Hds. }
  rewrite Hi, (sorted_keys iterated _ Hdi), print_ranks_ok.
  2:{ intros p. unfold sorted. rewrite merge_sort_Permutation.
      by rewrite elem_of_elements, Hdi. }
  by rewrite <- (assoc_L (++)).
Qed.

(** X17.  Given a directory in which no name ends in [.html], the program
    prints nothing and ends with an [IndexError] that nothing catches: the
    sampling engine draws its first page from an empty list. *)
Theorem main_no_pages fuel program directory g :
  (∀ name, name ∈ listdir directory → endswith name ".html" = false) →
  main listdir read findall format_rank fuel [program; directory]%list g
  = Some ([]%list, Uncaught IndexError).
Proof.
  intros Hnone.
  destruct (crawl_returns listdir read findall directory)
    as (corpus & Hcrawl & Hwf & Hdom).
  assert (corpus = ∅) as ->.
  { apply dom_empty_inv_L. rewrite Hdom. apply set_eq. intros a.
    rewrite elem_of_html_names. split; [|set_solver].
    intros [Ha Hend]. by rewrite (Hnone a Ha) in Hend. }
  unfold main. rewrite decide_False by (intros Hn; by apply Hn).
  unfold list_getitem. cbn [lookup list_lookup mbind result_bind].
  by rewrite Hcrawl, sample_pagerank_empty.
Qed.

End program_properties.

(** * The rest of the program at concrete inputs *)

(** The paths the crawler opens. *)
Example path_join_examples :
  path_join "corpus" "1.html" = "corpus/1.html"
  ∧ path_join "corpus/" "1.html" = "corpus/1.html"
  ∧ path_join "" "1.html" = "1.html"
  ∧ path_join "corpus" "/srv/1.html" = "/srv/1.html".
Proof. repeat split; by vm_compute. Qed.

(** The crawler on the directory of two pages: the link of the first page
    to itself and its link out of the directory are dropped. *)
Example crawl_site :
  crawl site_listdir site_read site_findall "corpus"
  = Return {[ "1.html" := {[ "2.html" ]} ; "2.html" := {[ "1.html" ]} ]}.
Proof. by_evaluation. Qed.

(** The transition model with the damping factor 1 on a page whose only
    link leaves the corpus. *)
Example transition_model_open :
  transition_model corpus_open "A" 1 = Raise ZeroDivisionError.
Proof. by_evaluation. Qed.

(** A page that is no key of [corpus_abc]. *)
Lemma transition_model_KeyError_witness :
  ("Z" ∉ dom corpus_abc)
  ∧ transition_model corpus_abc "Z" DAMPING = Raise KeyError.
Proof.
  split; [by_evaluation|]. apply transition_model_KeyError. by_evaluation.
Defined.

(** The page of [corpus_open], with the damping factor 1. *)
Lemma transition_model_outcome_witness :
  corpus_open !! "A" = Some {[ "Z" ]}
  ∧ ({[ "Z" ]} : gset string) ≠ ∅
  ∧ transition_model corpus_open "A" 1
    = if decide ((1 - 1) + 1 * kept_share corpus_open {[ "Z" ]} = 0)
      then Raise ZeroDivisionError
      else Return
             (remap (λ q _, assigned_probability corpus_open {[ "Z" ]} 1 q
                            / ((1 - 1) + 1 * kept_share corpus_open {[ "Z" ]}))
                corpus_open).
Proof.
  split; [by vm_compute|]. split; [by_evaluation|].
  apply transition_model_outcome; [by vm_compute|by_evaluation].
Defined.

(** The page C of [corpus_abc], with the damping factor of the source. *)
Lemma transition_model_probabilities_witness :
  corpus_wf corpus_abc ∧ 0 ≤ DAMPING ∧ DAMPING ≤ 1 ∧ "C" ∈ dom corpus_abc
  ∧ ∃ pd, transition_model corpus_abc "C" DAMPING = Return pd
      ∧ map_Forall (λ _ v, 0 ≤ v ∧ v ≤ 1) pd.
Proof.
  split; [by_evaluation|]. split; [by vm_compute|]. split; [by vm_compute|].
  split; [by_evaluation|].
  apply transition_model_probabilities;
    [by_evaluation|by vm_compute|by vm_compute|by_evaluation].
Defined.

(** Five samples on [corpus_abc]. *)
Lemma sample_pagerank_frequencies_witness :
  corpus_wf corpus_abc ∧ corpus_abc ≠ ∅ ∧ (0 < 5)%Z ∧ rng_valid zeros
  ∧ ∃ r, sample_pagerank corpus_abc DAMPING 5 zeros = Return r
      ∧ ∀ pg v, r !! pg = Some v →
          ∃ k : nat, (k ≤ Z.to_nat 5)%nat ∧ v = Qc_of_nat k / Qc_of_Z 5.
Proof.
  split; [by_evaluation|]. split; [by_evaluation|]. split; [lia|].
  split; [intros i; split; by vm_compute|].
  apply sample_pagerank_frequencies;
    [by_evaluation|by_evaluation|lia|intros i; split; by vm_compute].
Defined.

(** Five samples on a single page without links. *)
Lemma sample_pagerank_single_page_witness :
  (∅ ⊆@{gset string} {[ "A" ]}) ∧ (0 < 5)%Z ∧ rng_valid zeros
  ∧ sample_pagerank {[ "A" := ∅ ]} DAMPING 5 zeros = Return {[ "A" := 1 ]}.
Proof.
  split; [by_evaluation|]. split; [lia|].
  split; [intros i; split; by vm_compute|].
  apply sample_pagerank_single_page;
    [by_evaluation|lia|intros i; split; by vm_compute].
Defined.



(** The iterative engine on [corpus_abc]. *)
Lemma iterate_pagerank_terminates_witness :
  corpus_abc ≠ ∅ ∧ 0 ≤ DAMPING ∧ DAMPING < 1
  ∧ ∃ (enough : nat) r,
      (∀ fuel, (enough ≤ fuel)%nat →
         iterate_pagerank fuel corpus_abc DAMPING = Some (Return r))
      ∧ dom r = dom corpus_abc ∧ sum_values r = 1
      ∧ map_Forall (λ _ v, 0 < v) r.
Proof.
  split; [by_evaluation|]. split; [by vm_compute|]. split; [by vm_compute|].
  apply iterate_pagerank_terminates; [by_evaluation|by vm_compute..].
Defined.

Lemma iterate_pagerank_default_passes_witness :
  corpus_abc ≠ ∅
  ∧ ∃ r, (∀ fuel, (48 ≤ fuel)%nat →
            iterate_pagerank fuel corpus_abc DAMPING = Some (Return r))
      ∧ dom r = dom corpus_abc ∧ sum_values r = 1
      ∧ map_Forall (λ _ v, 0 < v) r.
Proof.
  split; [by_evaluation|]. apply iterate_pagerank_default_passes.
  by_evaluation.
Defined.

(** The iterative engine on [corpus_cycle], all of whose pages have a
    link. *)
Lemma iterate_pagerank_no_dangling_witness :
  corpus_wf corpus_cycle ∧ no_dangling corpus_cycle ∧ corpus_cycle ≠ ∅
  ∧ 0 ≤ DAMPING ∧ DAMPING < 1
  ∧ (∀ k, sum_values (passes corpus_cycle DAMPING k) = 1)
  ∧ ∃ (enough k : nat), ∀ fuel, (enough ≤ fuel)%nat →
      iterate_pagerank fuel corpus_cycle DAMPING
      = Some (Return (passes corpus_cycle DAMPING (S k))).
Proof.
  split; [by_evaluation|]. split; [by_evaluation|]. split; [by_evaluation|].
  split; [by vm_compute|]. split; [by vm_compute|].
  apply iterate_pagerank_no_dangling;
    [by_evaluation|by_evaluation|by_evaluation|by vm_compute..].
Defined.

(** Two pages without links, with the damping factor 1. *)
Lemma iterate_pagerank_no_links_full_damping_witness :
  corpus_bare ≠ ∅ ∧ map_Forall (λ _ links, links = ∅) corpus_bare
  ∧ iterate_pagerank 2 corpus_bare 1 = Some (Raise ZeroDivisionError).
Proof.
  split; [by_evaluation|]. split; [by_evaluation|].
  apply iterate_pagerank_no_links_full_damping; by_evaluation.
Defined.

(** A single page without links. *)
Lemma iterate_pagerank_single_page_witness :
  0 ≤ DAMPING ∧ DAMPING < 1
  ∧ ∃ enough : nat, ∀ fuel, (enough ≤ fuel)%nat →
      iterate_pagerank fuel {[ "A" := ∅ ]} DAMPING
      = Some (Return {[ "A" := 1 ]}).
Proof.
  split; [by vm_compute|]. split; [by vm_compute|].
  apply iterate_pagerank_single_page; by vm_compute.
Defined.

(** The program on the directory of two pages. *)
Lemma main_report_witness :
  (∃ name, name ∈ site_listdir "corpus" ∧ endswith name ".html" = true)
  ∧ rng_valid zeros ∧ (48 ≤ 48)%nat
  ∧ ∃ pages sampled iterated,
      main site_listdir site_read site_findall site_format 48
        ["pagerank.py"; "corpus"]%list zeros
      = Some ("PageRank Results from Sampling (n = 10000)"
                :: (row site_format sampled <$> pages)
                ++ "PageRank Results from Iteration"
                :: (row site_format iterated <$> pages), Finished)
      ∧ Sorted String.le pages
      ∧ pages ≡ₚ elements (html_names site_listdir "corpus")
      ∧ dom sampled = html_names site_listdir "corpus"
      ∧ sum_values sampled = 1
      ∧ dom iterated = html_names site_listdir "corpus"
      ∧ sum_values iterated = 1.
Proof.
  split; [exists "1.html"; split; [by_evaluation|by vm_compute]|].
  split; [intros i; split; by vm_compute|]. split; [lia|].
  apply main_report;
    [exists "1.html"; split; [by_evaluation|by vm_compute]
    |intros i; split; by vm_compute|lia].
Defined.

(** A run of the program without an argument. *)
Example main_no_argument :
  main site_listdir site_read site_findall site_format 48
    ["pagerank.py"]%list zeros
  = Some ([]%list, SystemExit "Usage: python pagerank.py corpus").
Proof. by vm_compute. Qed.

(** The program on a directory without pages. *)
Lemma main_no_pages_witness :
  (∀ name, name ∈ bare_listdir "corpus" → endswith name ".html" = false)
  ∧ main bare_listdir site_read site_findall site_format 48
      ["pagerank.py"; "corpus"]%list zeros
    = Some ([]%list, Uncaught IndexError).
Proof.
  assert (∀ name, name ∈ bare_listdir "corpus" →
            endswith name ".html" = false) as Hnone.
  { intros name Hname. unfold bare_listdir in Hname.
    repeat (apply elem_of_cons in Hname as [->|Hname]; [by vm_compute|]).
    by apply elem_of_nil in Hname. }
  split; [exact Hnone|]. by apply main_no_pages.
Defined.

(** * The program in binary64

    The properties of the binary64 reading.  They rest on the shape of the
    code alone: on what each loop assigns and on what each step can raise,
    never on a law of arithmetic that rounding would break. *)

Section binary64_properties.
Import binary64.
Context {page : Type} {page_eq_dec : EqDecision page}
  {page_countable : Countable page}.
Implicit Types (corpus : list (page * gset page)) (py : summation).
Implicit Types (pg q : page) (d : float).

(** ** Dictionaries as lists of items *)

Lemma b64_map_fmap {A B} (f : A → B) (l : list A) : map f l = f <$> l.
Proof. done. Qed.

Lemma b64_elem_key {A} (t : list (page * A)) k v : (k, v) ∈ t → k ∈ t.*1.
Proof. intros Hin. apply list_elem_of_fmap. by exists (k, v). Qed.

Lemma b64_getitem_Return {A} (t : list (page * A)) k v :
  getitem t k = Return v → (k, v) ∈ t.
Proof.
  induction t as [|[k' v'] t IH]; [done|]. cbn [getitem].
  destruct (decide (k = k')) as [->|Hk].
  - intros [= ->]. by left.
  - intros Hv. right. by apply IH.
Qed.

Lemma b64_getitem_Raise {A} (t : list (page * A)) k e :
  getitem t k = Raise e → e = KeyError ∧ k ∉ t.*1.
Proof.
  induction t as [|[k' v'] t IH]; cbn [getitem].
  - intros [= <-]. split; [done|]. by intros ?%elem_of_nil.
  - destruct (decide (k = k')) as [->|Hk]; [done|].
    intros [He Hin]%IH. split; [done|].
    rewrite fmap_cons. intros [?|?]%elem_of_cons; [done|by apply Hin].
Qed.

Lemma b64_getitem_elem {A} (t : list (page * A)) k :
  k ∈ t.*1 → ∃ v, getitem t k = Return v.
Proof.
  intros Hk. destruct (getitem t k) as [v|e] eqn:Hg; [by exists v|].
  by apply b64_getitem_Raise in Hg as [_ Hn].
Qed.

Lemma b64_getitem_NoDup {A} (t : list (page * A)) k v :
  NoDup t.*1 → (k, v) ∈ t → getitem t k = Return v.
Proof.
  induction t as [|[k' v'] t IH]; [by intros _ ?%elem_of_nil|].
  rewrite fmap_cons. intros [Hk' Ht]%list.NoDup_cons Hin. cbn [getitem].
  apply elem_of_cons in Hin as [[= -> ->]|Hin].
  - by rewrite decide_True.
  - rewrite decide_False; [by apply IH|].
    intros ->. apply Hk'. apply list_elem_of_fmap. by exists (k', v).
Qed.

Lemma b64_rank_of_NoDup (t : list (page * float)) k v :
  NoDup t.*1 → (k, v) ∈ t → rank_of t k = v.
Proof. intros Ht Hin. unfold rank_of. by rewrite (b64_getitem_NoDup t k v). Qed.

Lemma b64_getitem_rank_of (t : list (page * float)) k :
  k ∈ t.*1 → getitem t k = Return (rank_of t k).
Proof.
  intros [v Hv]%b64_getitem_elem. unfold rank_of. by rewrite Hv.
Qed.

Lemma b64_setitem_keys {A} (t : list (page * A)) k v :
  k ∈ t.*1 → (setitem t k v).*1 = t.*1.
Proof.
  induction t as [|[k' v'] t IH]; [by intros ?%elem_of_nil|].
  rewrite fmap_cons. cbn [setitem]. intros Hk.
  destruct (decide (k = k')) as [->|Hne]; [done|].
  rewrite fmap_cons. f_equal. apply IH.
  by apply elem_of_cons in Hk as [?|?].
Qed.

Lemma b64_setitem_app {A} (t1 t2 : list (page * A)) k v v' :
  k ∉ t1.*1 → setitem (t1 ++ (k, v') :: t2) k v = t1 ++ (k, v) :: t2.
Proof.
  induction t1 as [|[k1 v1] t1 IH]; intros Hk.
  - cbn. by rewrite decide_True.
  - rewrite fmap_cons in Hk. cbn [setitem app].
    rewrite decide_False by (intros ->; apply Hk; by left).
    f_equal. apply IH. intros ?. apply Hk. by right.
Qed.

Lemma b64_keys_map {A B} (h : page * A → B) (t : list (page * A)) :
  (map (λ e, (e.1, h e)) t).*1 = t.*1.
Proof. induction t as [|e t IH]; [done|]. cbn. by rewrite IH. Qed.

(** A loop over the keys of a dictionary that assigns each of them. *)
Lemma b64_for_each_setitem {A} (t : list (page * A)) (h : page → A)
    (body : page → list (page * A) → result (list (page * A))) :
  NoDup t.*1 →
  (∀ k s, k ∈ t.*1 → body k s = Return (setitem s k (h k))) →
  for_each t.*1 body t = Return (map (λ e, (e.1, h e.1)) t).
Proof.
  intros Hnd Hbody.
  cut (∀ t1 t2, t = t1 ++ t2 →
         for_each t2.*1 body (map (λ e, (e.1, h e.1)) t1 ++ t2)
         = Return (map (λ e, (e.1, h e.1)) t)).
  { intros Hcut. by apply (Hcut [] t). }
  intros t1 t2. revert t1. induction t2 as [|[k v] t2 IH]; intros t1 ->.
  { cbn. by rewrite !app_nil_r. }
  rewrite fmap_cons. cbn [for_each].
  rewrite Hbody by (rewrite fmap_app, fmap_cons; set_solver).
  cbn [mbind result_bind]. rewrite b64_setitem_app.
  - rewrite <- (IH (t1 ++ [(k, v)]%list)) by by rewrite <- (assoc_L (++)).
    by rewrite map_app, <- (assoc_L (++)).
  - rewrite (b64_keys_map (λ e, h e.1)). rewrite fmap_app, fmap_cons in Hnd.
    apply list.NoDup_app in Hnd as (_ & Hdis & _).
    intros Hin. apply (Hdis k Hin). by left.
Qed.

Lemma b64_dict_comp_ok {A B} (f : page → A → result B) (g : page → A → B)
    (t : list (page * A)) :
  (∀ k v, (k, v) ∈ t → f k v = Return (g k v)) →
  dict_comp f t = Return (map (λ e, (e.1, g e.1 e.2)) t).
Proof.
  induction t as [|[k v] t IH]; intros Hf; [done|].
  cbn [dict_comp]. rewrite Hf by by left. cbn [mbind result_bind].
  rewrite IH; [done|]. intros k' v' Hin. apply Hf. by right.
Qed.

Lemma b64_dict_comp_keys {A B} (f : page → A → result B) (t : list (page * A))
    t' :
  dict_comp f t = Return t' → t'.*1 = t.*1.
Proof.
  revert t'. induction t as [|[k v] t IH]; intros t'.
  { by intros [= <-]. }
  cbn [dict_comp]. destruct (f k v) as [b|]; [|done].
  cbn [mbind result_bind].
  destruct (dict_comp f t) as [t0|]; [|done]. cbn [mbind result_bind].
  intros [= <-]. rewrite !fmap_cons. f_equal. by apply IH.
Qed.


(** ** The built-in [sum] *)

Lemma b64_all_zero_replicate (l : list float) :
  Forall (λ x, x = 0%float) l → l = replicate (length l) 0%float.
Proof.
  induction 1 as [|x l -> _ IH]; [done|]. cbn. by rewrite <- IH.
Qed.

Lemma b64_sum_plain_zeros (n : nat) : sum_plain (replicate n 0%float) = 0%float.
Proof. unfold sum_plain. induction n as [|n IH]; [done|exact IH]. Qed.

Lemma b64_neumaier_zeros (n : nat) :
  neumaier 0%float 0%float (replicate n 0%float) = 0%float.
Proof. induction n as [|n IH]; [done|exact IH]. Qed.

Lemma b64_sum_zeros py (l : list float) :
  Forall (λ x, x = 0%float) l → sum py l = 0%float.
Proof.
  intros ->%b64_all_zero_replicate. destruct py; cbn [sum].
  - apply b64_sum_plain_zeros.
  - destruct (length l) as [|n]; [done|]. exact (b64_neumaier_zeros n).
Qed.

(** ** The normalisation step *)

(** What the last two steps of the three functions do to a table that is
    not empty. *)
Lemma b64_normalize_outcome py (t : list (page * float)) :
  t ≠ [] →
  normalize py t
  = if (sum py t.*2 =? 0)%float then Raise ZeroDivisionError
    else if (sum py (divided t (sum py t.*2)).*2 =? 1)%float
         then Return (divided t (sum py t.*2))
         else Raise Exception.
Proof.
  intros Ht. unfold normalize.
  destruct (sum py t.*2 =? 0)%float eqn:Hz.
  - destruct t as [|[k v] t]; [done|]. cbn [dict_comp].
    unfold truediv. by rewrite Hz.
  - rewrite (b64_dict_comp_ok _ (λ _ v, (v / sum py t.*2)%float)).
    + cbn [mbind result_bind]. fold (divided t (sum py t.*2)).
      by destruct (sum py (divided t (sum py t.*2)).*2 =? 1)%float.
    + intros k v _. unfold truediv. by rewrite Hz.
Qed.

(** What the normalisation returns has the keys it was given, and values
    that [sum] adds up to exactly 1. *)
Lemma b64_normalize_Return py (t r : list (page * float)) :
  normalize py t = Return r →
  r.*1 = t.*1 ∧ (sum py r.*2 =? 1)%float = true.
Proof.
  unfold normalize.
  destruct (dict_comp _ t) as [t'|] eqn:Ht'; [|done].
  cbn [mbind result_bind].
  destruct (sum py t'.*2 =? 1)%float eqn:Hs; [|done].
  intros [= <-]. split; [by eapply b64_dict_comp_keys|done].
Qed.

Lemma b64_truediv_Raise (x y : float) e :
  truediv x y = Raise e → e = ZeroDivisionError.
Proof. unfold truediv. destruct (y =? 0)%float; congruence. Qed.

Lemma b64_truediv_int_Raise (x : float) (n : nat) e :
  truediv_int x n = Raise e → e = ZeroDivisionError.
Proof. unfold truediv_int. destruct (decide (n = 0%nat)); congruence. Qed.

(** A comprehension raises what its expression raises. *)
Lemma b64_dict_comp_Raise {A B} (f : page → A → result B) (t : list (page * A))
    e :
  dict_comp f t = Raise e → ∃ k v, (k, v) ∈ t ∧ f k v = Raise e.
Proof.
  induction t as [|[k v] t IH]; [done|]. cbn [dict_comp].
  destruct (f k v) as [b|e0] eqn:Hf.
  - cbn [mbind result_bind]. destruct (dict_comp f t) as [t1|e1]; [done|].
    cbn [mbind result_bind]. intros [= ->].
    destruct IH as (k' & v' & Hin & Hf'); [done|].
    exists k', v'. split; [by right|done].
  - cbn [mbind result_bind]. intros [= ->]. exists k, v. split; [by left|done].
Qed.

(** The normalisation raises nothing but [ZeroDivisionError] and
    [Exception]. *)
Lemma b64_normalize_Raise py (t : list (page * float)) e :
  normalize py t = Raise e → e = ZeroDivisionError ∨ e = Exception.
Proof.
  unfold normalize.
  destruct (dict_comp _ t) as [t'|e'] eqn:Ht'.
  - cbn [mbind result_bind]. destruct (sum py t'.*2 =? 1)%float; [done|].
    cbn [negb]. intros [= <-]. by right.
  - cbn [mbind result_bind]. intros [= ->]. left.
    apply b64_dict_comp_Raise in Ht' as (k & v & _ & Hd).
    by apply b64_truediv_Raise in Hd.
Qed.

(** ** The transition model *)

Lemma b64_length_ne_0 {A} (t : list A) x : x ∈ t → length t ≠ 0%nat.
Proof. by destruct t; [intros ?%elem_of_nil|]. Qed.

Lemma b64_uniform_init corpus :
  dict_comp (λ _ _, truediv_int 1 (length corpus)) corpus
  = Return (initial_ranks corpus).
Proof.
  apply (b64_dict_comp_ok _ (λ _ _, (1 / of_nat (length corpus))%float)).
  intros k v Hin. unfold truediv_int.
  by rewrite decide_False by by eapply b64_length_ne_0.
Qed.

Lemma b64_transition_model_missing py corpus pg d :
  pg ∉ corpus.*1 → transition_model py corpus pg d = Raise KeyError.
Proof.
  intros Hpg. unfold transition_model. rewrite b64_uniform_init.
  cbn [mbind result_bind].
  destruct (getitem corpus pg) as [links|e] eqn:Hg.
  - apply b64_getitem_Return in Hg. exfalso. apply Hpg.
    apply list_elem_of_fmap. by exists (pg, links).
  - by apply b64_getitem_Raise in Hg as [-> _].
Qed.

Lemma b64_transition_model_dangling py corpus pg d links :
  NoDup corpus.*1 → (pg, links) ∈ corpus → links = ∅ →
  transition_model py corpus pg d = Return (initial_ranks corpus).
Proof.
  intros Hnd Hpg ->. unfold transition_model. rewrite b64_uniform_init.
  cbn [mbind result_bind]. rewrite (b64_getitem_NoDup corpus pg ∅) by done.
  cbn [mbind result_bind]. by rewrite decide_True by apply size_empty.
Qed.

Lemma b64_transition_model_links py corpus pg d links :
  NoDup corpus.*1 → (pg, links) ∈ corpus → links ≠ ∅ →
  transition_model py corpus pg d = normalize py (assigned corpus links d).
Proof.
  intros Hnd Hpg Hlinks. unfold transition_model. rewrite b64_uniform_init.
  cbn [mbind result_bind]. rewrite (b64_getitem_NoDup corpus pg links) by done.
  cbn [mbind result_bind].
  assert (size links ≠ 0%nat) as Hs by by intros ?%size_empty_inv%leibniz_equiv.
  rewrite decide_False by done. unfold truediv_int.
  rewrite !decide_False by (done || by eapply b64_length_ne_0).
  cbn [mbind result_bind].
  rewrite (b64_for_each_setitem _
    (λ q, if decide (q ∈ links)
          then (d / of_nat (size links) + (1 - d) / of_nat (length corpus))%float
          else ((1 - d) / of_nat (length corpus))%float)).
  - cbn [mbind result_bind]. f_equal. unfold initial_ranks, assigned.
    rewrite map_map. done.
  - unfold initial_ranks. by rewrite (b64_keys_map (λ _, _)).
  - intros k s _. by destruct (decide (k ∈ links)).
Qed.

(** ** Loops that may raise *)

Lemma b64_for_each_Raise {X S} (l : list X) (body : X → S → result S) (s : S) e :
  for_each l body s = Raise e → ∃ x s', x ∈ l ∧ body x s' = Raise e.
Proof.
  revert s. induction l as [|x l IH]; intros s; [done|]. cbn [for_each].
  destruct (body x s) as [s1|e1] eqn:Hb.
  - cbn [mbind result_bind]. intros (x' & s' & Hin & Hb')%IH.
    exists x', s'. split; [by right|done].
  - cbn [mbind result_bind]. intros [= ->]. exists x, s. split; [by left|done].
Qed.

Lemma b64_for_each_fold {X S} (l : list X) (body : X → S → result S)
    (f : S → X → S) (s : S) :
  (∀ x s', x ∈ l → body x s' = Return (f s' x)) →
  for_each l body s = Return (fold_left f l s).
Proof.
  revert s. induction l as [|x l IH]; intros s Hb; [done|].
  cbn [for_each fold_left]. rewrite Hb by by left. cbn [mbind result_bind].
  apply IH. intros x' s' Hin. apply Hb. by right.
Qed.

(** ** The iterative engine *)

Lemma b64_second_condition_sum_ok corpus (previous : list (page * float)) pg :
  corpus.*1 ⊆ previous.*1 →
  second_condition_sum corpus previous pg
  = Return (incoming_rank corpus previous pg).
Proof.
  intros Hsub. unfold second_condition_sum, incoming_rank.
  apply b64_for_each_fold. intros [p links] acc Hin. cbn [fst snd].
  destruct (decide (pg ∈ links)) as [Hpg|]; [|done].
  rewrite (b64_getitem_rank_of previous).
  2:{ apply Hsub. by eapply b64_elem_key. }
  cbn [mbind result_bind]. unfold truediv_int.
  rewrite decide_False; [done|].
  intros Hs. apply size_empty_inv in Hs. set_solver.
Qed.

Lemma b64_second_condition_sum_Raise corpus (previous : list (page * float)) pg e :
  second_condition_sum corpus previous pg = Raise e →
  e = KeyError ∨ e = ZeroDivisionError.
Proof.
  intros ([p links] & acc & _ & Hb)%b64_for_each_Raise.
  destruct (decide (pg ∈ links)); [|done].
  destruct (getitem previous p) as [r|e1] eqn:Hg.
  - cbn [mbind result_bind] in Hb.
    destruct (truediv_int r (size links)) as [x|e2] eqn:Hd; [done|].
    cbn [mbind result_bind] in Hb. injection Hb as ->.
    right. by eapply b64_truediv_int_Raise.
  - cbn [mbind result_bind] in Hb. injection Hb as ->.
    left. by apply b64_getitem_Raise in Hg as [-> _].
Qed.

Lemma b64_update_pass_ok corpus d first (previous page_rank : list (page * float)) :
  NoDup page_rank.*1 → corpus.*1 ⊆ previous.*1 →
  update_pass corpus d first previous page_rank
  = Return (map (λ e, (e.1, (first + d * incoming_rank corpus previous e.1)
                              %float)) page_rank).
Proof.
  intros Hnd Hsub. unfold update_pass.
  apply (b64_for_each_setitem _
           (λ q, (first + d * incoming_rank corpus previous q)%float));
    [done|].
  intros k s _. by rewrite b64_second_condition_sum_ok.
Qed.

Lemma b64_update_pass_Raise corpus d first (previous page_rank : list (page * float))
    e :
  update_pass corpus d first previous page_rank = Raise e →
  e = KeyError ∨ e = ZeroDivisionError.
Proof.
  intros (pg & s & _ & Hb)%b64_for_each_Raise.
  destruct (second_condition_sum corpus previous pg) as [x|e1] eqn:Hs; [done|].
  cbn [mbind result_bind] in Hb. injection Hb as ->.
  by eapply b64_second_condition_sum_Raise.
Qed.

Lemma b64_changed_count_Raise (previous page_rank : list (page * float)) e :
  changed_count previous page_rank = Raise e → e = KeyError.
Proof.
  intros (pg & s & _ & Hb)%b64_for_each_Raise.
  destruct (getitem previous pg) as [old|e1] eqn:Ho.
  - cbn [mbind result_bind] in Hb.
    destruct (getitem page_rank pg) as [new|e2] eqn:Hn.
    + cbn [mbind result_bind] in Hb.
      by destruct (threshold <? abs (old - new))%float.
    + cbn [mbind result_bind] in Hb. injection Hb as ->.
      by apply b64_getitem_Raise in Hn as [-> _].
  - cbn [mbind result_bind] in Hb. injection Hb as ->.
    by apply b64_getitem_Raise in Ho as [-> _].
Qed.

Lemma b64_changed_count_ok (previous page_rank : list (page * float)) :
  NoDup page_rank.*1 → page_rank.*1 ⊆ previous.*1 →
  ∃ count, changed_count previous page_rank = Return count
    ∧ (count = 0%nat ↔ converged previous page_rank).
Proof.
  intros Hnd Hsub. unfold changed_count, converged.
  cut (∀ (l : list (page * float)) (c : nat), l ⊆ page_rank →
         ∃ count, for_each l.*1 (λ pg count,
                      old ← getitem previous pg;
                      new ← getitem page_rank pg;
                      if (threshold <? abs (old - new))%float
                      then Return (S count) else Return count) c
                  = Return count
           ∧ (c ≤ count)%nat
           ∧ (count = c
              ↔ Forall (λ e, (threshold <? abs (rank_of previous e.1 - e.2))
                               %float = false) l)).
  { intros Hcut.
    destruct (Hcut page_rank 0%nat (reflexivity _)) as (count & Hc & _ & Hiff).
    by exists count. }
  induction l as [|[k v] l IH]; intros c Hl.
  { exists c. split; [done|]. split; [done|]. by split. }
  rewrite fmap_cons. cbn [for_each fst].
  assert ((k, v) ∈ page_rank) as Hkv by (apply Hl; by left).
  assert (l ⊆ page_rank) as Hl' by (intros e He; apply Hl; by right).
  rewrite (b64_getitem_rank_of previous).
  2:{ apply Hsub. by eapply b64_elem_key. }
  cbn [mbind result_bind]. rewrite (b64_getitem_NoDup page_rank k v) by done.
  cbn [mbind result_bind].
  destruct (threshold <? abs (rank_of previous k - v))%float eqn:Hmove.
  - cbn [mbind result_bind].
    destruct (IH (S c) Hl') as (count & Hc & Hle & _).
    exists count. split; [done|]. split; [lia|]. split; [lia|].
    intros Hall. apply list.Forall_cons in Hall as [Hk _]. cbn [fst snd] in Hk.
    congruence.
  - cbn [mbind result_bind].
    destruct (IH c Hl') as (count & Hc & Hle & Hiff).
    exists count. split; [done|]. split; [done|].
    rewrite Hiff, list.Forall_cons. cbn [fst snd]. naive_solver.
Qed.

Lemma b64_keys_pass corpus d first (previous : list (page * float)) :
  (pass corpus d first previous).*1 = previous.*1.
Proof. unfold pass. apply (b64_keys_map (λ e, _)). Qed.

Lemma b64_keys_initial_ranks corpus : (initial_ranks corpus).*1 = corpus.*1.
Proof. unfold initial_ranks. apply (b64_keys_map (λ e, _)). Qed.

Lemma b64_keys_after_passes corpus d first k (x : list (page * float)) :
  (after_passes corpus d first k x).*1 = x.*1.
Proof.
  revert x. induction k as [|k IH]; intros x; [done|].
  cbn [after_passes]. by rewrite IH, b64_keys_pass.
Qed.

Lemma b64_iterate_loop_step fuel corpus d first (page_rank : list (page * float)) :
  NoDup corpus.*1 → page_rank.*1 = corpus.*1 →
  iterate_loop (S fuel) corpus d first page_rank
  = if decide (converged page_rank (pass corpus d first page_rank))
    then Some (Return (pass corpus d first page_rank))
    else iterate_loop fuel corpus d first (pass corpus d first page_rank).
Proof.
  intros Hnd Hkeys. cbn [iterate_loop].
  rewrite b64_update_pass_ok by by rewrite Hkeys.
  fold (pass corpus d first page_rank).
  destruct (b64_changed_count_ok page_rank (pass corpus d first page_rank))
    as (count & -> & Hcount); [by rewrite b64_keys_pass, Hkeys
                              |by rewrite b64_keys_pass|].
  destruct (decide (count = 0%nat)) as [Hc|Hc].
  - by rewrite decide_True by by apply Hcount.
  - rewrite decide_False; [done|]. by rewrite <- Hcount.
Qed.

Lemma b64_iterate_loop_spec fuel corpus d first (page_rank : list (page * float))
    r :
  NoDup corpus.*1 → page_rank.*1 = corpus.*1 →
  iterate_loop fuel corpus d first page_rank = Some r
  ↔ ∃ k, (k < fuel)%nat
      ∧ converged (after_passes corpus d first k page_rank)
                  (after_passes corpus d first (S k) page_rank)
      ∧ (∀ j, (j < k)%nat →
           ¬ converged (after_passes corpus d first j page_rank)
                       (after_passes corpus d first (S j) page_rank))
      ∧ r = Return (after_passes corpus d first (S k) page_rank).
Proof.
  intros Hnd. revert page_rank.
  induction fuel as [|fuel IH]; intros page_rank Hkeys.
  { cbn [iterate_loop]. split; [done|]. intros (k & ? & _). lia. }
  rewrite b64_iterate_loop_step by done.
  destruct (decide (converged page_rank (pass corpus d first page_rank)))
    as [Hc|Hc].
  - split.
    + intros [= <-]. exists 0%nat. repeat split; [lia|done|]. intros; lia.
    + intros (k & _ & _ & Hfirst & Hr). destruct k as [|k]; [by subst r|].
      destruct (Hfirst 0%nat); [lia|done].
  - rewrite IH by by rewrite b64_keys_pass. split.
    + intros (k & Hk & Hconv & Hfirst & Hr). exists (S k).
      repeat split; [lia|done| |done].
      intros [|j] Hj; [done|]. apply (Hfirst j). lia.
    + intros (k & Hk & Hconv & Hfirst & Hr). destruct k as [|k]; [done|].
      exists k. repeat split; [lia|done| |done].
      intros j Hj. apply (Hfirst (S j)). lia.
Qed.

Lemma b64_iterate_pagerank_nonempty py fuel corpus d :
  corpus ≠ [] →
  iterate_pagerank py fuel corpus d
  = match iterate_loop fuel corpus d (first_term corpus d)
            (initial_ranks corpus) with
    | None => None
    | Some (Raise e) => Some (Raise e)
    | Some (Return page_rank) => Some (normalize py page_rank)
    end.
Proof.
  intros Hne. unfold iterate_pagerank. rewrite b64_uniform_init.
  cbn [mbind result_bind]. unfold truediv_int.
  assert (length (initial_ranks corpus) = length corpus) as ->
    by (unfold initial_ranks; by rewrite length_map).
  rewrite decide_False; [done|]. by destruct corpus.
Qed.

Lemma b64_iterate_pagerank_empty py fuel d :
  iterate_pagerank py fuel ([] : list (page * gset page)) d
  = Some (Raise ZeroDivisionError).
Proof. done. Qed.

Lemma b64_iterate_loop_Raise fuel corpus d first (page_rank : list (page * float))
    e :
  iterate_loop fuel corpus d first page_rank = Some (Raise e) →
  e = KeyError ∨ e = ZeroDivisionError.
Proof.
  revert page_rank. induction fuel as [|fuel IH]; intros page_rank; [done|].
  cbn [iterate_loop].
  destruct (update_pass _ _ _ _ _) as [new|e1] eqn:Hu.
  - destruct (changed_count page_rank new) as [count|e2] eqn:Hc.
    + destruct (decide (count = 0%nat)); [done|]. apply IH.
    + intros [= ->]. left. by eapply b64_changed_count_Raise.
  - intros [= ->]. by eapply b64_update_pass_Raise.
Qed.

Lemma b64_iterate_pagerank_Raise py fuel corpus d e :
  iterate_pagerank py fuel corpus d = Some (Raise e) →
  e = KeyError ∨ e = ZeroDivisionError ∨ e = Exception.
Proof.
  unfold iterate_pagerank.
  destruct (dict_comp _ corpus) as [page_rank|e1] eqn:Hc.
  - cbn [mbind result_bind].
    destruct (truediv_int _ (length page_rank)) as [first|e2] eqn:Hf.
    + cbn [mbind result_bind].
      destruct (iterate_loop _ _ _ _ _) as [[r|e3]|] eqn:Hl; [| |done].
      * intros [= Hn]. apply b64_normalize_Raise in Hn as [->| ->]; auto.
      * intros [= ->]. apply b64_iterate_loop_Raise in Hl as [->| ->]; auto.
    + cbn [mbind result_bind]. intros [= ->]. right. left.
      by eapply b64_truediv_int_Raise.
  - cbn [mbind result_bind]. intros [= ->]. right. left.
    apply b64_dict_comp_Raise in Hc as (k & v & _ & Hd).
    by eapply b64_truediv_int_Raise.
Qed.

Lemma b64_transition_model_Raise py corpus pg d e :
  transition_model py corpus pg d = Raise e →
  e = KeyError ∨ e = ZeroDivisionError ∨ e = Exception.
Proof.
  unfold transition_model.
  destruct (dict_comp _ corpus) as [pd|e1] eqn:Hc.
  2:{ cbn [mbind result_bind]. intros [= ->]. right. left.
      apply b64_dict_comp_Raise in Hc as (k & v & _ & Hd).
      by eapply b64_truediv_int_Raise. }
  cbn [mbind result_bind].
  destruct (getitem corpus pg) as [links|e2] eqn:Hg.
  2:{ cbn [mbind result_bind]. intros [= ->]. left.
      by apply b64_getitem_Raise in Hg as [-> _]. }
  cbn [mbind result_bind].
  destruct (decide (size links = 0%nat)); [done|].
  destruct (truediv_int d (size links)) as [lp|e3] eqn:Hl.
  2:{ cbn [mbind result_bind]. intros [= ->]. right. left.
      by eapply b64_truediv_int_Raise. }
  cbn [mbind result_bind].
  destruct (truediv_int (1 - d)%float (length corpus)) as [dp|e4] eqn:Hd.
  2:{ cbn [mbind result_bind]. intros [= ->]. right. left.
      by eapply b64_truediv_int_Raise. }
  cbn [mbind result_bind].
  destruct (for_each _ _ pd) as [pd'|e5] eqn:Hf.
  - cbn [mbind result_bind]. intros [->| ->]%b64_normalize_Raise; auto.
  - apply b64_for_each_Raise in Hf as (q & s & _ & Hb).
    by destruct (decide (q ∈ links)).
Qed.

(** ** The [random] module *)

Lemma b64_random_choice_ok {A} (seq : list A) (g : rng) :
  seq ≠ [] →
  ∃ a, random_choice seq g = Return (a, (next g).2) ∧ a ∈ seq.
Proof.
  intros Hne. unfold random_choice.
  assert (length seq ≠ 0%nat) as Hn by by destruct seq.
  rewrite decide_False by done.
  destruct (lookup_lt_is_Some_2 seq
              (integer (next g).1 `mod` length seq)%nat) as [a Ha].
  { by apply Nat.mod_upper_bound. }
  unfold list_getitem. rewrite Ha. cbn [mbind result_bind].
  exists a. split; [done|]. by eapply list_elem_of_lookup_2.
Qed.

Lemma b64_length_accumulate_from acc (l : list float) :
  length (accumulate_from acc l) = length l.
Proof. revert acc. induction l as [|w l IH]; intros acc; cbn; auto. Qed.

Lemma b64_length_accumulate (l : list float) : length (accumulate l) = length l.
Proof. destruct l; cbn; [done|]. by rewrite b64_length_accumulate_from. Qed.

Lemma b64_bisect_loop_bounds turns (a : list float) x lo hi :
  (lo ≤ hi)%nat → (hi < length a)%nat →
  ∃ i, bisect_loop turns a x lo hi = Return i ∧ (lo ≤ i ≤ hi)%nat.
Proof.
  revert lo hi. induction turns as [|turns IH]; intros lo hi Hle Hhi.
  { exists lo. split; [done|lia]. }
  cbn [bisect_loop]. destruct (decide (lo < hi)%nat) as [Hlt|Hge];
    [|exists lo; split; [done|lia]].
  assert (lo ≤ (lo + hi) `div` 2 ∧ (lo + hi) `div` 2 < hi)%nat as [Hm1 Hm2].
  { split.
    - apply Nat.div_le_lower_bound; lia.
    - apply Nat.Div0.div_lt_upper_bound; lia. }
  destruct (lookup_lt_is_Some_2 a ((lo + hi) `div` 2)) as [am Ham]; [lia|].
  unfold list_getitem. rewrite Ham. cbn [mbind result_bind].
  destruct (x <? am)%float.
  - destruct (IH lo ((lo + hi) `div` 2)%nat) as (i & -> & Hi); [lia..|].
    exists i. split; [done|lia].
  - destruct (IH ((lo + hi) `div` 2 + 1)%nat hi) as (i & -> & Hi); [lia..|].
    exists i. split; [done|lia].
Qed.

(** A weighted draw returns a member of the population, or rejects the
    total of the weights. *)
Lemma b64_random_choices_outcome {A} (population : list A) (weights : list float)
    g :
  length weights = length population → population ≠ [] →
  (∃ a, random_choices population weights g = Return ([a]%list, (next g).2)
     ∧ a ∈ population)
  ∨ random_choices population weights g = Raise ValueError.
Proof.
  intros Hlen Hne. unfold random_choices.
  rewrite decide_False
    by (rewrite b64_length_accumulate, Hlen; intros Hn; by apply Hn).
  assert (length population ≠ 0%nat) as Hn by by destruct population.
  destruct (list.last (accumulate weights)) as [last|] eqn:Hlast.
  2:{ apply last_None in Hlast.
      apply (f_equal length) in Hlast. rewrite b64_length_accumulate in Hlast.
      cbn in Hlast. lia. }
  unfold list_getlast. rewrite Hlast. cbn [mbind result_bind].
  destruct (last + 0 <=? 0)%float; [by right|].
  destruct (PrimFloat.is_finite (last + 0)); [|by right]. cbn [negb].
  destruct (b64_bisect_loop_bounds (length population - 1 - 0)
              (accumulate weights)
              (variate (next g).1 * (last + 0))%float
              0 (length population - 1)) as (i & Hi & Hbound).
  { lia. } { rewrite b64_length_accumulate. lia. }
  unfold bisect. rewrite Hi. cbn [mbind result_bind].
  destruct (lookup_lt_is_Some_2 population i) as [a Ha]; [lia|].
  unfold list_getitem. rewrite Ha. cbn [mbind result_bind].
  left. exists a. split; [done|]. by eapply list_elem_of_lookup_2.
Qed.

(** ** The sampling engine *)

(** On a dictionary, the transition model of a page of the corpus returns
    a table over the pages of the corpus, or fails in its normalisation. *)
Lemma b64_transition_model_on_page py corpus pg d :
  NoDup corpus.*1 → pg ∈ corpus.*1 →
  (∃ pd, transition_model py corpus pg d = Return pd ∧ pd.*1 = corpus.*1)
  ∨ transition_model py corpus pg d = Raise ZeroDivisionError
  ∨ transition_model py corpus pg d = Raise Exception.
Proof.
  intros Hnd [links Hg]%b64_getitem_elem. apply b64_getitem_Return in Hg.
  destruct (decide (links = ∅)) as [Hl|Hl].
  - left. exists (initial_ranks corpus).
    split; [by eapply b64_transition_model_dangling|apply b64_keys_initial_ranks].
  - rewrite (b64_transition_model_links py corpus pg d links) by done.
    destruct (normalize py (assigned corpus links d)) as [pd|e] eqn:Hn.
    + left. exists pd. split; [done|].
      apply b64_normalize_Return in Hn as [-> _]. unfold assigned.
      apply (b64_keys_map (λ e, _)).
    + apply b64_normalize_Raise in Hn as [->| ->]; auto.
Qed.


Lemma b64_zero_counts corpus :
  dict_comp (λ _ _, Return 0%nat) corpus
  = Return (map (λ e, (e.1, 0%nat)) corpus).
Proof. by apply (b64_dict_comp_ok _ (λ _ _, 0%nat)). Qed.


(** Without a sample the engine divides by the zero total. *)
Lemma b64_sample_pagerank_nonpositive py corpus d (n : Z) g :
  corpus ≠ [] → (n ≤ 0)%Z →
  sample_pagerank py corpus d n g = Raise ZeroDivisionError.
Proof.
  intros Hne Hn. unfold sample_pagerank.
  destruct (b64_random_choice_ok corpus.*1 g) as (start & -> & _).
  { by destruct corpus. }
  cbn [mbind result_bind]. rewrite b64_zero_counts. cbn [mbind result_bind].
  replace (Z.to_nat n) with 0%nat by lia. cbn [sample_loop mbind result_bind].
  rewrite (b64_dict_comp_ok _ (λ _ _, 0%float)).
  2:{ intros k v Hin. rewrite b64_map_fmap in Hin.
      by apply list_elem_of_fmap in Hin as (e & [= -> ->] & _). }
  cbn [mbind result_bind]. rewrite map_map. cbn [fst snd].
  rewrite b64_normalize_outcome by by destruct corpus.
  rewrite b64_sum_zeros; [done|].
  clear. induction corpus as [|e corpus IH]; by constructor.
Qed.

Lemma b64_sample_pagerank_empty py d (n : Z) g :
  sample_pagerank py ([] : list (page * gset page)) d n g = Raise IndexError.
Proof. done. Qed.


(** ** The outcomes of the three functions *)

Lemma b64_not_InvalidArgument {A} (r : result A) :
  r ≠ Raise ValueError → ¬ fails_with InvalidArgument r.
Proof. intros Hr (e & -> & He). by destruct e. Qed.

(** X2.  In binary64, for a page with outbound links of a corpus that is a
    dictionary, the transition model raises [ZeroDivisionError] when [sum]
    gives zero for the values its loop assigned; otherwise it divides them
    by that total, and returns them when [sum] gives exactly 1 for the
    quotients and raises [Exception] when it does not. *)
Theorem transition_model_binary64_outcome py corpus pg d links :
  NoDup corpus.*1 → (pg, links) ∈ corpus → links ≠ ∅ →
  transition_model py corpus pg d
  = if (sum py (assigned corpus links d).*2 =? 0)%float
    then Raise ZeroDivisionError
    else if (sum py (divided (assigned corpus links d)
                       (sum py (assigned corpus links d).*2)).*2 =? 1)%float
         then Return (divided (assigned corpus links d)
                        (sum py (assigned corpus links d).*2))
         else Raise Exception.
Proof.
  intros Hnd Hpg Hlinks.
  rewrite (b64_transition_model_links py corpus pg d links) by done.
  apply b64_normalize_outcome. by destruct corpus; [apply elem_of_nil in Hpg|].
Qed.


Lemma b64_setitem_count (t : list (page * nat)) k c :
  getitem t k = Return c →
  sum_list (setitem t k (c + 1)%nat).*2 = S (sum_list t.*2).
Proof.
  induction t as [|[k' v'] t IH]; [done|]. cbn [getitem setitem].
  destruct (decide (k = k')) as [->|Hne].
  - intros [= ->]. cbn. lia.
  - intros Hg. cbn. rewrite IH by done. lia.
Qed.

Lemma b64_sample_loop_counts py i corpus d start
    (page_rank counts : list (page * nat)) g :
  NoDup corpus.*1 → start ∈ corpus.*1 → page_rank.*1 = corpus.*1 →
  sample_loop py i corpus d start page_rank g = Return counts →
  counts.*1 = corpus.*1
  ∧ sum_list counts.*2 = (sum_list page_rank.*2 + i)%nat.
Proof.
  intros Hnd. revert start page_rank g.
  induction i as [|i IH]; intros start page_rank g Hstart Hkeys.
  { intros [= <-]. split; [done|lia]. }
  cbn [sample_loop].
  destruct (b64_transition_model_on_page py corpus start d Hnd Hstart)
    as [(pd & -> & Hpd)|[-> | ->]]; [|done..].
  cbn [mbind result_bind].
  destruct (b64_random_choices_outcome pd.*1 pd.*2 g) as [(a & -> & Ha)| ->];
    [by rewrite !length_fmap| |cbn [mbind result_bind]|done].
  { intros Hnil. rewrite Hpd in Hnil. rewrite Hnil in Hstart.
    by apply elem_of_nil in Hstart. }
  unfold list_getitem. cbn [lookup list_lookup mbind result_bind].
  rewrite Hpd in Ha.
  destruct (b64_getitem_elem page_rank a) as [count Hcount];
    [by rewrite Hkeys|].
  rewrite Hcount. cbn [mbind result_bind]. intros Hloop.
  apply IH in Hloop as [Hk Hs]; [|done|].
  - split; [done|]. rewrite Hs, (b64_setitem_count _ _ _ Hcount). lia.
  - rewrite b64_setitem_keys; [done|by rewrite Hkeys].
Qed.

Lemma b64_frequencies_ok (counts : list (page * nat)) (n : Z) :
  n ≠ 0%Z →
  dict_comp (λ _ count, frequency count n) counts
  = Return (frequencies counts n).
Proof.
  intros Hn. unfold frequencies.
  induction counts as [|[k c] counts IH]; [done|].
  cbn [dict_comp map]. rewrite IH. unfold frequency. cbn [fst snd].
  destruct (decide (0 < c)%nat); [|done]. by rewrite decide_False.
Qed.

(** X4.  In binary64, on a corpus that is a dictionary: when the sampling
    engine returns, the number [n] of samples is positive and every page
    has a count of samples, the counts adding up to [n], such that the
    rank of the page is its frequency, the count divided by [n], divided
    again by the total [sum] gives for the frequencies; and [sum] gives
    exactly 1 for the ranks. *)
Theorem sample_pagerank_binary64_frequencies py corpus d (n : Z) g r :
  NoDup corpus.*1 →
  sample_pagerank py corpus d n g = Return r →
  (0 < n)%Z
  ∧ ∃ counts : list (page * nat),
      counts.*1 = corpus.*1
      ∧ sum_list counts.*2 = Z.to_nat n
      ∧ r = divided (frequencies counts n) (sum py (frequencies counts n).*2)
      ∧ (sum py r.*2 =? 1)%float = true.
Proof.
  intros Hnd Hr.
  assert (corpus ≠ []) as Hne.
  { intros ->. by rewrite b64_sample_pagerank_empty in Hr. }
  assert (0 < n)%Z as Hn.
  { destruct (decide (0 < n)%Z) as [|Hle]; [done|].
    rewrite b64_sample_pagerank_nonpositive in Hr by (done || lia). done. }
  split; [done|]. revert Hr. unfold sample_pagerank.
  destruct (b64_random_choice_ok corpus.*1 g) as (start & -> & Hstart).
  { by destruct corpus. }
  cbn [mbind result_bind]. rewrite b64_zero_counts. cbn [mbind result_bind].
  destruct (sample_loop py (Z.to_nat n) corpus d start
              (map (λ e, (e.1, 0%nat)) corpus) (next g).2)
    as [counts|e] eqn:Hloop; [|done].
  cbn [mbind result_bind].
  apply b64_sample_loop_counts in Hloop as [Hkeys Hsum];
    [|done|done|apply (b64_keys_map (λ _, 0%nat))].
  rewrite b64_frequencies_ok by lia. cbn [mbind result_bind].
  intros Hnorm. exists counts. split; [done|]. split.
  { rewrite Hsum. clear. induction corpus as [|e corpus IH]; [done|].
    cbn. cbn in IH. lia. }
  pose proof (b64_normalize_Return _ _ _ Hnorm) as [_ Hone].
  split; [|done].
  rewrite b64_normalize_outcome in Hnorm.
  - destruct (sum py (frequencies counts n).*2 =? 0)%float; [done|].
    destruct (sum py (divided _ _).*2 =? 1)%float; congruence.
  - unfold frequencies. intros Hnil. apply (f_equal length) in Hnil.
    rewrite length_map in Hnil. apply (f_equal length) in Hkeys.
    rewrite !length_fmap in Hkeys. destruct corpus; [done|]. cbn in *. lia.
Qed.

(** C5, as the code has it.  No argument is validated.  On a corpus that is
    not empty, a sample count [n ≤ 0] makes the sampling engine raise
    [ZeroDivisionError], which is no invalid-argument condition; and
    whatever the damping factor, 0 and 1 included, neither the transition
    model nor the iterative engine fails with an invalid-argument
    condition. *)
Theorem boundary_arguments_unchecked py corpus (g : rng) :
  corpus ≠ [] →
  (∀ d n, (n ≤ 0)%Z →
     sample_pagerank py corpus d n g = Raise ZeroDivisionError
     ∧ ¬ fails_with InvalidArgument (sample_pagerank py corpus d n g))
  ∧ (∀ d pg, ¬ fails_with InvalidArgument (transition_model py corpus pg d))
  ∧ (∀ d fuel r, iterate_pagerank py fuel corpus d = Some r →
       ¬ fails_with InvalidArgument r).
Proof.
  intros Hne. split; [|split].
  - intros d n Hn. rewrite b64_sample_pagerank_nonpositive by done.
    split; [done|]. by apply b64_not_InvalidArgument.
  - intros d pg. apply b64_not_InvalidArgument. intros Hr.
    by apply b64_transition_model_Raise in Hr as [?|[?|?]].
  - intros d fuel r Hr. apply b64_not_InvalidArgument. intros ->.
    by apply b64_iterate_pagerank_Raise in Hr as [?|[?|?]].
Qed.

(** C6, as the code has it.  The iterative engine has no iteration cap and
    no convergence failure: on a corpus that is not empty it produces an
    outcome within [fuel] passes exactly when one of these passes is the
    first to move no rank by more than the threshold, whatever its number;
    the outcome is then that of the normalisation of the ranks of that
    pass. *)
Theorem iterate_pagerank_first_convergence py fuel corpus d r :
  NoDup corpus.*1 → corpus ≠ [] →
  iterate_pagerank py fuel corpus d = Some r
  ↔ ∃ k, (k < fuel)%nat ∧ first_converged_at corpus d k
      ∧ r = normalize py (passes corpus d (S k)).
Proof.
  intros Hnd Hne. rewrite b64_iterate_pagerank_nonempty by done.
  unfold first_converged_at, passes. split.
  - destruct (iterate_loop _ _ _ _ _) as [r0|] eqn:Hloop; [|done].
    apply b64_iterate_loop_spec in Hloop as (k & Hk & Hconv & Hfirst & ->);
      [|done|apply b64_keys_initial_ranks].
    intros [= <-]. by exists k.
  - intros (k & Hk & [Hconv Hfirst] & ->).
    assert (iterate_loop fuel corpus d (first_term corpus d)
              (initial_ranks corpus)
            = Some (Return (after_passes corpus d (first_term corpus d) (S k)
                              (initial_ranks corpus)))) as ->; [|done].
    apply b64_iterate_loop_spec; [done|apply b64_keys_initial_ranks|]. by exists k.
Qed.

End binary64_properties.

(** * The program in binary64 at concrete inputs *)

(** C1 fails on the code.  With the damping factor 0.5, the transition
    model of the page A of the corpus [{A: {B}, B: {}, C: {A, B}}] ends in
    the [Exception] of its sum check under the left-to-right [sum]: the
    normalised values add up to 1.0000000000000002.  On twelve pages of
    which the first links to the second it ends so under either [sum]. *)
Theorem transition_model_sum_check_fires :
  binary64.transition_model binary64.plain binary64.corpus_abc "A" 0.5
  = Raise Exception
  ∧ ∀ py, binary64.transition_model py binary64.corpus_one_link "01" 0.5
          = Raise Exception.
Proof. split; [by vm_compute|]. intros []; by vm_compute. Qed.

(** C3 fails on the code.  The damping factor 0.85 lies strictly between 0
    and 1, and on eleven pages of which the first links to seven others the
    transition model returns no distribution for the first page: it ends in
    the [Exception] of its sum check, under either [sum].  So it does with
    the damping factor 0.5 for the page A of [{A: {B}, B: {}, C: {A, B}}],
    under the left-to-right [sum]. *)
Theorem transition_model_returns_no_distribution :
  ((0 <? binary64.DAMPING)%float = true
   ∧ (binary64.DAMPING <? 1)%float = true
   ∧ ∀ py, binary64.transition_model py binary64.corpus_fan "01"
             binary64.DAMPING
           = Raise Exception)
  ∧ ((0 <? 0.5)%float = true
     ∧ (0.5 <? 1)%float = true
     ∧ binary64.transition_model binary64.plain binary64.corpus_abc "A" 0.5
       = Raise Exception).
Proof.
  split; (split; [by vm_compute|]; split; [by vm_compute|]).
  - intros []; by vm_compute.
  - by vm_compute.
Qed.



(** C5 fails on the code.  The sample count 0 ends in [ZeroDivisionError],
    which is no invalid-argument condition.  The damping factors 0 and 1
    are accepted: with them the transition model returns a distribution,
    the sampling engine a rank table, and the iterative engine a rank table
    (for 0) or, after four passes, the [ZeroDivisionError] of its
    normalisation (for 1 on [corpus_abc], where every rank has become
    zero). *)
Lemma boundary_arguments_binary64_accepted :
  (¬ ∃ py, fails_with InvalidArgument
             (binary64.sample_pagerank py binary64.corpus_abc
                binary64.DAMPING 0 (binary64.draws [])))
  ∧ ∀ py,
      binary64.transition_model py binary64.corpus_abc "A" 0
      = Return [("A", 0x1.5555555555555p-2%float);
                ("B", 0x1.5555555555555p-2%float);
                ("C", 0x1.5555555555555p-2%float)]
      ∧ binary64.transition_model py binary64.corpus_abc "A" 1
        = Return [("A", 0%float); ("B", 1%float); ("C", 0%float)]
      ∧ binary64.sample_pagerank py binary64.corpus_abc 0 5
          (binary64.draws [])
        = Return [("A", 1%float); ("B", 0%float); ("C", 0%float)]
      ∧ binary64.sample_pagerank py binary64.corpus_abc 1 5
          (binary64.draws [])
        = Return [("A", 0x1.999999999999ap-2%float);
                  ("B", 0x1.3333333333333p-1%float); ("C", 0%float)]
      ∧ binary64.iterate_pagerank py 1 binary64.corpus_abc 0
        = Some (Return [("A", 0x1.5555555555555p-2%float);
                        ("B", 0x1.5555555555555p-2%float);
                        ("C", 0x1.5555555555555p-2%float)])
      ∧ binary64.iterate_pagerank py 4 binary64.corpus_abc 1
        = Some (Raise ZeroDivisionError).
Proof.
  split.
  - intros [py Hpy]. revert Hpy. apply b64_not_InvalidArgument.
    by destruct py; vm_compute.
  - intros []; by vm_compute.
Qed.

(** The transition model where its check passes. *)
Example transition_model_binary64_abc :
  binary64.transition_model binary64.plain binary64.corpus_abc "C" 0.5
  = Return [("A", 0x1.aaaaaaaaaaaabp-2%float);
            ("B", 0x1.aaaaaaaaaaaabp-2%float);
            ("C", 0x1.5555555555556p-3%float)].
Proof. by vm_compute. Qed.

(** Seven samples on three pages without links, of which two fall on A,
    three on B and two on C: the frequencies 2/7, 3/7 and 2/7 add up to
    1.0000000000000002 after the normalisation, and the left-to-right [sum]
    makes the engine raise [Exception]. *)
Example sample_pagerank_binary64_check_fires :
  binary64.sample_pagerank binary64.plain binary64.corpus_bare 0.5 7
    (binary64.draws [0; 0.125; 0.125; 0.5; 0.5; 0.5; 0.875; 0.875]%float)
  = Raise Exception.
Proof. by vm_compute. Qed.

(** Three samples on the same pages, two on A and one on B. *)
Example sample_pagerank_binary64_returns :
  binary64.sample_pagerank binary64.plain binary64.corpus_bare 0.5 3
    (binary64.draws [0; 0.125; 0.125; 0.5]%float)
  = Return [("A", 0x1.5555555555555p-1%float);
            ("B", 0x1.5555555555555p-2%float); ("C", 0%float)].
Proof. by vm_compute. Qed.

(** The iterative engine with the damping factor 0.003 on the three-page
    corpus: the first pass moves the rank of A by 0.0010000000000000009,
    which is more than the threshold, so that one pass does not suffice and
    the second pass is the last. *)
Example iterate_pagerank_binary64_second_pass :
  binary64.iterate_pagerank binary64.plain 1 binary64.corpus_cycle
    0x1.89374bc6a7efap-9 = None
  ∧ ∃ r, binary64.iterate_pagerank binary64.plain 2 binary64.corpus_cycle
           0x1.89374bc6a7efap-9 = Some (Return r).
Proof. split; [by vm_compute|]. eexists. by vm_compute. Qed.

(** The iterative engine with the damping factor 0.85 on three pages, one
    of them without links: the loop ends with the eighth pass, and the
    normalised ranks fail the sum check under either [sum]. *)
Example iterate_pagerank_binary64_check_fires :
  ∀ py, binary64.iterate_pagerank py 8
          [("A", {[ "B"; "C" ]}); ("B", {[ "A"; "C" ]}); ("C", ∅)]
          binary64.DAMPING
        = Some (Raise Exception).
Proof. intros []; by vm_compute. Qed.

(** Two pages that link to each other: one pass, and 0.5 for both. *)
Example iterate_pagerank_binary64_two :
  ∀ py, binary64.iterate_pagerank py 1 binary64.corpus_two binary64.DAMPING
        = Some (Return [("A", 0.5%float); ("B", 0.5%float)]).
Proof. intros []; by vm_compute. Qed.

(** The page A of [corpus_abc], with the damping factor 0.5. *)
Lemma transition_model_binary64_outcome_witness :
  NoDup binary64.corpus_abc.*1
  ∧ ("A", {[ "B" ]}) ∈ binary64.corpus_abc
  ∧ ({[ "B" ]} : gset string) ≠ ∅
  ∧ binary64.transition_model binary64.plain binary64.corpus_abc "A" 0.5
    = if (binary64.sum binary64.plain
            (binary64.assigned binary64.corpus_abc {[ "B" ]} 0.5).*2 =? 0)
           %float
      then Raise ZeroDivisionError
      else if (binary64.sum binary64.plain
                 (binary64.divided
                    (binary64.assigned binary64.corpus_abc {[ "B" ]} 0.5)
                    (binary64.sum binary64.plain
                       (binary64.assigned binary64.corpus_abc {[ "B" ]} 0.5).*2)
                 ).*2 =? 1)%float
           then Return
                  (binary64.divided
                     (binary64.assigned binary64.corpus_abc {[ "B" ]} 0.5)
                     (binary64.sum binary64.plain
                        (binary64.assigned binary64.corpus_abc {[ "B" ]} 0.5)
                          .*2))
           else Raise Exception.
Proof.
  split; [by_evaluation|]. split; [by_evaluation|]. split; [by_evaluation|].
  apply transition_model_binary64_outcome; by_evaluation.
Defined.


(** Three samples on three pages without links, two on A and one on B. *)
Lemma sample_pagerank_binary64_frequencies_witness :
  NoDup binary64.corpus_bare.*1
  ∧ binary64.sample_pagerank binary64.plain binary64.corpus_bare 0.5 3
      (binary64.draws [0; 0.125; 0.125; 0.5]%float)
    = Return [("A", 0x1.5555555555555p-1%float);
              ("B", 0x1.5555555555555p-2%float); ("C", 0%float)]
  ∧ (0 < 3)%Z
  ∧ ∃ counts : list (string * nat),
      counts.*1 = binary64.corpus_bare.*1
      ∧ sum_list counts.*2 = Z.to_nat 3
      ∧ [("A", 0x1.5555555555555p-1%float);
         ("B", 0x1.5555555555555p-2%float); ("C", 0%float)]
        = binary64.divided (binary64.frequencies counts 3)
            (binary64.sum binary64.plain (binary64.frequencies counts 3).*2)
      ∧ (binary64.sum binary64.plain
           [("A", 0x1.5555555555555p-1%float);
            ("B", 0x1.5555555555555p-2%float); ("C", 0%float)].*2 =? 1)%float
        = true.
Proof.
  split; [by_evaluation|]. split; [by vm_compute|].
  apply (sample_pagerank_binary64_frequencies binary64.plain
           binary64.corpus_bare 0.5 3
           (binary64.draws [0; 0.125; 0.125; 0.5]%float));
    [by_evaluation|by vm_compute].
Defined.

(** The boundary arguments on [corpus_abc]. *)
Lemma boundary_arguments_unchecked_witness :
  binary64.corpus_abc ≠ []
  ∧ (∀ d n, (n ≤ 0)%Z →
       binary64.sample_pagerank binary64.plain binary64.corpus_abc d n
         (binary64.draws []) = Raise ZeroDivisionError
       ∧ ¬ fails_with InvalidArgument
             (binary64.sample_pagerank binary64.plain binary64.corpus_abc d n
                (binary64.draws [])))
  ∧ (∀ d pg, ¬ fails_with InvalidArgument
                 (binary64.transition_model binary64.plain
                    binary64.corpus_abc pg d))
  ∧ (∀ d fuel r,
       binary64.iterate_pagerank binary64.plain fuel binary64.corpus_abc d
       = Some r →
       ¬ fails_with InvalidArgument r).
Proof. split; [done|]. by apply boundary_arguments_unchecked. Defined.

(** The iterative engine on two pages that link to each other, where the
    first pass converges. *)
Lemma iterate_pagerank_first_convergence_witness :
  NoDup binary64.corpus_two.*1 ∧ binary64.corpus_two ≠ []
  ∧ (binary64.iterate_pagerank binary64.plain 3 binary64.corpus_two
       binary64.DAMPING
     = Some (Return [("A", 0.5%float); ("B", 0.5%float)])
     ↔ ∃ k, (k < 3)%nat
         ∧ binary64.first_converged_at binary64.corpus_two binary64.DAMPING k
         ∧ Return [("A", 0.5%float); ("B", 0.5%float)]
           = binary64.normalize binary64.plain
               (binary64.passes binary64.corpus_two binary64.DAMPING (S k))).
Proof.
  split; [by_evaluation|]. split; [done|].
  apply iterate_pagerank_first_convergence; [by_evaluation|done].
Defined.

(** With the damping factor 1 on [corpus_cycle] the ranks alternate between
    two tables that differ by a third, in binary64 as in exact arithmetic:
    the loop never ends. *)
Lemma cycle_loop_alternates fuel :
  binary64.iterate_loop fuel binary64.corpus_cycle 1 0 binary64.cycle_odd
  = None
  ∧ binary64.iterate_loop fuel binary64.corpus_cycle 1 0 binary64.cycle_even
    = None.
Proof.
  induction fuel as [|fuel [IHodd IHeven]]; [done|]. split.
  - rewrite b64_iterate_loop_step; [|by_evaluation|done].
    assert (binary64.pass binary64.corpus_cycle 1 0 binary64.cycle_odd
            = binary64.cycle_even) as -> by by vm_compute.
    by rewrite decide_False by by_evaluation.
  - rewrite b64_iterate_loop_step; [|by_evaluation|done].
    assert (binary64.pass binary64.corpus_cycle 1 0 binary64.cycle_even
            = binary64.cycle_odd) as -> by by vm_compute.
    by rewrite decide_False by by_evaluation.
Qed.

(** C6 fails on the code: with the damping factor 1 on [corpus_cycle] the
    loop of the iterative engine never ends; no number of passes yields an
    outcome, be it a rank table or an error. *)
Lemma iterate_pagerank_binary64_runs_forever :
  ¬ ∃ py fuel,
      binary64.iterate_pagerank py fuel binary64.corpus_cycle 1 ≠ None.
Proof.
  intros (py & fuel & Hfuel). apply Hfuel.
  rewrite b64_iterate_pagerank_nonempty by done.
  destruct fuel as [|fuel]; [done|].
  rewrite b64_iterate_loop_step; [|by_evaluation|done].
  assert (binary64.first_term binary64.corpus_cycle 1 = 0%float) as ->
    by by vm_compute.
  assert (binary64.pass binary64.corpus_cycle 1 0
            (binary64.initial_ranks binary64.corpus_cycle)
          = binary64.cycle_odd) as -> by by vm_compute.
  rewrite decide_False by by_evaluation.
  by rewrite (proj1 (cycle_loop_alternates fuel)).
Qed.
